(** * Verification of the iOS localization scripts

    Shallow embedding of
    - [scripts/clean_unused_localizations.py] (class [LocalizationCleaner]) and
    - [scripts/check_missing_localizations.py]
    together with the properties their specification states about them.

    Python [str] values are modelled as lists of Unicode code points, a
    [set] of keys as a [gset], a [dict] as an insertion-ordered association
    list, files as functions from paths to their content, and [print] as a
    list of output events returned next to the result. *)

From Stdlib Require Import NArith Lia.
From stdpp Require Import base list strings gmap sorting.

Set Warnings "-clear-no-such-hyp".

(** ** Python strings *)

Module PyStr.

(** A code point, and a [str]. *)
Abbreviation char := N.
Abbreviation text := (list N).

(** String literals of the scripts (ASCII), read as code points. *)
Definition txt (s : string) : text :=
  Ascii.N_of_ascii <$> String.list_ascii_of_string s.

(** The same, with the apostrophe standing for the double quote. *)
Definition quoted (s : string) : text :=
  (fun c : N => if (c =? 39)%N then 34%N else c) <$> txt s.

Definition DOT : char := 46%N.
Definition UNDERSCORE : char := 95%N.
Definition QUOTE : char := 34%N.
Definition BACKSLASH : char := 92%N.
Definition EQUALS : char := 61%N.
Definition SEMICOLON : char := 59%N.
Definition HYPHEN : char := 45%N.
Definition SLASH : char := 47%N.
Definition LF : char := 10%N.
Definition CR : char := 13%N.

Definition in_range (lo hi c : N) : bool := (lo <=? c)%N && (c <=? hi)%N.

(** [str.isspace] on one code point; the class [\s] of [re] on [str]
    patterns is the same set. *)
Definition is_space (c : char) : bool :=
  in_range 9 13 c || in_range 28 32 c || (c =? 133)%N || (c =? 160)%N
  || (c =? 5760)%N || in_range 8192 8202 c || in_range 8232 8233 c
  || (c =? 8239)%N || (c =? 8287)%N || (c =? 12288)%N.

(** The line boundaries of [str.splitlines]. *)
Definition is_linebreak (c : char) : bool :=
  in_range 10 13 c || in_range 28 30 c || (c =? 133)%N || in_range 8232 8233 c.

(** [str.upper] and [str.lower] on one ASCII character (a code point below
    128): there they map the letters a-z and A-Z onto one another and leave
    every other character as it is.  Beyond ASCII Python maps further cased
    code points, some to several characters; these two functions do not, so
    they stand for [str.upper] and [str.lower] on ASCII text only.  The keys
    that the cleaner transforms are matched by [[a-zA-Z0-9_.-]+] and are
    ASCII, and every property of the transformation below is stated for
    ASCII keys ([ascii_text]). *)
Definition upper (c : char) : char :=
  if in_range 97 122 c then (c - 32)%N else c.
Definition lower (c : char) : char :=
  if in_range 65 90 c then (c + 32)%N else c.

(** [word.capitalize()] on an ASCII word: first character upper-cased, the
    rest lower-cased. *)
Definition capitalize (word : text) : text :=
  match word with
  | [] => []
  | c :: rest => upper c :: (lower <$> rest)
  end.

(** [s.split(sep)] for a one-character separator: never the empty list. *)
Fixpoint split (sep : char) (s : text) : list text :=
  match s with
  | [] => [[]]
  | c :: rest =>
      if (c =? sep)%N then [] :: split sep rest
      else match split sep rest with
           | seg :: segs => (c :: seg) :: segs
           | [] => [[c]]
           end
  end.

(** [sep.join(parts)]. *)
Fixpoint join (sep : text) (parts : list text) : text :=
  match parts with
  | [] => []
  | [p] => p
  | p :: ps => p ++ sep ++ join sep ps
  end.

(** [s.startswith(p)]. *)
Fixpoint startswith (s p : text) : bool :=
  match p, s with
  | [], _ => true
  | _ :: _, [] => false
  | a :: p', b :: s' => (a =? b)%N && startswith s' p'
  end.

(** [needle in hay]: substring test. *)
Fixpoint contains (hay needle : text) : bool :=
  startswith hay needle ||
  match hay with
  | [] => false
  | _ :: hay' => contains hay' needle
  end.

(** [s.lstrip()], [s.rstrip()], [s.strip()] with the default whitespace. *)
Fixpoint lstrip (s : text) : text :=
  match s with
  | c :: rest => if is_space c then lstrip rest else s
  | [] => []
  end.
Definition rstrip (s : text) : text := reverse (lstrip (reverse s)).
Definition strip (s : text) : text := rstrip (lstrip s).

(** [s.splitlines()]: [cur] holds the characters of the line being read, last
    first; a final line without boundary is kept when it is not empty, and
    CR LF is one boundary. *)
Fixpoint splitlines_from (cur : text) (s : text) : list text :=
  match s with
  | [] => match cur with [] => [] | _ => [reverse cur] end
  | c :: rest =>
      if (c =? CR)%N then
        match rest with
        | d :: rest' =>
            if (d =? LF)%N then reverse cur :: splitlines_from [] rest'
            else reverse cur :: splitlines_from [] rest
        | [] => reverse cur :: splitlines_from [] rest
        end
      else if is_linebreak c then reverse cur :: splitlines_from [] rest
      else splitlines_from (c :: cur) rest
  end.
Definition splitlines (s : text) : list text := splitlines_from [] s.

(** [enumerate(l)] (from 0). *)
Definition enumerate {A} (l : list A) : list (nat * A) :=
  zip (seq 0 (length l)) l.

End PyStr.
Import PyStr.

(** ** The cleaner: [LocalizationCleaner] *)

(** The body of the loop of [snake_to_camel] for a part that is not the last:
    [part[0].upper() + part[1:] if part else part]. *)
Definition title_first (part : text) : text :=
  match part with
  | [] => []
  | c :: rest => upper c :: rest
  end.

(** The body for the last part: with an underscore,
    [sub_parts[0] + ''.join(word.capitalize() for word in sub_parts[1:])],
    otherwise the part itself. *)
Definition camel_last (part : text) : text :=
  if bool_decide (UNDERSCORE ∈ part) then
    let sub_parts := split UNDERSCORE part in
    hd [] sub_parts ++ concat (capitalize <$> tail sub_parts)
  else part.

(** [LocalizationCleaner.snake_to_camel]: the loop over [enumerate(parts)]
    appends to [result_parts]; the result is ['.'.join(result_parts)]. *)
Definition snake_to_camel (snake_str : text) : text :=
  let parts := split DOT snake_str in
  let body (result_parts : list text) (ip : nat * text) :=
    if (ip.1 =? length parts - 1)%nat
    then result_parts ++ [camel_last ip.2]
    else result_parts ++ [title_first ip.2] in
  join [DOT] (fold_left body (enumerate parts) []).

(** *** The entry pattern

    With Q for the double quote and blanks added between its pieces, the
    pattern is
      ^ \s* Q ( [a-zA-Z0-9_.-]+ ) Q \s* = \s* Q ( (?: [^Q\\] | \\. )* ) Q \s* ; \s* $
    and [re.match] runs it on the stripped line.  No piece of it can give back
    what it took: a run of spaces ends before a character that is not a space,
    the key class holds no quote, and an item of the value is either one
    character other than quote and backslash or a backslash with the character
    after it.  The greedy scan from the left is therefore the one way to
    match, and the functions below follow it piece by piece. *)

Definition is_key_char (c : char) : bool :=
  in_range 97 122 c || in_range 65 90 c || in_range 48 57 c
  || (c =? UNDERSCORE)%N || (c =? DOT)%N || (c =? HYPHEN)%N.

(** One literal character of the pattern. *)
Definition expect (c : char) (s : text) : option text :=
  match s with
  | d :: rest => if (d =? c)%N then Some rest else None
  | [] => None
  end.

(** [[a-zA-Z0-9_.-]*], greedy: the run taken and what follows it. *)
Fixpoint take_key (s : text) : text * text :=
  match s with
  | c :: rest =>
      if is_key_char c then let '(k, s') := take_key rest in (c :: k, s')
      else ([], s)
  | [] => ([], [])
  end.

(** The value items and the closing quote: the items up to the closing quote, and what follows
    the quote.  [.] matches any character but the line feed. *)
Fixpoint scan_value (s : text) : option (text * text) :=
  match s with
  | [] => None
  | c :: rest =>
      if (c =? QUOTE)%N then Some ([], rest)
      else if (c =? BACKSLASH)%N then
        match rest with
        | d :: rest' =>
            if (d =? LF)%N then None
            else '(v, s') ← scan_value rest'; Some (c :: d :: v, s')
        | [] => None
        end
      else '(v, s') ← scan_value rest; Some (c :: v, s')
  end.

(** [re.match(pattern, line)] with [group(1)] and [group(2)]. *)
Definition match_entry (line : text) : option (text * text) :=
  s1 ← expect QUOTE (lstrip line);
  let '(key, s2) := take_key s1 in
  if bool_decide (key = []) then None else
  s3 ← expect QUOTE s2;
  s4 ← expect EQUALS (lstrip s3);
  s5 ← expect QUOTE (lstrip s4);
  '(value, s6) ← scan_value s5;
  s7 ← expect SEMICOLON (lstrip s6);
  if bool_decide (lstrip s7 = []) then Some (key, value) else None.

(** *** Parsing *)

(** A Python [dict] with [str] keys: the items in insertion order;
    [d[k] = v] replaces the value of a key that is there and appends a new
    key. *)
Fixpoint dict_set {V} (k : text) (v : V) (d : list (text * V)) : list (text * V) :=
  match d with
  | [] => [(k, v)]
  | (k', v') :: d' =>
      if bool_decide (k' = k) then (k, v) :: d' else (k', v') :: dict_set k v d'
  end.

Fixpoint dict_get {V} (k : text) (d : list (text * V)) : option V :=
  match d with
  | [] => None
  | (k', v') :: d' => if bool_decide (k' = k) then Some v' else dict_get k d'
  end.

(** [not line or line.startswith('//')] on a stripped line. *)
Definition blank_or_comment (line : text) : bool :=
  bool_decide (line = []) || startswith line [SLASH; SLASH].

(** The body of the loop of [parse_localizable_strings] (its prints left
    out). *)
Definition parse_line (localizations : list (text * (text * text))) (raw : text)
  : list (text * (text * text)) :=
  let line := strip raw in
  if blank_or_comment line then localizations
  else match match_entry line with
       | Some (original_key, value) =>
           dict_set original_key (snake_to_camel original_key, value) localizations
       | None => localizations
       end.

(** [LocalizationCleaner.parse_localizable_strings]; the argument is the
    content of [self.localizable_file], [None] when the file does not exist,
    and the result is [None] when [FileNotFoundError] is raised. *)
Definition parse_localizable_strings (localizable_file : option text)
  : option (list (text * (text * text))) :=
  content ← localizable_file;
  Some (fold_left parse_line (splitlines content) []).

(** The entry text [Q{original_key}Q = Q{value}Q;] that [generate_report]
    and [run] write for an entry. *)
Definition entry_text (original_key value : text) : text :=
  [QUOTE] ++ original_key ++ [QUOTE] ++ txt " = " ++ [QUOTE] ++ value
  ++ [QUOTE; SEMICOLON].

(** *** Source files *)

(** A [pathlib.Path], by its [parts]. *)
Abbreviation Path := (list text) (only parsing).

Definition search_extensions : list text :=
  [txt ".swift"; txt ".m"; txt ".mm"; txt ".h"].

Definition excluded_dirs : list text :=
  [txt "Pods"; txt "build"; txt "DerivedData"; txt ".git"].

(** [Path.name]. *)
Definition name (p : Path) : text := default [] (last p).

Definition endswith (s suffix : text) : bool :=
  startswith (reverse s) (reverse suffix).

(** [self.source_dir.rglob('*' + ext)]: the paths below the source directory,
    in the order the walk meets them, whose name ends with [ext]. *)
Definition rglob (source_tree : list Path) (ext : text) : list Path :=
  List.filter (fun p => endswith (name p) ext) source_tree.

(** [any(excluded_dir in file.parts for excluded_dir in excluded_dirs)]:
    [in] on the tuple [parts] compares whole parts. *)
Definition in_excluded_dir (file : Path) : bool :=
  existsb (fun excluded_dir => bool_decide (excluded_dir ∈ file)) excluded_dirs.

(** [LocalizationCleaner.find_swift_files]. *)
Definition find_swift_files (source_tree : list Path) : list Path :=
  let files := concat (rglob source_tree <$> search_extensions) in
  List.filter (fun file => negb (in_excluded_dir file)) files.

(** [Path.suffix]. *)
Definition rfind_dot (s : text) : option nat :=
  match list_find (fun c => c = DOT) (reverse s) with
  | Some (j, _) => Some (length s - 1 - j)
  | None => None
  end.

Definition suffix (p : Path) : text :=
  match rfind_dot (name p) with
  | Some i =>
      if bool_decide (0 < i < length (name p) - 1) then drop i (name p) else []
  | None => []
  end.

(** *** Usage *)

(** What the file system holds at a path: [None] when opening or reading
    raises. *)
Abbreviation files := (Path -> option text) (only parsing).

(** [LocalizationCleaner.search_in_file]. *)
Definition search_in_file (fs : files) (file_path : Path) (search_term : text) : bool :=
  match fs file_path with
  | Some content => contains content search_term
  | None => false
  end.

(** The searches made, in order: the file and the term. *)
Abbreviation probes := (list (Path * text)) (only parsing).

Definition prepend_probes {A} (ps : probes) (r : A * probes) : A * probes :=
  (r.1, ps ++ r.2).

(** The first loop of [is_localization_used]. *)
Fixpoint swiftgen_scan (fs : files) (swiftgen_term : text) (swift_files : list Path)
  : option Path * probes :=
  match swift_files with
  | [] => (None, [])
  | file_path :: rest =>
      if search_in_file fs file_path swiftgen_term
      then (Some file_path, [(file_path, swiftgen_term)])
      else prepend_probes [(file_path, swiftgen_term)]
             (swiftgen_scan fs swiftgen_term rest)
  end.

(** The second loop. *)
Fixpoint native_scan (fs : files) (native_term_oc native_term_swift : text)
  (swift_files : list Path) : option Path * probes :=
  match swift_files with
  | [] => (None, [])
  | file_path :: rest =>
      let continue := native_scan fs native_term_oc native_term_swift rest in
      if bool_decide (suffix file_path ∈ [txt ".m"; txt ".mm"; txt ".h"]) then
        if search_in_file fs file_path native_term_oc
        then (Some file_path, [(file_path, native_term_oc)])
        else prepend_probes [(file_path, native_term_oc)] continue
      else if bool_decide (suffix file_path = txt ".swift") then
        if search_in_file fs file_path native_term_swift
        then (Some file_path, [(file_path, native_term_swift)])
        else if search_in_file fs file_path native_term_oc
        then (Some file_path,
              [(file_path, native_term_swift); (file_path, native_term_oc)])
        else prepend_probes
               [(file_path, native_term_swift); (file_path, native_term_oc)]
               continue
      else continue
  end.

Definition swiftgen_term_of (camel_case_key : text) : text :=
  txt "L10n." ++ camel_case_key.
Definition native_term_oc_of (original_key : text) : text :=
  txt "NSLocalizedString(@" ++ [QUOTE] ++ original_key ++ [QUOTE].
Definition native_term_swift_of (original_key : text) : text :=
  txt "NSLocalizedString(" ++ [QUOTE] ++ original_key ++ [QUOTE].

(** [LocalizationCleaner.is_localization_used]: the tuple returned, and the
    searches made. *)
Definition is_localization_used (fs : files) (original_key camel_case_key : text)
  (swift_files : list Path) : (bool * list Path * text) * probes :=
  let swiftgen_term := swiftgen_term_of camel_case_key in
  match swiftgen_scan fs swiftgen_term swift_files with
  | (Some file_path, log) => ((true, [file_path], txt "SwiftGen"), log)
  | (None, log) =>
      let native_term_oc := native_term_oc_of original_key in
      let native_term_swift := native_term_swift_of original_key in
      match native_scan fs native_term_oc native_term_swift swift_files with
      | (Some file_path, log') =>
          ((true, [file_path], txt "NSLocalizedString"), log ++ log')
      | (None, log') => ((false, [], []), log ++ log')
      end
  end.

(** The [usageKind] of the specification, read off that tuple. *)
Inductive UsageKind := SwiftGenStyle | NativeLookupStyle | Unused.

Definition usage_kind (r : bool * list Path * text) : option UsageKind :=
  match r with
  | (false, _, _) => Some Unused
  | (true, _, usage_type) =>
      if bool_decide (usage_type = txt "SwiftGen") then Some SwiftGenStyle
      else if bool_decide (usage_type = txt "NSLocalizedString")
           then Some NativeLookupStyle
           else None
  end.

(** *** Removing entries *)

(** The fields of [self] that [remove_unused_localizations] reads. *)
Record Cleaner := { dry_run : bool; verbose : bool }.

(** The two files it touches, each as the lines [readlines] gives and
    [writelines] takes, [None] for a file that cannot be read; and for each
    whether it can be opened for writing.  [open(..., 'w')] raises when it
    cannot, and then leaves the file as it is; a write that has begun is
    taken to complete. *)
Record Disk := { localizable_file : option (list text);
                 backup_file : option (list text);
                 can_write_backup : bool;
                 can_write_file : bool }.

(** What it prints. *)
Inductive CleanerOutput :=
| NothingToRemove
| DryRunWouldRemove (n : nat)
| BackupCreated
| DeletedLine (line_stripped : text)
| RemovedCount (removed_count : nat)
| RemoveFailed.

(** The state of the filtering loop. *)
Record FilterState := { filtered_lines : list text;
                        removed_count : nat;
                        printed : list CleanerOutput }.

(** The body of the loop [for line in lines]. *)
Definition filter_line (verbose : bool) (unused_keys : gset text)
  (st : FilterState) (line : text) : FilterState :=
  let line_stripped := strip line in
  let keep := {| filtered_lines := filtered_lines st ++ [line];
                 removed_count := removed_count st;
                 printed := printed st |} in
  if blank_or_comment line_stripped then keep
  else match match_entry line_stripped with
       | Some (key, _) =>
           if bool_decide (key ∈ unused_keys) then
             {| filtered_lines := filtered_lines st;
                removed_count := removed_count st + 1;
                printed := printed st ++
                  (if verbose then [DeletedLine line_stripped] else []) |}
           else keep
       | None => keep
       end.

Definition filter_lines (verbose : bool) (unused_keys : gset text)
  (lines : list text) : FilterState :=
  fold_left (filter_line verbose unused_keys) lines
    {| filtered_lines := []; removed_count := 0; printed := [] |}.

(** [LocalizationCleaner.remove_unused_localizations]: the value returned, the
    files afterwards and the output.  Everything after the two early returns
    runs inside [try]: when the file cannot be read, or the backup or the
    file cannot be opened for writing, the exception is caught, the error is
    printed and the method returns [False].  The backup is written before
    the lines are filtered, the file after. *)
Definition remove_unused_localizations (self : Cleaner) (unused_keys : gset text)
  (disk : Disk) : bool * Disk * list CleanerOutput :=
  if bool_decide (unused_keys = ∅) then (true, disk, [NothingToRemove])
  else if dry_run self then (true, disk, [DryRunWouldRemove (size unused_keys)])
  else match localizable_file disk with
       | None => (false, disk, [RemoveFailed])
       | Some lines =>
           if negb (can_write_backup disk) then (false, disk, [RemoveFailed])
           else
             let disk := {| localizable_file := Some lines;
                            backup_file := Some lines;
                            can_write_backup := can_write_backup disk;
                            can_write_file := can_write_file disk |} in
             let st := filter_lines (verbose self) unused_keys lines in
             if negb (can_write_file disk)
             then (false, disk, [BackupCreated] ++ printed st ++ [RemoveFailed])
             else (true,
                   {| localizable_file := Some (filtered_lines st);
                      backup_file := Some lines;
                      can_write_backup := can_write_backup disk;
                      can_write_file := can_write_file disk |},
                   [BackupCreated] ++ printed st ++ [RemovedCount (removed_count st)])
       end.

(** ** The key-diff tool: [check_missing_localizations.py] *)

Module Checker.

(** The lazy tail of its pattern, any characters and then quote and
    semicolon: some quote followed by a semicolon is reached over characters
    that are not line feeds. *)
Fixpoint lazy_to_quote_semicolon (s : text) : bool :=
  startswith s [QUOTE; SEMICOLON] ||
  match s with
  | c :: rest => negb (c =? LF)%N && lazy_to_quote_semicolon rest
  | [] => false
  end.

(** [pattern.match(line)] with [group(1)]; with Q for the double quote and
    blanks added, the pattern is
      ^ Q ( (?: [^Q\\] | \\. )* ) Q \s* = \s* Q .*? Q ;
    The key is scanned as the cleaner scans a value. *)
Definition match_key (line : text) : option text :=
  s1 ← expect QUOTE line;
  '(key, s2) ← scan_value s1;
  s3 ← expect EQUALS (lstrip s2);
  s4 ← expect QUOTE (lstrip s3);
  if lazy_to_quote_semicolon s4 then Some key else None.

(** The body of the loop of [parse_strings_file_content]. *)
Definition add_key (keys : gset text) (raw : text) : gset text :=
  let line := strip raw in
  if blank_or_comment line then keys
  else match match_key line with
       | Some key => {[ key ]} ∪ keys
       | None => keys
       end.

(** [parse_strings_file_content]. *)
Definition parse_strings_file_content (content : text) : gset text :=
  fold_left add_key (splitlines content) ∅.

(** What the tool prints. *)
Inductive Output :=
| FileError (file_path : text)
| ReadingBase (file_path : text)
| NoKeysInBase
| BaseKeyCount (n : nat)
| ReadingCompare (index : nat) (file_path : text)
| CompareKeyCount (index : nat) (n : nat)
| Rule
| MissingHeader (compare_name : text) (n : nat)
| MissingKey (key : text)
| NothingMissing (compare_name : text)
| Summary (total_missing : nat).

(** The files, by path string: [None] when the path does not exist or
    reading raises. *)
Abbreviation files := (text -> option text) (only parsing).

(** [read_file_content]. *)
Definition read_file_content (fs : files) (file_path : text)
  : option text * list Output :=
  match fs file_path with
  | Some content => (Some content, [])
  | None => (None, [FileError file_path])
  end.

(** Order of [str]: by code points, a proper prefix first. *)
Fixpoint str_le (a b : text) : bool :=
  match a, b with
  | [], _ => true
  | _ :: _, [] => false
  | x :: a', y :: b' => (x <? y)%N || ((x =? y)%N && str_le a' b')
  end.

Definition str_order : relation text := fun a b => str_le a b = true.

#[global] Instance str_order_dec a b : Decision (str_order a b).
Proof. unfold str_order. apply _. Defined.

(** [sorted(keys)]: the order above being total and antisymmetric, the
    sorted list does not depend on the sorting algorithm. *)
Definition sorted (keys : list text) : list text :=
  merge_sort str_order keys.

(** [compare_and_display_missing_keys]; [listing] is the order in which
    [list(missing_keys)] enumerates a set. *)
Definition compare_and_display_missing_keys (listing : gset text -> list text)
  (base_keys compare_keys : gset text) (compare_name : text)
  : nat * list Output :=
  let missing_keys := base_keys ∖ compare_keys in
  if bool_decide (missing_keys = ∅)
  then (size missing_keys, [NothingMissing compare_name])
  else (size missing_keys,
        MissingHeader compare_name (size missing_keys)
        :: (MissingKey <$> sorted (listing missing_keys))).

(** [os.path.basename] and [os.path.dirname] of [posixpath]: the path is cut
    after its last slash. *)
Definition basename (p : text) : text := default [] (last (split SLASH p)).

Fixpoint lstrip_slash (r : text) : text :=
  match r with
  | c :: rest => if (c =? SLASH)%N then lstrip_slash rest else r
  | [] => []
  end.

Definition dirname (p : text) : text :=
  let head := take (length p - length (basename p)) p in
  if bool_decide (head ≠ []) && negb (forallb (fun c => (c =? SLASH)%N) head)
  then reverse (lstrip_slash (reverse head))
  else head.

(** The parsed arguments. *)
Record Args := { base_file : text;
                 compare_file1 : text;
                 compare_file2 : option text }.

(** [if args.compare_file2:] holds for a path that is given and not empty. *)
Definition given (compare_file2 : option text) : option text :=
  match compare_file2 with
  | Some p => if bool_decide (p = []) then None else Some p
  | None => None
  end.

(** [main]: the value returned and the output. *)
Definition main (listing : gset text -> list text) (fs : files) (args : Args)
  : nat * list Output :=
  let out := [ReadingBase (base_file args)] in
  let '(base_content, o) := read_file_content fs (base_file args) in
  let out := out ++ o in
  match base_content with
  | None => (1, out)
  | Some base_content =>
  let base_keys := parse_strings_file_content base_content in
  if bool_decide (base_keys = ∅) then (1, out ++ [NoKeysInBase]) else
  let out := out ++ [BaseKeyCount (size base_keys)] in
  let compare1_name := basename (dirname (compare_file1 args)) in
  let out := out ++ [ReadingCompare 1 (compare_file1 args)] in
  let '(compare1_content, o) := read_file_content fs (compare_file1 args) in
  let out := out ++ o in
  match compare1_content with
  | None => (1, out)
  | Some compare1_content =>
  let compare1_keys := parse_strings_file_content compare1_content in
  let out := out ++ [CompareKeyCount 1 (size compare1_keys); Rule] in
  let '(total_missing, o) :=
    compare_and_display_missing_keys listing base_keys compare1_keys compare1_name in
  let out := out ++ o in
  let '(total_missing, out) :=
    match given (compare_file2 args) with
    | Some file2 =>
        let out := out ++ [Rule] in
        let compare2_name := basename (dirname file2) in
        let out := out ++ [ReadingCompare 2 file2] in
        let '(compare2_content, o) := read_file_content fs file2 in
        let out := out ++ o in
        match compare2_content with
        | Some compare2_content =>
            let compare2_keys := parse_strings_file_content compare2_content in
            let out := out ++ [CompareKeyCount 2 (size compare2_keys); Rule] in
            let '(n, o) :=
              compare_and_display_missing_keys listing base_keys compare2_keys
                compare2_name in
            (total_missing + n, out ++ o)
        | None => (total_missing, out)
        end
    | None => (total_missing, out)
    end in
  let out := out ++ [Rule; Summary total_missing; Rule] in
  (if bool_decide (total_missing = 0) then 0 else 1, out)
  end
  end.

(** The script's last lines call [main()] and drop what it returns: once
    [main] has returned, the interpreter ends with status 0. *)
Definition script (listing : gset text -> list text) (fs : files) (args : Args)
  : nat * list Output :=
  let '(_, out) := main listing fs args in (0, out).

End Checker.

(** ** The cleaner, continued: discovery, usage table, report and [run] *)

(** [f.readlines()] of a file opened in text mode, on the content as [read]
    gives it (line ends already translated to the line feed): the content is
    cut after every line feed, and a last line without one is kept. *)
Fixpoint readlines_from (cur : text) (s : text) : list text :=
  match s with
  | [] => match cur with [] => [] | _ => [reverse cur] end
  | c :: rest =>
      if (c =? LF)%N then reverse (c :: cur) :: readlines_from [] rest
      else readlines_from (c :: cur) rest
  end.
Definition readlines (s : text) : list text := readlines_from [] s.

(** The exceptions that leave the constructor. *)
Inductive Raised := FileNotFoundError | AttributeError | IndexError.

(** [LocalizationCleaner._find_localizable_file]; [paths] are the paths that
    exist. *)
Definition _find_localizable_file (paths : list Path) (project_root : Path)
  : Raised + Path :=
  let common_paths :=
    [project_root ++ [txt "Resources"; txt "Localization"; txt "en.lproj";
                      txt "Localizable.strings"];
     project_root ++ [txt "Resources"; txt "Localization"; txt "zh-Hans.lproj";
                      txt "Localizable.strings"];
     project_root ++ [txt "Localization"; txt "en.lproj"; txt "Localizable.strings"]] in
  match List.find (fun path => bool_decide (path ∈ paths)) common_paths with
  | Some path => inr path
  | None => inl FileNotFoundError
  end.

(** The loop of [_find_source_dir].  [search_extensions] is the attribute of
    [self] at the time of the call, [None] while it is not set: reading it
    then raises [AttributeError].  The test
    [dir_path.exists() and any(dir_path.rglob(...))] reads it only for a
    directory that exists.  [walk dir_path] is what the walk that [rglob]
    makes from [dir_path] reaches; it depends on the directory the walk
    starts from, since the walk follows a symbolic link given as its start
    and does not descend into a linked directory it meets. *)
Fixpoint source_dir_loop (search_extensions : option (list text))
  (paths : list Path) (walk : Path → list Path) (project_root : Path)
  (common_dirs : list Path) : Raised + Path :=
  match common_dirs with
  | [] => inr project_root
  | dir_path :: rest =>
      if bool_decide (dir_path ∈ paths) then
        match search_extensions with
        | None => inl AttributeError
        | Some [] => inl IndexError
        | Some (ext :: _) =>
            if bool_decide (rglob (walk dir_path) ext = [])
            then source_dir_loop search_extensions paths walk project_root rest
            else inr dir_path
        end
      else source_dir_loop search_extensions paths walk project_root rest
  end.

(** [LocalizationCleaner._find_source_dir]. *)
Definition _find_source_dir (search_extensions : option (list text))
  (paths : list Path) (walk : Path → list Path) (project_root : Path)
  : Raised + Path :=
  source_dir_loop search_extensions paths walk project_root
    [project_root; project_root ++ [txt "Sources"]; project_root ++ [txt "App"]].

(** The attributes of a constructed cleaner. *)
Record Self := {
  self_project_root : Path;
  self_localizable_file : Path;
  self_source_dir : Path;
  self_flags : Cleaner }.

(** [LocalizationCleaner.__init__], with [path_of] for [Path(...)] of a
    string.  An argument counts as given when it is a string that is not
    empty.  [self.search_extensions] is assigned by the last statement, after
    the call of [_find_source_dir], which therefore runs without it. *)
Definition __init__ (path_of : text → Path) (paths : list Path)
  (walk : Path → list Path)
  (project_root : Path) (localizable_file source_dir : option text)
  (dry_run verbose : bool) : Raised + Self :=
  match (match Checker.given localizable_file with
         | Some file => inr (path_of file)
         | None => _find_localizable_file paths project_root
         end) with
  | inl e => inl e
  | inr self_localizable_file =>
      match (match Checker.given source_dir with
             | Some dir => inr (path_of dir)
             | None => _find_source_dir None paths walk project_root
             end) with
      | inl e => inl e
      | inr self_source_dir =>
          inr {| self_project_root := project_root;
                 self_localizable_file := self_localizable_file;
                 self_source_dir := self_source_dir;
                 self_flags := {| dry_run := dry_run; verbose := verbose |} |}
      end
  end.

(** The body of the loop of [find_unused_localizations] (its prints left
    out): the entry goes to [unused] or to [used_details]. *)
Definition classify_entry (fs : files) (swift_files : list Path)
  (acc : list (text * (text * text)) * list (text * (text * text * text)))
  (item : text * (text * text))
  : list (text * (text * text)) * list (text * (text * text * text)) :=
  let '(original_key, (camel_case_key, value)) := item in
  let '(is_used, _, usage_type) :=
    (is_localization_used fs original_key camel_case_key swift_files).1 in
  if negb is_used
  then (dict_set original_key (camel_case_key, value) acc.1, acc.2)
  else (acc.1, dict_set original_key (camel_case_key, value, usage_type) acc.2).

(** [LocalizationCleaner.find_unused_localizations]: [(unused, used_details)]. *)
Definition find_unused_localizations (fs : files) (source_tree : list Path)
  (localizations : list (text * (text * text)))
  : list (text * (text * text)) * list (text * (text * text * text)) :=
  let swift_files := find_swift_files source_tree in
  fold_left (classify_entry fs swift_files) localizations ([], []).

(** What [generate_report] writes: the numbers of the statistics block, the
    two terms of the usage rate (the code prints their quotient as a
    percentage) and the text of the entries listed as unused.  Headings,
    paths and the time of the scan are left out. *)
Record Report := {
  report_total : nat;
  report_used : nat;
  report_swiftgen : nat;
  report_nslocalizedstring : nat;
  report_unused : nat;
  report_rate : Z * Z;
  report_unused_text : text }.

(** [sum(1 for details in used_details.values() if details[2] == usage)]. *)
Definition count_usage (usage : text)
  (used_details : list (text * (text * text * text))) : nat :=
  length (List.filter (fun item => bool_decide (item.2.2 = usage)) used_details).

(** The lines written for the unused entries, each the entry text and a
    line feed. *)
Definition unused_text (unused : list (text * (text * text))) : text :=
  concat ((fun item => entry_text item.1 item.2.2 ++ [LF]) <$> unused).

(** [LocalizationCleaner.generate_report]: [None] when the division by
    [len(localizations)] raises [ZeroDivisionError]. *)
Definition generate_report (localizations unused : list (text * (text * text)))
  (used_details : list (text * (text * text * text))) : option Report :=
  if bool_decide (length localizations = 0) then None
  else Some {|
    report_total := length localizations;
    report_used := length used_details;
    report_swiftgen := count_usage (txt "SwiftGen") used_details;
    report_nslocalizedstring := count_usage (txt "NSLocalizedString") used_details;
    report_unused := length unused;
    report_rate := ((Z.of_nat (length localizations) - Z.of_nat (length unused))%Z,
                    Z.of_nat (length localizations));
    report_unused_text := unused_text unused |}.

(** The files [run] reads and writes: the localization file and its backup,
    as the text [read] gives and [write] takes, and the report; and for each
    whether it can be opened for writing. *)
Record World := {
  strings_file : option text;
  strings_backup : option text;
  report_file : option Report;
  strings_writable : bool;
  backup_writable : bool;
  report_writable : bool }.

(** [w] after the localization file and its backup have become [file] and
    [backup], and [w] after the report has become [report]. *)
Definition with_strings (w : World) (file backup : option text) : World :=
  {| strings_file := file;
     strings_backup := backup;
     report_file := report_file w;
     strings_writable := strings_writable w;
     backup_writable := backup_writable w;
     report_writable := report_writable w |}.

Definition with_report (w : World) (report : option Report) : World :=
  {| strings_file := strings_file w;
     strings_backup := strings_backup w;
     report_file := report;
     strings_writable := strings_writable w;
     backup_writable := backup_writable w;
     report_writable := report_writable w |}.

(** [remove_unused_localizations] on these files: [readlines] gives the
    lines and [writelines] writes their concatenation. *)
Definition remove_in_world (self : Cleaner) (unused_keys : gset text) (w : World)
  : bool * World :=
  let disk := {| localizable_file := readlines <$> strings_file w;
                 backup_file := readlines <$> strings_backup w;
                 can_write_backup := backup_writable w;
                 can_write_file := strings_writable w |} in
  let '(success, disk', _) := remove_unused_localizations self unused_keys disk in
  (success,
   with_strings w
     ((fun lines : list text => concat lines) <$> localizable_file disk')
     ((fun lines : list text => concat lines) <$> backup_file disk')).

(** What [input] does at the prompt: it returns the line typed, or it raises
    [EOFError] at the end of the input, or [KeyboardInterrupt]. *)
Inductive Input := Typed (confirm : text) | EndOfInput | Interrupted.

(** The exceptions that leave [run]. *)
Inductive RunRaised := ZeroDivisionError | OSError | EOFError | KeyboardInterrupt.

(** [LocalizationCleaner.run] (its prints left out): what it returns, or the
    exception that leaves it, and the files afterwards.  An exception of
    [parse_localizable_strings] is caught and gives [False]; nothing else is
    caught: [generate_report] raises when the report cannot be opened for
    writing (and it would leave the report unfinished if its division
    raised), and [input] raises as said above.  The test
    [confirm.lower() == 'y'] is exact with [lower]: no code point beyond
    ASCII has the letter y as its lower case. *)
Definition run (self : Cleaner) (fs : files) (source_tree : list Path)
  (input : Input) (w : World) : (RunRaised + bool) * World :=
  match parse_localizable_strings (strings_file w) with
  | None => (inr false, w)
  | Some localizations =>
      if bool_decide (localizations = []) then (inr false, w) else
      let '(unused, used_details) :=
        find_unused_localizations fs source_tree localizations in
      if negb (report_writable w) then (inl OSError, w) else
      match generate_report localizations unused used_details with
      | None => (inl ZeroDivisionError, with_report w None)
      | Some report =>
          let w := with_report w (Some report) in
          if bool_decide (unused = []) then (inr true, w)
          else if dry_run self then (inr true, w)
          else match input with
               | Typed confirm =>
                   if bool_decide (lower <$> confirm = txt "y") then
                     let '(success, w') :=
                       remove_in_world self (list_to_set unused.*1) w in
                     (inr success, w')
                   else (inr true, w)
               | EndOfInput => (inl EOFError, w)
               | Interrupted => (inl KeyboardInterrupt, w)
               end
      end
  end.

(** The command line of the cleaner as [parse_args] leaves it: it exits on a
    usage error and on [--help], and otherwise returns the arguments;
    [args_project_root] is [Path(args.project_root).resolve()]. *)
Record CleanerArgs := {
  args_dry_run : bool;
  args_verbose : bool;
  args_project_root : Path;
  args_localizable_file : option text;
  args_source_dir : option text }.

Inductive CommandLine := UsageError | Help | Parsed (args : CleanerArgs).

(** [main] of the cleaner: the status it exits with.  [world file] is the
    localization file at [file] with its backup and the report.  A usage
    error exits with 2 and [--help] with 0; every exception of the
    constructor and of [run] is caught and ends in [sys.exit(1)]. *)
Definition main (path_of : text → Path) (paths : list Path)
  (walk : Path → list Path) (fs : files) (input : Input) (world : Path → World)
  (command_line : CommandLine) : nat :=
  match command_line with
  | UsageError => 2
  | Help => 0
  | Parsed args =>
      let project_root := args_project_root args in
      if negb (bool_decide (project_root ∈ paths)) then 1
      else match __init__ path_of paths walk project_root
                   (args_localizable_file args) (args_source_dir args)
                   (args_dry_run args) (args_verbose args) with
           | inl _ => 1
           | inr cleaner =>
               match (run (self_flags cleaner) fs
                        (walk (self_source_dir cleaner)) input
                        (world (self_localizable_file cleaner))).1 with
               | inr success => if success then 0 else 1
               | inl _ => 1
               end
           end
  end.

(** * Vocabulary of the properties

    The notions the properties below are stated with: what a line, a file or
    a path has to be like, said without the scanning functions of the
    model. *)

(** ** Keys *)

(** An ASCII text: on such a text [upper], [lower] and [capitalize] are
    Python's [str.upper], [str.lower] and [str.capitalize].  Every key of the
    key class [[a-zA-Z0-9_.-]] is one. *)
Definition ascii_text (s : text) : Prop := Forall (fun c => (c < 128)%N) s.

(** The parts after the loop of [snake_to_camel]: every part but the last
    through [title_first], the last through [camel_last]. *)
Fixpoint transform_parts (parts : list text) : list text :=
  match parts with
  | [] => []
  | [part] => [camel_last part]
  | part :: rest => title_first part :: transform_parts rest
  end.

(** The transformation as the specification words it for the last segment:
    in every sub-segment after the first the first character is capitalized,
    and nothing else is said to change. *)
Definition claimed_last (part : text) : text :=
  if bool_decide (UNDERSCORE ∈ part) then
    hd [] (split UNDERSCORE part)
    ++ concat (title_first <$> tail (split UNDERSCORE part))
  else part.

Fixpoint claimed_parts (parts : list text) : list text :=
  match parts with
  | [] => []
  | [part] => [claimed_last part]
  | part :: rest => title_first part :: claimed_parts rest
  end.

Definition claimed_transform (key : text) : text :=
  join [DOT] (claimed_parts (split DOT key)).

(** ** Entry lines *)

(** A run of white space, and a run of key characters. *)
Definition spaces (ws : text) : Prop := Forall (fun c => is_space c = true) ws.
Definition key_chars (k : text) : Prop := Forall (fun c => is_key_char c = true) k.

(** The texts the value group matches: items that are one character other
    than quote and backslash, or a backslash and a character other than the
    line feed. *)
Inductive value_body : text → Prop :=
| value_end : value_body []
| value_plain c v :
    c ≠ QUOTE → c ≠ BACKSLASH → value_body v → value_body (c :: v)
| value_escape c v :
    c ≠ LF → value_body v → value_body (BACKSLASH :: c :: v).

(** [line] matches the entry pattern with [key] and [value] as its groups. *)
Definition entry_line (line key value : text) : Prop :=
  ∃ ws1 ws2 ws3 ws4 ws5 : text,
    line = ws1 ++ QUOTE :: key ++ QUOTE :: ws2 ++ EQUALS :: ws3
           ++ QUOTE :: value ++ QUOTE :: ws4 ++ SEMICOLON :: ws5
    ∧ spaces ws1 ∧ spaces ws2 ∧ spaces ws3 ∧ spaces ws4 ∧ spaces ws5
    ∧ key ≠ [] ∧ key_chars key ∧ value_body value.

(** A text that [splitlines] does not cut. *)
Definition no_linebreak (s : text) : Prop :=
  Forall (fun c => is_linebreak c = false) s.

(** The value group as a test. *)
Fixpoint value_ok (v : text) : bool :=
  match v with
  | [] => true
  | c :: rest =>
      if (c =? QUOTE)%N then false
      else if (c =? BACKSLASH)%N then
        match rest with
        | d :: rest' => negb (d =? LF)%N && value_ok rest'
        | [] => false
        end
      else value_ok rest
  end.

(** A value with no unescaped quote, read literally: every quote in it
    stands right after a backslash that is not itself escaped. *)
Fixpoint no_unescaped_quote (v : text) : bool :=
  match v with
  | [] => true
  | c :: rest =>
      if (c =? QUOTE)%N then false
      else if (c =? BACKSLASH)%N then
        match rest with
        | _ :: rest' => no_unescaped_quote rest'
        | [] => true
        end
      else no_unescaped_quote rest
  end.

(** [raw] is a line of the file whose stripped text matches the entry pattern
    with this key and value. *)
Definition line_holds (raw key value : text) : Prop :=
  entry_line (strip raw) key value.

(** The last line of [lines] that holds [key] holds it with [value]. *)
Definition last_holds (lines : list text) (key value : text) : Prop :=
  ∃ before raw after,
    lines = before ++ raw :: after
    ∧ line_holds raw key value
    ∧ ∀ raw' value', raw' ∈ after → ¬ line_holds raw' key value'.

(** [line] matches the entry pattern with a key that is to be removed. *)
Definition removed_line (unused_keys : gset text) (line : text) : Prop :=
  ∃ key value, entry_line line key value ∧ key ∈ unused_keys.

(** ** References in source files *)

(** The file at [file] can be read and its content holds [term]. *)
Definition file_has (fs : files) (file : Path) (term : text) : Prop :=
  ∃ content pre post, fs file = Some content ∧ content = pre ++ term ++ post.

(** The generator-style reference: the prefix and the transformed key. *)
Definition generator_ref (fs : files) (camel_case_key : text) (file : Path) : Prop :=
  file_has fs file (txt "L10n." ++ camel_case_key).

(** The native-lookup reference that goes with the extension of the file. *)
Definition native_ref (fs : files) (original_key : text) (file : Path) : Prop :=
  (suffix file ∈ [txt ".m"; txt ".mm"; txt ".h"]
   ∧ file_has fs file (txt "NSLocalizedString(@" ++ [QUOTE] ++ original_key ++ [QUOTE]))
  ∨ (suffix file = txt ".swift"
     ∧ (file_has fs file (txt "NSLocalizedString(" ++ [QUOTE] ++ original_key ++ [QUOTE])
        ∨ file_has fs file
            (txt "NSLocalizedString(@" ++ [QUOTE] ++ original_key ++ [QUOTE]))).

(** The exclusion as the specification words it: some directory segment of
    the path, that is some part before the file name, has an excluded name as
    a substring. *)
Definition claimed_excluded (file : list text) : Prop :=
  ∃ segment excluded_dir pre post,
    segment ∈ removelast file ∧ excluded_dir ∈ excluded_dirs
    ∧ segment = pre ++ excluded_dir ++ post.

(** ** The key-diff tool *)

Module CheckerSpec.
Import Checker.

(** The keys shown as missing, in the order shown. *)
Definition displayed_keys (out : list Output) : list text :=
  omap (fun o => match o with MissingKey key => Some key | _ => None end) out.

(** The key a line contributes, if any. *)
Definition key_of_line (raw : text) : option text :=
  if blank_or_comment (strip raw) then None else match_key (strip raw).

(** Files for the examples: [content] at each listed path, nothing
    elsewhere. *)
Definition disk_of (entries : list (text * text)) : text → option text :=
  fun file_path => dict_get file_path entries.

End CheckerSpec.

(** ** Tables, files and runs *)

(** The only line boundary of the text is the line feed: [splitlines] and
    [readlines] then cut it at the same places. *)
Definition lf_only (s : text) : Prop :=
  Forall (fun c => is_linebreak c = true → c = LF) s.

(** An entry as the parser makes them: a key of at least one key character
    with its transformed key, and a value of the value group without line
    boundary. *)
Definition entry_ok (item : text * (text * text)) : Prop :=
  item.1 ≠ [] ∧ key_chars item.1 ∧ item.2.1 = snake_to_camel item.1
  ∧ value_body item.2.2 ∧ no_linebreak item.2.2.

(** The classifier finds the entry used. *)
Definition entry_used (fs : files) (swift_files : list Path)
  (item : text * (text * text)) : bool :=
  (is_localization_used fs item.1 item.2.1 swift_files).1.1.1.

(** The tag the classifier gives with it. *)
Definition entry_usage (fs : files) (swift_files : list Path)
  (item : text * (text * text)) : text :=
  (is_localization_used fs item.1 item.2.1 swift_files).1.2.

(** No candidate file holds a reference to the entry, in either style. *)
Definition unreferenced (fs : files) (swift_files : list Path)
  (item : text * (text * text)) : Prop :=
  ∀ file, file ∈ swift_files →
    ¬ generator_ref fs item.2.1 file ∧ ¬ native_ref fs item.1 file.

(** The localization file can be read and some line of it holds an entry. *)
Definition has_entries (w : World) : Prop :=
  ∃ content, strings_file w = Some content
    ∧ ∃ raw key value, raw ∈ splitlines content ∧ line_holds raw key value.

(** Some entry of the localization file is referenced by no source file. *)
Definition some_unused (fs : files) (source_tree : list Path) (w : World) : Prop :=
  ∃ table item,
    parse_localizable_strings (strings_file w) = Some table
    ∧ item ∈ table ∧ unreferenced fs (find_swift_files source_tree) item.

(** [run] gets to its prompt: the report can be written, some entry is
    unused, and the run is a real one. *)
Definition prompts (self : Cleaner) (fs : files) (source_tree : list Path)
  (w : World) : Prop :=
  report_writable w = true ∧ some_unused fs source_tree w ∧ dry_run self = false.

(** The answer at the prompt is [y] or [Y]. *)
Definition confirmed (input : Input) : Prop :=
  input = Typed (txt "y") ∨ input = Typed (txt "Y").

(** The backup and the localization file can be written. *)
Definition writes_allowed (w : World) : Prop :=
  backup_writable w = true ∧ strings_writable w = true.

(** What it takes for [run] to return [True]: entries, a report that can be
    written, and then nothing to remove, or a preview, or an answer at the
    prompt that, when it confirms, finds the two files writable. *)
Definition run_succeeds (self : Cleaner) (fs : files) (source_tree : list Path)
  (input : Input) (w : World) : Prop :=
  has_entries w ∧ report_writable w = true
  ∧ (¬ some_unused fs source_tree w
     ∨ dry_run self = true
     ∨ ((∃ confirm, input = Typed confirm)
        ∧ (confirmed input → writes_allowed w))).

(** A line that ends with its only line feed, and a last line without. *)
Definition terminated (l : text) : Prop := ∃ body, l = body ++ [LF] ∧ LF ∉ body.
Definition unterminated (l : text) : Prop := l ≠ [] ∧ LF ∉ l.
Definition file_lines (lines : list text) : Prop :=
  ∃ init final, lines = init ++ final ∧ Forall terminated init
                ∧ (final = [] ∨ ∃ l, final = [l] ∧ unterminated l).

(** ** Lines of the key-diff tool *)

(** [line] matches the pattern of the key-diff tool with [key] as its group:
    a quoted key of the items of the value group, an equals sign with white
    space around it, a quote, and then, over characters other than the line
    feed, a quote that a semicolon follows. *)
Definition key_line (line key : text) : Prop :=
  ∃ ws2 ws3 body rest : text,
    line = QUOTE :: key ++ QUOTE :: ws2 ++ EQUALS :: ws3
           ++ QUOTE :: body ++ QUOTE :: SEMICOLON :: rest
    ∧ value_body key ∧ spaces ws2 ∧ spaces ws3 ∧ LF ∉ body.

(** * Properties *)

(** ** The model on small inputs *)

Example splitlines_example :
  splitlines (txt "a" ++ [CR; LF] ++ txt "b" ++ [LF; LF] ++ txt " c" ++ [LF])
  = [txt "a"; txt "b"; []; txt " c"].
Proof. reflexivity. Qed.

Example strip_example : strip (txt "  a b " ++ [LF]) = txt "a b".
Proof. reflexivity. Qed.

Example suffix_examples :
  suffix [txt "App"; txt "View.swift"] = txt ".swift"
  ∧ suffix [txt "App"; txt ".swift"] = []
  ∧ suffix [txt "archive.tar.gz"] = txt ".gz"
  ∧ suffix [txt "Makefile"] = [].
Proof. by vm_compute. Qed.

Example match_entry_example :
  match_entry (quoted "'market.header.amount_usdt'  =  'Amount \'USDT\'' ;")
  = Some (txt "market.header.amount_usdt",
          txt "Amount " ++ [BACKSLASH; QUOTE] ++ txt "USDT" ++ [BACKSLASH; QUOTE])
  ∧ match_entry (quoted "'spaced key' = 'x';") = None
  ∧ match_entry (quoted "'k' = 'unfinished") = None.
Proof. by vm_compute. Qed.

Example match_key_example :
  Checker.match_key (quoted "'Hello World' = 'x'; // note") = Some (txt "Hello World").
Proof. by vm_compute. Qed.

Example native_lookup_and_unused_example :
  let file := [txt "App"; txt "View.swift"] in
  let fs : list text → option text := fun p =>
    if bool_decide (p = file)
    then Some (quoted "let s = NSLocalizedString('market.back', comment: '')")
    else None in
  (is_localization_used fs (txt "market.back")
     (snake_to_camel (txt "market.back")) [file]).1
  = (true, [file], txt "NSLocalizedString")
  ∧ (is_localization_used fs (txt "orphan.key")
       (snake_to_camel (txt "orphan.key")) [file]).1
    = (false, [], []).
Proof. by vm_compute. Qed.

Example basename_dirname_locale :
  Checker.basename (Checker.dirname (txt "App/Resource/zh-Hans.lproj/Localizable.strings"))
  = txt "zh-Hans.lproj".
Proof. vm_compute. reflexivity. Qed.


(** ** Facts about the string operations *)

Module PyStrFacts.

(** Case analysis on the comparisons of code points in the goal. *)
Ltac compare_cases :=
  repeat match goal with
    | |- context [(?a <=? ?b)%N] => destruct (N.leb_spec a b)
    | |- context [(?a =? ?b)%N] => destruct (N.eqb_spec a b)
    end;
  simpl in *; try congruence; try lia.

(** Boolean tests on code points as linear arithmetic. *)
Ltac char_lia :=
  unfold is_true, upper, lower, is_space, is_linebreak, in_range,
    DOT, UNDERSCORE, QUOTE, BACKSLASH, EQUALS, SEMICOLON, HYPHEN, SLASH, LF, CR in *;
  rewrite ?orb_true_iff, ?andb_true_iff, ?orb_false_iff, ?andb_false_iff,
    ?negb_true_iff, ?negb_false_iff,
    ?N.leb_le, ?N.leb_gt, ?N.ltb_lt, ?N.ltb_ge, ?N.eqb_eq, ?N.eqb_neq in *;
  lia.

Lemma upper_idempotent c : upper (upper c) = upper c.
Proof. unfold upper, in_range. compare_cases. Qed.

Lemma upper_keeps_other c d :
  (d = DOT ∨ d = UNDERSCORE) → c ≠ d → upper c ≠ d.
Proof.
  intros [-> | ->] Hc; unfold upper, lower, in_range, DOT, UNDERSCORE in *;
    compare_cases.
Qed.

Lemma lower_keeps_other c d :
  (d = DOT ∨ d = UNDERSCORE) → c ≠ d → lower c ≠ d.
Proof.
  intros [-> | ->] Hc; unfold upper, lower, in_range, DOT, UNDERSCORE in *;
    compare_cases.
Qed.

Lemma split_nonempty sep s : split sep s ≠ [].
Proof.
  destruct s as [|c s]; simpl; [done|].
  destruct (c =? sep)%N; [done|]. by destruct (split sep s).
Qed.

Lemma split_cons sep c s :
  split sep (c :: s) =
  if (c =? sep)%N then [] :: split sep s
  else (c :: hd [] (split sep s)) :: tail (split sep s).
Proof.
  simpl. destruct (c =? sep)%N; [done|].
  destruct (split sep s) eqn:E; [|done]. by apply split_nonempty in E.
Qed.

(** No part holds the separator. *)
Lemma split_no_sep sep s : Forall (fun p => sep ∉ p) (split sep s).
Proof.
  induction s as [|c s IH].
  - repeat constructor. apply not_elem_of_nil.
  - rewrite split_cons. destruct (N.eqb_spec c sep) as [->|Hne].
    + constructor; [apply not_elem_of_nil | done].
    + destruct (split sep s) as [|p ps]; simpl.
      * repeat constructor. set_solver.
      * inversion IH; subst. constructor; [set_solver | done].
Qed.

(** The characters of the parts are characters of the string. *)
Lemma split_elem sep s p x : p ∈ split sep s → x ∈ p → x ∈ s.
Proof.
  revert p. induction s as [|c s IH]; intros p.
  - simpl. intros Hp%list_elem_of_singleton Hx. by subst.
  - rewrite split_cons. destruct (c =? sep)%N.
    + intros Hp%elem_of_cons Hx. destruct Hp as [->|Hp].
      * by apply elem_of_nil in Hx.
      * right. eauto.
    + pose proof (split_nonempty sep s) as Hne.
      destruct (split sep s) as [|q qs]; [done|]. simpl in *.
      intros Hp%elem_of_cons Hx. destruct Hp as [->|Hp].
      * apply elem_of_cons in Hx. destruct Hx as [->|Hx]; [by left|].
        right. apply (IH q); [by left|done].
      * right. apply (IH p); [by right|done].
Qed.

(** Joining the parts gives the string back. *)
Lemma join_split sep s : join [sep] (split sep s) = s.
Proof.
  induction s as [|c s IH]; [done|].
  rewrite split_cons. destruct (N.eqb_spec c sep) as [->|Hne].
  - pose proof (split_nonempty sep s).
    simpl. destruct (split sep s); [done|]. simpl in *. by rewrite IH.
  - pose proof (split_nonempty sep s).
    destruct (split sep s) as [|p ps]; [done|]. simpl in *.
    destruct ps; simpl in *; by rewrite <- IH.
Qed.

Lemma split_app_no_sep sep p s :
  sep ∉ p → split sep (p ++ s) = (p ++ hd [] (split sep s)) :: tail (split sep s).
Proof.
  induction p as [|c p IH]; intros Hp; simpl.
  - pose proof (split_nonempty sep s). by destruct (split sep s).
  - destruct (N.eqb_spec c sep) as [->|Hne]; [set_solver|].
    rewrite IH by set_solver. done.
Qed.

(** Splitting a join of parts without separator gives the parts back. *)
Lemma split_join sep parts :
  parts ≠ [] → Forall (fun p => sep ∉ p) parts →
  split sep (join [sep] parts) = parts.
Proof.
  induction parts as [|p ps IH]; [done|]. intros _ Hall.
  inversion Hall as [|? ? Hp Hps]; subst.
  destruct ps as [|q qs].
  - simpl. rewrite <- (app_nil_r p) at 1.
    rewrite (split_app_no_sep sep p []) by done. simpl. by rewrite app_nil_r.
  - change (join [sep] (p :: q :: qs)) with (p ++ sep :: join [sep] (q :: qs)).
    rewrite split_app_no_sep by done.
    rewrite split_cons, N.eqb_refl. simpl hd. simpl tail.
    rewrite app_nil_r. f_equal. by apply IH.
Qed.

(** Appends nested to the right. *)
Ltac app_norm := repeat first [rewrite <- app_assoc | progress cbn [app]].

Lemma elem_of_concat {A} (x : A) (ls : list (list A)) :
  x ∈ concat ls ↔ ∃ l, l ∈ ls ∧ x ∈ l.
Proof.
  rewrite list_elem_of_In, in_concat.
  split; intros (l & Hl & Hx); exists l; by rewrite ?list_elem_of_In in *.
Qed.

End PyStrFacts.
Import PyStrFacts.

(** ** The key transformation *)

Lemma transform_parts_cons part rest :
  rest ≠ [] → transform_parts (part :: rest) = title_first part :: transform_parts rest.
Proof. by destruct rest. Qed.

Lemma transform_parts_length parts : length (transform_parts parts) = length parts.
Proof.
  induction parts as [|p [|q qs] IH]; [done..|].
  rewrite transform_parts_cons by done. simpl in *. by rewrite IH.
Qed.

(** The loop, started at index [i] with [acc] collected so far. *)
Lemma snake_to_camel_loop (n i : nat) (rest acc : list text) :
  i + length rest = n →
  fold_left (fun (result_parts : list text) (ip : nat * text) =>
               if (ip.1 =? n - 1)%nat
               then result_parts ++ [camel_last ip.2]
               else result_parts ++ [title_first ip.2])
            (zip (seq i (length rest)) rest) acc
  = acc ++ transform_parts rest.
Proof.
  revert i acc. induction rest as [|p rest IH]; intros i acc Hn.
  - simpl. by rewrite app_nil_r.
  - simpl length. simpl seq. simpl zip. simpl fold_left.
    rewrite IH by (simpl in Hn; lia).
    destruct rest as [|q qs].
    + simpl in *. replace (i =? n - 1)%nat with true
        by (symmetry; apply Nat.eqb_eq; lia). by rewrite app_nil_r.
    + rewrite (transform_parts_cons p) by done.
      replace (i =? n - 1)%nat with false
        by (symmetry; apply Nat.eqb_neq; simpl in Hn; lia).
      by rewrite <- app_assoc.
Qed.

Lemma snake_to_camel_parts k :
  snake_to_camel k = join [DOT] (transform_parts (split DOT k)).
Proof.
  unfold snake_to_camel, enumerate.
  by rewrite (snake_to_camel_loop (length (split DOT k)) 0).
Qed.

Lemma transform_parts_lookup parts i part :
  parts !! i = Some part →
  transform_parts parts !! i =
    Some (if bool_decide (i = length parts - 1) then camel_last part
          else title_first part).
Proof.
  revert i. induction parts as [|p rest IH]; intros i Hi; [done|].
  destruct rest as [|q qs].
  - destruct i; [|done]. simpl in *. by simplify_eq.
  - rewrite transform_parts_cons by done. destruct i as [|i].
    + simpl in *. simplify_eq. done.
    + simpl in Hi. rewrite lookup_cons, (IH i Hi).
      f_equal. simpl length. repeat case_bool_decide; done || lia.
Qed.

Lemma title_first_idempotent part : title_first (title_first part) = title_first part.
Proof. destruct part; simpl; [done|]. by rewrite upper_idempotent. Qed.

Lemma title_first_keeps_other d part :
  (d = DOT ∨ d = UNDERSCORE) → d ∉ part → d ∉ title_first part.
Proof.
  intros Hd. destruct part as [|c rest]; [done|]. simpl.
  rewrite !not_elem_of_cons. intros [Hc Hrest]. split; [|done].
  intros Heq. by apply (upper_keeps_other c d Hd).
Qed.

Lemma capitalize_keeps_other d word :
  (d = DOT ∨ d = UNDERSCORE) → d ∉ word → d ∉ capitalize word.
Proof.
  intros Hd. destruct word as [|c rest]; [done|]. simpl.
  rewrite !not_elem_of_cons. intros [Hc Hrest]. split.
  - intros Heq. by apply (upper_keeps_other c d Hd).
  - intros (x & Hx & Hin)%list_elem_of_fmap.
    apply (lower_keeps_other x d Hd); [|done]. by intros ->.
Qed.

Lemma camel_last_keeps_dot part : DOT ∉ part → DOT ∉ camel_last part.
Proof.
  intros Hpart. unfold camel_last. case_bool_decide; [|done].
  assert (Hsub : ∀ p, p ∈ split UNDERSCORE part → DOT ∉ p).
  { intros p Hp Hin. apply Hpart. by eapply split_elem. }
  pose proof (split_nonempty UNDERSCORE part).
  destruct (split UNDERSCORE part) as [|first others]; [done|]. simpl.
  rewrite not_elem_of_app. split; [apply Hsub; by left|].
  intros (w & (p & -> & Hp)%list_elem_of_fmap & Hw)%elem_of_concat.
  revert Hw. apply capitalize_keeps_other; [by left|]. apply Hsub. by right.
Qed.

Lemma camel_last_no_underscore part : UNDERSCORE ∉ camel_last part.
Proof.
  unfold camel_last. case_bool_decide; [|done].
  pose proof (split_no_sep UNDERSCORE part) as Hsub.
  rewrite Forall_forall in Hsub.
  pose proof (split_nonempty UNDERSCORE part).
  destruct (split UNDERSCORE part) as [|first others]; [done|]. simpl.
  rewrite not_elem_of_app. split; [apply Hsub; by left|].
  intros (w & (p & -> & Hp)%list_elem_of_fmap & Hw)%elem_of_concat.
  revert Hw. apply capitalize_keeps_other; [by right|]. apply Hsub. by right.
Qed.

Lemma camel_last_idempotent part : camel_last (camel_last part) = camel_last part.
Proof.
  unfold camel_last at 1. rewrite bool_decide_eq_false_2; [done|].
  apply camel_last_no_underscore.
Qed.

Lemma transform_parts_idempotent parts :
  transform_parts (transform_parts parts) = transform_parts parts.
Proof.
  induction parts as [|p [|q qs] IH]; [done|..].
  - simpl. by rewrite camel_last_idempotent.
  - rewrite (transform_parts_cons p) by done.
    rewrite transform_parts_cons.
    + by rewrite title_first_idempotent, IH.
    + intros Hnil. apply (f_equal length) in Hnil.
      by rewrite transform_parts_length in Hnil.
Qed.

Lemma transform_parts_keeps_dot parts :
  Forall (fun p => DOT ∉ p) parts → Forall (fun p => DOT ∉ p) (transform_parts parts).
Proof.
  induction parts as [|p [|q qs] IH]; [done|..]; intros Hall;
    inversion Hall as [|? ? Hp Hrest]; subst.
  - repeat constructor. by apply camel_last_keeps_dot.
  - rewrite transform_parts_cons by done. constructor; [|by apply IH].
    apply title_first_keeps_other; [by left|done].
Qed.

(** The transformation of an ASCII key is an ASCII text. *)
Lemma upper_ascii c : (c < 128)%N → (upper c < 128)%N.
Proof. unfold upper, in_range. intros Hc. compare_cases; lia. Qed.

Lemma lower_ascii c : (c < 128)%N → (lower c < 128)%N.
Proof. unfold lower, in_range. intros Hc. compare_cases; lia. Qed.

Lemma title_first_ascii part : ascii_text part → ascii_text (title_first part).
Proof.
  destruct part as [|c rest]; [done|]. intros [Hc Hrest]%Forall_cons.
  constructor; [by apply upper_ascii|done].
Qed.

Lemma capitalize_ascii word : ascii_text word → ascii_text (capitalize word).
Proof.
  destruct word as [|c rest]; [done|]. intros [Hc Hrest]%Forall_cons.
  constructor; [by apply upper_ascii|].
  apply Forall_fmap. eapply Forall_impl; [exact Hrest|]. apply lower_ascii.
Qed.

Lemma split_ascii sep s : ascii_text s → Forall ascii_text (split sep s).
Proof.
  intros Hs. apply Forall_forall. intros p Hp. apply Forall_forall. intros x Hx.
  unfold ascii_text in Hs. rewrite Forall_forall in Hs.
  apply Hs. by eapply split_elem.
Qed.

Lemma camel_last_ascii part : ascii_text part → ascii_text (camel_last part).
Proof.
  intros Hpart. unfold camel_last. case_bool_decide; [|done].
  pose proof (split_ascii UNDERSCORE part Hpart) as Hsub.
  pose proof (split_nonempty UNDERSCORE part).
  destruct (split UNDERSCORE part) as [|first others]; [done|]. simpl.
  apply Forall_cons in Hsub as [Hfirst Hothers]. apply Forall_app. split; [done|].
  apply Forall_forall. intros x (w & (p & -> & Hp)%list_elem_of_fmap & Hw)%elem_of_concat.
  rewrite Forall_forall in Hothers.
  pose proof (capitalize_ascii p (Hothers p Hp)) as Hcap.
  unfold ascii_text in Hcap. rewrite Forall_forall in Hcap. by apply Hcap.
Qed.

Lemma transform_parts_ascii parts :
  Forall ascii_text parts → Forall ascii_text (transform_parts parts).
Proof.
  induction parts as [|p [|q qs] IH]; [done|..]; intros Hall;
    inversion Hall as [|? ? Hp Hrest]; subst.
  - repeat constructor. by apply camel_last_ascii.
  - rewrite transform_parts_cons by done. constructor; [|by apply IH].
    by apply title_first_ascii.
Qed.

Lemma join_ascii parts : Forall ascii_text parts → ascii_text (join [DOT] parts).
Proof.
  induction parts as [|p [|q qs] IH]; [by constructor|..]; intros Hall;
    inversion Hall as [|? ? Hp Hrest]; subst; [done|].
  change (join [DOT] (p :: q :: qs)) with (p ++ DOT :: join [DOT] (q :: qs)).
  apply Forall_app. split; [done|]. constructor; [done|]. by apply IH.
Qed.

Lemma key_char_ascii c : is_key_char c = true → (c < 128)%N.
Proof. unfold is_key_char. intros H. char_lia. Qed.

Lemma key_chars_ascii key : key_chars key → ascii_text key.
Proof.
  intros Hkey. eapply Forall_impl; [exact Hkey|]. intros c Hc. cbn beta in Hc.
  apply key_char_ascii. exact Hc.
Qed.

(** On a key whose last segment holds no upper-case letter the two wordings
    agree. *)
Lemma capitalize_lowercase word :
  (∀ c, c ∈ word → lower c = c) → capitalize word = title_first word.
Proof.
  destruct word as [|c rest]; [done|]. intros Hlow. simpl. f_equal.
  rewrite <- (list_fmap_id rest) at 2. apply list_fmap_ext.
  intros i x Hx. apply Hlow. right. by eapply list_elem_of_lookup_2.
Qed.

Lemma camel_last_lowercase part :
  (∀ c, c ∈ part → lower c = c) → camel_last part = claimed_last part.
Proof.
  intros Hlow. unfold camel_last, claimed_last. case_bool_decide; [|done].
  f_equal. f_equal. apply list_fmap_ext. intros i word Hword.
  apply capitalize_lowercase. intros c Hc. apply Hlow.
  apply (split_elem UNDERSCORE part word); [|done].
  apply list_elem_of_lookup_2 in Hword.
  pose proof (split_nonempty UNDERSCORE part).
  destruct (split UNDERSCORE part); [done|]. by right.
Qed.

Lemma snake_to_camel_as_claimed key :
  (∀ c, c ∈ default [] (last (split DOT key)) → lower c = c) →
  snake_to_camel key = claimed_transform key.
Proof.
  rewrite snake_to_camel_parts. unfold claimed_transform.
  induction (split DOT key) as [|p [|q qs] IH]; [done|..]; intros Hlow.
  - simpl. by rewrite camel_last_lowercase.
  - rewrite (transform_parts_cons p) by done.
    change (claimed_parts (p :: q :: qs))
      with (title_first p :: claimed_parts (q :: qs)).
    specialize (IH Hlow).
    pose proof (transform_parts_length (q :: qs)) as Hlen.
    destruct (transform_parts (q :: qs)) as [|t ts] eqn:Et; [done|].
    destruct (claimed_parts (q :: qs)) as [|t' ts'] eqn:Ec; [by destruct qs|].
    cbn [join] in *. by rewrite IH.
Qed.

(** C2, as stated, fails: a sub-segment of the last segment that holds an
    upper-case letter after its first character is lower-cased there by
    [capitalize], so the key [a.b_cD] becomes [A.bCd], where capitalizing
    first characters only would give [A.bCD]. *)
Lemma snake_to_camel_lowercases_rest :
  snake_to_camel (txt "a.b_cD") = txt "A.bCd"
  ∧ claimed_transform (txt "a.b_cD") = txt "A.bCD"
  ∧ snake_to_camel (txt "a.b_cD") ≠ claimed_transform (txt "a.b_cD").
Proof. split; [|split]; [reflexivity | reflexivity | discriminate]. Qed.

(** C2 (amended): for every ASCII key, and so for every key of the key
    class, the transformation splits the key on the dot and joins the
    transformed segments with dots again; a segment that is not the last has
    its first character upper-cased and the rest unchanged; the last segment
    is unchanged without underscore, and otherwise is its first sub-segment
    (split on the underscore) unchanged, followed without separator by every
    later sub-segment with its first character upper-cased and its other
    characters lower-cased.  The four documented keys come out as
    documented. *)
Theorem snake_to_camel_spec :
  (∀ key : text, ascii_text key → ∃ out : list text,
      snake_to_camel key = join [DOT] out
      ∧ length out = length (split DOT key)
      ∧ ∀ (i : nat) (segment : text), split DOT key !! i = Some segment →
          out !! i = Some (
            if bool_decide (i = length (split DOT key) - 1) then
              if bool_decide (UNDERSCORE ∈ segment) then
                hd [] (split UNDERSCORE segment)
                ++ concat ((fun word : text =>
                              match word with
                              | [] => []
                              | c :: rest => upper c :: (lower <$> rest)
                              end) <$> tail (split UNDERSCORE segment))
              else segment
            else match segment with
                 | [] => []
                 | c :: rest => upper c :: rest
                 end))
  ∧ (∀ key : text, key_chars key → ascii_text key)
  ∧ snake_to_camel (txt "common.ok") = txt "Common.ok"
  ∧ snake_to_camel (txt "market.header.name") = txt "Market.Header.name"
  ∧ snake_to_camel (txt "addbalance.flashexchange.subtitle")
    = txt "Addbalance.Flashexchange.subtitle"
  ∧ snake_to_camel (txt "futuresrecords.header.amount_usdt")
    = txt "Futuresrecords.Header.amountUsdt".
Proof.
  split; [|split; [apply key_chars_ascii|by vm_compute]].
  intros key _. exists (transform_parts (split DOT key)).
  split; [apply snake_to_camel_parts|].
  split; [apply transform_parts_length|].
  intros i segment Hi. by rewrite (transform_parts_lookup _ _ _ Hi).
Qed.

(** The key [user.first_name_ID] of the key class: its last segment is cut
    at the underscores, [first] kept, [name] and [ID] capitalized. *)
Lemma snake_to_camel_spec_witness :
  ascii_text (txt "user.first_name_ID")
  ∧ ∃ out : list text,
      snake_to_camel (txt "user.first_name_ID") = join [DOT] out
      ∧ out = [txt "User"; txt "firstNameId"].
Proof.
  assert (ascii_text (txt "user.first_name_ID")) as Hascii
    by (unfold ascii_text; apply (bool_decide_unpack _); by vm_compute).
  split; [exact Hascii|].
  destruct (proj1 snake_to_camel_spec (txt "user.first_name_ID") Hascii)
    as (out & Hjoin & Hlen & Hparts).
  exists out. split; [exact Hjoin|].
  destruct out as [|p [|q [|r out]]]; try discriminate Hlen.
  pose proof (Hparts 0 (txt "user") eq_refl) as H0.
  pose proof (Hparts 1 (txt "first_name_ID") eq_refl) as H1.
  injection H0 as ->. injection H1 as ->. by vm_compute.
Defined.

(** C10: transforming a transformed key changes nothing, for every ASCII
    key and so for every key of the key class; the transformed key is ASCII
    again. *)
Theorem snake_to_camel_idempotent (key : text) :
  ascii_text key →
  ascii_text (snake_to_camel key)
  ∧ snake_to_camel (snake_to_camel key) = snake_to_camel key.
Proof.
  intros Hascii. split.
  - rewrite snake_to_camel_parts. by apply join_ascii, transform_parts_ascii, split_ascii.
  - rewrite !snake_to_camel_parts. rewrite split_join.
    + by rewrite transform_parts_idempotent.
    + intros Hnil. apply (f_equal length) in Hnil.
      rewrite transform_parts_length in Hnil.
      pose proof (split_nonempty DOT key). by destruct (split DOT key).
    + apply transform_parts_keeps_dot, split_no_sep.
Qed.

(** The key [futuresrecords.header.amount_usdt]. *)
Lemma snake_to_camel_idempotent_witness :
  ascii_text (txt "futuresrecords.header.amount_usdt")
  ∧ snake_to_camel (snake_to_camel (txt "futuresrecords.header.amount_usdt"))
    = txt "Futuresrecords.Header.amountUsdt".
Proof.
  assert (ascii_text (txt "futuresrecords.header.amount_usdt")) as Hascii
    by (unfold ascii_text; apply (bool_decide_unpack _); by vm_compute).
  split; [exact Hascii|].
  rewrite (proj2 (snake_to_camel_idempotent _ Hascii)). by vm_compute.
Defined.

(** ** The entry pattern *)

Lemma expect_Some c s r : expect c s = Some r ↔ s = c :: r.
Proof.
  destruct s as [|d s]; simpl; [done|].
  destruct (N.eqb_spec d c); naive_solver.
Qed.

Lemma lstrip_spaces ws rest :
  spaces ws → lstrip (ws ++ rest) = lstrip rest.
Proof. induction 1 as [|c ws Hc _ IH]; simpl; [done|]. by rewrite Hc. Qed.

Lemma lstrip_nonspace c rest : is_space c = false → lstrip (c :: rest) = c :: rest.
Proof. simpl. by intros ->. Qed.

Lemma lstrip_split s : ∃ ws, s = ws ++ lstrip s ∧ spaces ws.
Proof.
  induction s as [|c s (ws & IH & Hws)]; [exists []; by split; [|constructor]|].
  simpl. destruct (is_space c) eqn:Hc.
  - exists (c :: ws). split; [simpl; by f_equal|]. by constructor.
  - exists []. by split; [|constructor].
Qed.

Lemma take_key_split s k r :
  take_key s = (k, r) → s = k ++ r ∧ key_chars k.
Proof.
  revert k r. induction s as [|c s IH]; intros k r; simpl.
  - intros [= <- <-]. by split; [|constructor].
  - destruct (is_key_char c) eqn:Hc.
    + destruct (take_key s) as [k' r'] eqn:E. intros [= <- <-].
      destruct (IH _ _ eq_refl) as [-> Hk]. split; [done|by constructor].
    + intros [= <- <-]. by split; [|constructor].
Qed.

Lemma take_key_run k c rest :
  key_chars k → is_key_char c = false → take_key (k ++ c :: rest) = (k, c :: rest).
Proof.
  intros Hk Hc. induction Hk as [|d k Hd _ IH]; simpl.
  - by rewrite Hc.
  - by rewrite Hd, IH.
Qed.

Lemma scan_value_sound s v r :
  scan_value s = Some (v, r) → s = v ++ QUOTE :: r ∧ value_body v.
Proof.
  revert v r. induction s as [s IH] using (induction_ltof1 _ length).
  unfold ltof in IH. intros v r. destruct s as [|c s]; simpl; [done|].
  destruct (N.eqb_spec c QUOTE) as [->|Hq].
  { intros [= <- <-]. split; [done|constructor]. }
  destruct (N.eqb_spec c BACKSLASH) as [->|Hb].
  - destruct s as [|d s]; [done|].
    destruct (N.eqb_spec d LF) as [->|Hd]; [done|].
    destruct (scan_value s) as [[v' r']|] eqn:E; simpl; [|done].
    intros [= <- <-]. destruct (IH s ltac:(simpl; lia) _ _ E) as [-> Hv].
    split; [done|by constructor].
  - destruct (scan_value s) as [[v' r']|] eqn:E; simpl; [|done].
    intros [= <- <-]. destruct (IH s ltac:(simpl; lia) _ _ E) as [-> Hv].
    split; [done|by constructor].
Qed.

Lemma scan_value_complete v r :
  value_body v → scan_value (v ++ QUOTE :: r) = Some (v, r).
Proof.
  induction 1 as [|c v Hq Hb _ IH|c v Hc _ IH]; simpl.
  - done.
  - destruct (N.eqb_spec c QUOTE); [done|].
    destruct (N.eqb_spec c BACKSLASH); [done|]. by rewrite IH.
  - destruct (N.eqb_spec c LF); [done|]. by rewrite IH.
Qed.

Lemma key_char_not_linebreak c : is_key_char c = true → is_linebreak c = false.
Proof. unfold is_key_char. intros H. char_lia. Qed.

(** The scanner finds exactly the matches of the pattern. *)
Lemma match_entry_sound line key value :
  match_entry line = Some (key, value) → entry_line line key value.
Proof.
  unfold match_entry. intros H.
  destruct (lstrip_split line) as (ws1 & Hline & Hws1).
  destruct (expect QUOTE (lstrip line)) as [s1|] eqn:E1; [|done]. simpl in H.
  apply expect_Some in E1.
  destruct (take_key s1) as [k s2] eqn:Ek.
  apply take_key_split in Ek as [-> Hk].
  case_bool_decide as Hne; [done|].
  destruct (expect QUOTE s2) as [s3|] eqn:E3; [|done]. simpl in H.
  apply expect_Some in E3 as ->.
  destruct (lstrip_split s3) as (ws2 & Hs3 & Hws2).
  destruct (expect EQUALS (lstrip s3)) as [s4|] eqn:E4; [|done]. simpl in H.
  apply expect_Some in E4.
  destruct (lstrip_split s4) as (ws3 & Hs4 & Hws3).
  destruct (expect QUOTE (lstrip s4)) as [s5|] eqn:E5; [|done]. simpl in H.
  apply expect_Some in E5.
  destruct (scan_value s5) as [[v s6]|] eqn:Ev; [|done]. simpl in H.
  apply scan_value_sound in Ev as [-> Hv].
  destruct (lstrip_split s6) as (ws4 & Hs6 & Hws4).
  destruct (expect SEMICOLON (lstrip s6)) as [s7|] eqn:E7; [|done]. simpl in H.
  apply expect_Some in E7.
  destruct (lstrip_split s7) as (ws5 & Hs7 & Hws5).
  case_bool_decide as Hend; [|done]. injection H as <- <-.
  exists ws1, ws2, ws3, ws4, ws5. split_and!; try done.
  rewrite Hline, E1. do 2 f_equal. f_equal. f_equal.
  rewrite Hs3, E4. do 2 f_equal. rewrite Hs4, E5. do 2 f_equal.
  f_equal. f_equal. rewrite Hs6, E7. do 2 f_equal.
  by rewrite Hs7, Hend, app_nil_r.
Qed.

Lemma match_entry_complete line key value :
  entry_line line key value → match_entry line = Some (key, value).
Proof.
  intros (ws1 & ws2 & ws3 & ws4 & ws5 & -> & H1 & H2 & H3 & H4 & H5 & Hne & Hk & Hv).
  unfold match_entry.
  rewrite (lstrip_spaces ws1) by done. rewrite lstrip_nonspace by done. simpl.
  rewrite take_key_run by done.
  rewrite bool_decide_eq_false_2 by done. simpl.
  rewrite (lstrip_spaces ws2) by done. rewrite lstrip_nonspace by done. simpl.
  rewrite (lstrip_spaces ws3) by done. rewrite lstrip_nonspace by done. simpl.
  rewrite scan_value_complete by done. simpl.
  rewrite (lstrip_spaces ws4) by done. rewrite lstrip_nonspace by done. simpl.
  rewrite <- (app_nil_r ws5), (lstrip_spaces ws5) by done. done.
Qed.

Lemma match_entry_iff line key value :
  match_entry line = Some (key, value) ↔ entry_line line key value.
Proof. split; [apply match_entry_sound | apply match_entry_complete]. Qed.

(** ** Lines *)

Lemma splitlines_from_plain cur s :
  no_linebreak s → cur ++ s ≠ [] → splitlines_from cur s = [reverse cur ++ s].
Proof.
  intros Hs. revert cur. induction Hs as [|c s Hc _ IH]; intros cur Hne.
  - rewrite app_nil_r in *. simpl. by destruct cur.
  - simpl. destruct (N.eqb_spec c CR) as [->|_]; [done|]. rewrite Hc.
    rewrite IH by done. by rewrite reverse_cons, <- app_assoc.
Qed.

Lemma splitlines_from_plain_lf cur s :
  no_linebreak s → splitlines_from cur (s ++ [LF]) = [reverse cur ++ s].
Proof.
  intros Hs. revert cur. induction Hs as [|c s Hc _ IH]; intros cur.
  - by rewrite app_nil_r.
  - simpl. destruct (N.eqb_spec c CR) as [->|_]; [done|]. rewrite Hc.
    by rewrite IH, reverse_cons, <- app_assoc.
Qed.

(** A text without line boundary is its own single line, with or without a
    line feed after it. *)
Lemma splitlines_single s :
  no_linebreak s → s ≠ [] → splitlines s = [s] ∧ splitlines (s ++ [LF]) = [s].
Proof.
  intros Hs Hne. split.
  - by apply (splitlines_from_plain []).
  - by apply (splitlines_from_plain_lf []).
Qed.

Lemma rstrip_nonspace s c : is_space c = false → rstrip (s ++ [c]) = s ++ [c].
Proof.
  intros Hc. unfold rstrip. rewrite reverse_snoc, lstrip_nonspace by done.
  by rewrite reverse_cons, reverse_involutive.
Qed.

Lemma rstrip_spaces s ws : spaces ws → rstrip (s ++ ws) = rstrip s.
Proof.
  intros Hws. unfold rstrip. rewrite reverse_app.
  rewrite lstrip_spaces; [done|]. by apply Forall_reverse.
Qed.

Lemma blank_or_comment_no_match line :
  blank_or_comment line = true → match_entry line = None.
Proof.
  unfold blank_or_comment. intros [H|H]%orb_true_iff.
  - apply bool_decide_eq_true in H as ->. done.
  - destruct line as [|c line]; [done|]. cbn [startswith] in H.
    apply andb_true_iff in H as [Hc _]. apply N.eqb_eq in Hc as <-.
    unfold match_entry. by rewrite lstrip_nonspace.
Qed.

(** The loop body of the parser, with the test for blank lines and comments
    folded into the pattern. *)
Lemma parse_line_match localizations raw :
  parse_line localizations raw =
  match match_entry (strip raw) with
  | Some (original_key, value) =>
      dict_set original_key (snake_to_camel original_key, value) localizations
  | None => localizations
  end.
Proof.
  unfold parse_line. destruct (blank_or_comment (strip raw)) eqn:E; [|done].
  by rewrite blank_or_comment_no_match.
Qed.

(** Stripping a line does not change whether and how the pattern matches it. *)
Lemma entry_line_strip line key value :
  entry_line (strip line) key value ↔ entry_line line key value.
Proof.
  split.
  - intros (ws1 & ws2 & ws3 & ws4 & ws5 & Hl & H1 & H2 & H3 & H4 & H5 & Hne & Hk & Hv).
    destruct (lstrip_split line) as (wl & Hline & Hwl).
    destruct (lstrip_split (reverse (lstrip line))) as (wr & Hrev & Hwr).
    apply (f_equal reverse) in Hrev.
    rewrite reverse_involutive, reverse_app in Hrev.
    fold (rstrip (lstrip line)) in Hrev. fold (strip line) in Hrev.
    exists (wl ++ ws1), ws2, ws3, ws4, (ws5 ++ reverse wr).
    split_and!; try done; try (apply Forall_app; split; try done).
    + rewrite Hline, Hrev, Hl. by app_norm.
    + by apply Forall_reverse.
  - intros (ws1 & ws2 & ws3 & ws4 & ws5 & -> & H1 & H2 & H3 & H4 & H5 & Hne & Hk & Hv).
    exists [], ws2, ws3, ws4, []. split_and!; try done; try constructor.
    unfold strip. rewrite lstrip_spaces, lstrip_nonspace by done.
    set (core := QUOTE :: key ++ QUOTE :: ws2 ++ EQUALS :: ws3
                 ++ QUOTE :: value ++ QUOTE :: ws4).
    replace (QUOTE :: key ++ QUOTE :: ws2 ++ EQUALS :: ws3
             ++ QUOTE :: value ++ QUOTE :: ws4 ++ SEMICOLON :: ws5)
      with ((core ++ [SEMICOLON]) ++ ws5) by (unfold core; by app_norm).
    rewrite rstrip_spaces, rstrip_nonspace by done.
    unfold core. by app_norm.
Qed.

(** ** Round trip of one entry *)

Lemma value_ok_body v : value_ok v = true → value_body v.
Proof.
  induction v as [v IH] using (induction_ltof1 _ length). unfold ltof in IH.
  destruct v as [|c v]; [constructor|]. simpl.
  destruct (N.eqb_spec c QUOTE) as [->|Hq]; [done|].
  destruct (N.eqb_spec c BACKSLASH) as [->|Hb].
  - destruct v as [|d v]; [done|]. intros [Hd Hv]%andb_true_iff.
    apply negb_true_iff, N.eqb_neq in Hd.
    apply value_escape; [done|]. apply IH; [simpl; lia|done].
  - intros Hv. apply value_plain; [done..|]. apply IH; [simpl; lia|done].
Qed.

(** C9, as stated, fails: the value made of one backslash holds no quote at
    all, yet in the entry text the backslash escapes the closing quote, the
    pattern does not match and nothing is parsed. *)
Lemma roundtrip_fails_on_trailing_backslash :
  txt "k" ≠ [] ∧ key_chars (txt "k")
  ∧ no_unescaped_quote [BACKSLASH] = true
  ∧ parse_localizable_strings (Some (entry_text (txt "k") [BACKSLASH])) = Some []
  ∧ parse_localizable_strings (Some (entry_text (txt "k") [BACKSLASH]))
    ≠ Some [(txt "k", (snake_to_camel (txt "k"), [BACKSLASH]))].
Proof.
  split_and!; [done | by repeat constructor | done | by vm_compute | by vm_compute].
Qed.

Lemma entry_text_no_linebreak key value :
  key_chars key → no_linebreak value → no_linebreak (entry_text key value).
Proof.
  intros Hk Hv. unfold entry_text, no_linebreak.
  rewrite !Forall_app. split_and!; try done; try by repeat constructor.
  eapply Forall_impl; [exact Hk|]. apply key_char_not_linebreak.
Qed.

Lemma entry_text_strip key value : strip (entry_text key value) = entry_text key value.
Proof.
  assert (entry_text key value
          = (QUOTE :: key ++ [QUOTE] ++ txt " = " ++ [QUOTE] ++ value ++ [QUOTE])
            ++ [SEMICOLON]) as ->
    by (unfold entry_text; by app_norm).
  unfold strip. cbn [app]. rewrite lstrip_nonspace by done.
  rewrite app_comm_cons. by rewrite rstrip_nonspace.
Qed.

Lemma entry_text_matches key value :
  key ≠ [] → key_chars key → value_body value →
  match_entry (entry_text key value) = Some (key, value).
Proof.
  intros Hne Hk Hv. apply match_entry_complete.
  exists [], [32%N], [32%N], [], []. split_and!; try done; by repeat constructor.
Qed.

(** C9 (amended): for a non-empty key over the key characters and a value
    made of characters other than quote and backslash and of backslash
    escapes (a backslash and the character it escapes), with no line
    boundary in it, parsing the entry text of the pair gives the table with
    exactly that key and that value; so does the text followed by a line
    feed, as the report writes it. *)
Theorem parse_entry_text_roundtrip (key value : text) :
  key ≠ [] → key_chars key → value_body value → no_linebreak value →
  match_entry (entry_text key value) = Some (key, value)
  ∧ parse_localizable_strings (Some (entry_text key value))
    = Some [(key, (snake_to_camel key, value))]
  ∧ parse_localizable_strings (Some (entry_text key value ++ [LF]))
    = Some [(key, (snake_to_camel key, value))].
Proof.
  intros Hne Hk Hv Hlb.
  pose proof (entry_text_matches key value Hne Hk Hv) as Hm.
  assert (entry_text key value ≠ []) as Hne' by done.
  destruct (splitlines_single (entry_text key value)
              (entry_text_no_linebreak _ _ Hk Hlb) Hne') as [H1 H2].
  split; [done|]. unfold parse_localizable_strings. cbn [mbind option_bind].
  rewrite H1, H2. cbn [fold_left].
  rewrite parse_line_match, entry_text_strip, Hm. done.
Qed.

(** The round trip on an entry whose value holds two escaped quotes. *)
Lemma parse_entry_text_roundtrip_witness :
  let key := txt "market.header.amount_usdt" in
  let value := txt "Amount " ++ [BACKSLASH; QUOTE] ++ txt "USDT" ++ [BACKSLASH; QUOTE] in
  (key ≠ [] ∧ key_chars key ∧ value_body value ∧ no_linebreak value)
  ∧ parse_localizable_strings (Some (entry_text key value ++ [LF]))
    = Some [(key, (txt "Market.Header.amountUsdt", value))].
Proof.
  intros key value.
  assert (key ≠ []) as Hne by discriminate.
  assert (key_chars key) as Hk by repeat constructor.
  assert (value_body value) as Hv by (apply value_ok_body; reflexivity).
  assert (no_linebreak value) as Hlb by repeat constructor.
  split; [by split_and!|].
  exact (proj2 (proj2 (parse_entry_text_roundtrip key value Hne Hk Hv Hlb))).
Defined.

(** ** The parsed table *)

Section dict.
Context {V : Type}.
Implicit Types (d : list (text * V)) (k : text) (v : V).

Lemma dict_set_keys d k v :
  (dict_set k v d).*1 = if bool_decide (k ∈ d.*1) then d.*1 else d.*1 ++ [k].
Proof.
  induction d as [|[k' v'] d IH]; [done|]. cbn [dict_set].
  rewrite !fmap_cons. cbn [fst].
  destruct (bool_decide_reflect (k' = k)) as [->|Hne].
  - rewrite fmap_cons. cbn [fst].
    rewrite bool_decide_eq_true_2; [done|by left].
  - rewrite fmap_cons, IH. cbn [fst].
    destruct (bool_decide_reflect (k ∈ d.*1)) as [Hin|Hin].
    + rewrite bool_decide_eq_true_2; [done|by right].
    + rewrite bool_decide_eq_false_2; [done|].
      intros [?|?]%elem_of_cons; congruence.
Qed.

(** Every key stands once. *)
Lemma dict_set_NoDup d k v : NoDup d.*1 → NoDup (dict_set k v d).*1.
Proof.
  intros Hd. rewrite dict_set_keys. case_bool_decide as Hk; [done|].
  apply NoDup_app. split_and!; [done| |apply NoDup_singleton].
  intros x Hx ->%list_elem_of_singleton. done.
Qed.

Lemma dict_get_set_eq d k v : dict_get k (dict_set k v d) = Some v.
Proof.
  induction d as [|[k' v'] d IH]; simpl.
  - by rewrite bool_decide_eq_true_2.
  - case_bool_decide as Hk; simpl.
    + by rewrite bool_decide_eq_true_2.
    + by rewrite bool_decide_eq_false_2.
Qed.

Lemma dict_get_set_ne d k k' v :
  k ≠ k' → dict_get k' (dict_set k v d) = dict_get k' d.
Proof.
  intros Hne. induction d as [|[k0 v0] d IH]; simpl.
  - by rewrite bool_decide_eq_false_2.
  - case_bool_decide as Hk; simpl.
    + subst. by rewrite !bool_decide_eq_false_2.
    + by rewrite IH.
Qed.

(** With every key once, looking a key up and finding its item agree. *)
Lemma dict_get_elem_of d k v :
  NoDup d.*1 → dict_get k d = Some v ↔ (k, v) ∈ d.
Proof.
  induction d as [|[k' v'] d IH]; simpl; intros Hd.
  - split; [done|]. by intros ?%elem_of_nil.
  - apply NoDup_cons in Hd as [Hk' Hd]. case_bool_decide as Hk; subst.
    + split.
      * intros [= ->]. by left.
      * intros [[= ->]|Hin]%elem_of_cons; [done|].
        destruct Hk'. apply list_elem_of_fmap. by exists (k, v).
    + rewrite IH by done. split; [by right|].
      intros [[= -> ->]|Hin]%elem_of_cons; done.
Qed.
End dict.

Lemma parse_lines_NoDup lines d :
  NoDup d.*1 → NoDup (fold_left parse_line lines d).*1.
Proof.
  revert d. induction lines as [|raw lines IH]; intros d Hd; [done|].
  simpl. apply IH. rewrite parse_line_match.
  destruct (match_entry (strip raw)) as [[k v]|]; [|done].
  by apply dict_set_NoDup.
Qed.

Lemma parse_lines_other lines d key :
  (∀ raw value, raw ∈ lines → ¬ line_holds raw key value) →
  dict_get key (fold_left parse_line lines d) = dict_get key d.
Proof.
  revert d. induction lines as [|raw lines IH]; intros d Hno; [done|].
  simpl. rewrite IH by (intros ? ? ?; apply Hno; by right).
  rewrite parse_line_match.
  destruct (match_entry (strip raw)) as [[k v]|] eqn:E; [|done].
  apply dict_get_set_ne. intros ->.
  apply (Hno raw v); [by left|]. by apply match_entry_iff.
Qed.

Lemma parse_lines_last lines d key value :
  last_holds lines key value →
  dict_get key (fold_left parse_line lines d) = Some (snake_to_camel key, value).
Proof.
  intros (before & raw & after & -> & Hraw & Hafter).
  rewrite fold_left_app. simpl. rewrite parse_lines_other by done.
  rewrite parse_line_match. apply match_entry_iff in Hraw. rewrite Hraw.
  apply dict_get_set_eq.
Qed.

(** Either no line holds the key, or a last one does. *)
Lemma last_holds_or_none lines key :
  (∀ raw value, raw ∈ lines → ¬ line_holds raw key value)
  ∨ ∃ value, last_holds lines key value.
Proof.
  induction lines as [|raw lines [IH|(value & before & raw' & after & -> & H1 & H2)]].
  - left. by intros ? ? ?%elem_of_nil.
  - destruct (match_entry (strip raw)) as [[k v]|] eqn:E.
    + destruct (decide (k = key)) as [->|Hne].
      * right. exists v, [], raw, lines. split_and!; [done| |done].
        by apply match_entry_iff.
      * left. intros raw' value [->|Hin]%elem_of_cons; [|by apply IH].
        intros Hm%match_entry_iff. congruence.
    + left. intros raw' value [->|Hin]%elem_of_cons; [|by apply IH].
      intros Hm%match_entry_iff. congruence.
  - right. exists value, (raw :: before), raw', after. by split_and!.
Qed.

(** C8: the table the parser builds holds every key once, so a key has one
    value; the keys are those of the lines that match the entry pattern; and
    the value of a key is the value on the last line that holds the key, with
    the transformed key next to it. *)
Theorem parse_last_occurrence_wins (content : text) :
  ∃ table : list (text * (text * text)),
    parse_localizable_strings (Some content) = Some table
    ∧ NoDup table.*1
    ∧ (∀ key entry, (key, entry) ∈ table ↔ dict_get key table = Some entry)
    ∧ (∀ key, key ∈ table.*1 ↔
         ∃ raw value, raw ∈ splitlines content ∧ line_holds raw key value)
    ∧ (∀ key entry, dict_get key table = Some entry ↔
         ∃ value, entry = (snake_to_camel key, value)
                  ∧ last_holds (splitlines content) key value).
Proof.
  eexists. split; [reflexivity|].
  set (lines := splitlines content).
  assert (NoDup (fold_left parse_line lines []).*1) as Hnd
    by (apply parse_lines_NoDup; constructor).
  assert (∀ key entry, dict_get key (fold_left parse_line lines []) = Some entry ↔
            ∃ value, entry = (snake_to_camel key, value) ∧ last_holds lines key value)
    as Hget.
  { intros key entry. split.
    - intros Hg. destruct (last_holds_or_none lines key) as [Hno|[value Hlast]].
      + by rewrite (parse_lines_other lines [] key Hno) in Hg.
      + exists value. split; [|done].
        rewrite (parse_lines_last lines [] key value Hlast) in Hg. congruence.
    - intros (value & -> & Hlast). by apply parse_lines_last. }
  split_and!; [done| | |done].
  - intros key entry. symmetry. by apply dict_get_elem_of.
  - intros key. split.
    + intros ((k & entry) & -> & Hin)%list_elem_of_fmap. simpl.
      apply dict_get_elem_of in Hin; [|done].
      apply Hget in Hin as (value & _ & before & raw & after & Hl & Hraw & _).
      exists raw, value. split; [|done]. rewrite Hl. set_solver.
    + intros (raw & value & Hin & Hraw).
      destruct (last_holds_or_none lines key) as [Hno|[value' Hlast]].
      * by destruct (Hno raw value).
      * apply list_elem_of_fmap. exists (key, (snake_to_camel key, value')).
        split; [done|]. apply dict_get_elem_of; [done|]. apply Hget. eauto.
Qed.

(** A file with a repeated key. *)
Example parse_repeated_key :
  parse_localizable_strings
    (Some (quoted "// greetings
'common.ok' = 'OK';
'market.header.amount_usdt' = 'Amount';

'common.ok' = 'Okay';
"))
  = Some [(txt "common.ok", (txt "Common.ok", txt "Okay"));
          (txt "market.header.amount_usdt",
           (txt "Market.Header.amountUsdt", txt "Amount"))].
Proof. vm_compute. reflexivity. Qed.

(** ** Removing entries *)

#[global] Instance removed_line_dec unused_keys line :
  Decision (removed_line unused_keys line).
Proof.
  destruct (match_entry line) as [[key value]|] eqn:E.
  - destruct (decide (key ∈ unused_keys)) as [Hin|Hout].
    + left. exists key, value. split; [by apply match_entry_iff|done].
    + right. intros (k & v & Hm%match_entry_iff & Hin). congruence.
  - right. intros (k & v & Hm%match_entry_iff & Hin). congruence.
Defined.

(** Blank lines, comments and lines the pattern does not match are not
    removed lines, whatever the keys. *)
Lemma kept_line unused_keys line :
  blank_or_comment (strip line) = true ∨ (∀ key value, ¬ entry_line line key value) →
  ¬ removed_line unused_keys line.
Proof.
  intros [Hb|Hno] (key & value & Hm & _).
  - apply blank_or_comment_no_match in Hb.
    apply entry_line_strip, match_entry_iff in Hm. congruence.
  - by apply (Hno key value).
Qed.

(** The loop body, by cases on the line. *)
Lemma filter_line_cases verbose unused_keys st line :
  filter_line verbose unused_keys st line =
  if decide (removed_line unused_keys line) then
    {| filtered_lines := filtered_lines st;
       removed_count := removed_count st + 1;
       printed := printed st ++ (if verbose then [DeletedLine (strip line)] else []) |}
  else
    {| filtered_lines := filtered_lines st ++ [line];
       removed_count := removed_count st;
       printed := printed st |}.
Proof.
  unfold filter_line.
  destruct (decide (removed_line unused_keys line)) as [(k & v & Hm & Hk)|Hr].
  - destruct (blank_or_comment (strip line)) eqn:Eb.
    { exfalso. apply (kept_line unused_keys line); [by left|by exists k, v]. }
    apply (proj2 (entry_line_strip _ _ _)), match_entry_iff in Hm. rewrite Hm.
    by rewrite bool_decide_eq_true_2.
  - destruct (blank_or_comment (strip line)) eqn:Eb; [done|].
    destruct (match_entry (strip line)) as [[key value]|] eqn:Em; [|done].
    apply match_entry_iff in Em. apply (proj1 (entry_line_strip _ _ _)) in Em.
    case_bool_decide as Hin; [|done]. destruct Hr. by exists key, value.
Qed.

Lemma filter_loop verbose unused_keys lines st :
  let st' := fold_left (filter_line verbose unused_keys) lines st in
  filtered_lines st'
    = filtered_lines st ++ filter (fun line => ¬ removed_line unused_keys line) lines
  ∧ removed_count st'
    = removed_count st + length (filter (removed_line unused_keys) lines)
  ∧ printed st'
    = printed st ++
      (if verbose
       then (fun line => DeletedLine (strip line))
              <$> filter (removed_line unused_keys) lines
       else []).
Proof.
  revert st. induction lines as [|line lines IH]; intros st; simpl.
  - rewrite app_nil_r. split_and!; [done|lia|by destruct verbose; rewrite app_nil_r].
  - destruct (IH (filter_line verbose unused_keys st line)) as (-> & -> & ->).
    rewrite filter_line_cases, !filter_cons.
    destruct (decide (removed_line unused_keys line)) as [Hr|Hr]; simpl.
    + rewrite decide_False by tauto. split_and!; [done|lia|].
      destruct verbose; by rewrite <- app_assoc.
    + rewrite decide_True by done. rewrite <- app_assoc. split_and!; [done|lia|done].
Qed.

Lemma nothing_removed (lines : list text) :
  filter (fun line => ¬ removed_line ∅ line) lines = lines.
Proof.
  induction lines as [|line lines IH]; [done|].
  rewrite filter_cons_True; [by rewrite IH|].
  intros (k & v & _ & Hin). set_solver.
Qed.

(** C3: the lines the remover keeps are the lines of the file, in their
    order and as they were, without those that match the entry pattern with a
    key of the removal set; blank lines, comment lines and lines the pattern
    does not match are all kept; and a real run in which the backup and the
    file can be written writes exactly these lines to the file, while a
    preview, and a run in which one of the two writes is refused, leave the
    file as it is. *)
Theorem remove_keeps_other_lines (self : Cleaner) (unused_keys : gset text)
  (lines : list text) (backup : option (list text))
  (writable_backup writable_file : bool) :
  let kept := filtered_lines (filter_lines (verbose self) unused_keys lines) in
  let disk := {| localizable_file := Some lines; backup_file := backup;
                 can_write_backup := writable_backup;
                 can_write_file := writable_file |} in
  kept = filter (fun line => ¬ removed_line unused_keys line) lines
  ∧ kept `sublist_of` lines
  ∧ (∀ line, line ∈ kept ↔ line ∈ lines ∧ ¬ removed_line unused_keys line)
  ∧ (∀ line, line ∈ lines →
       blank_or_comment (strip line) = true
       ∨ (∀ key value, ¬ entry_line line key value) →
       line ∈ kept)
  ∧ localizable_file (remove_unused_localizations self unused_keys disk).1.2
    = Some (if dry_run self || negb (writable_backup && writable_file)
            then lines else kept).
Proof.
  intros kept disk.
  assert (kept = filter (fun line => ¬ removed_line unused_keys line) lines) as Hk.
  { unfold kept, filter_lines.
    by destruct (filter_loop (verbose self) unused_keys lines
                   {| filtered_lines := []; removed_count := 0; printed := [] |})
      as (-> & _ & _). }
  split_and!; [done|..].
  - rewrite Hk. apply sublist_filter.
  - intros line. rewrite Hk, list_elem_of_filter. tauto.
  - intros line Hin Hkeep. rewrite Hk. apply list_elem_of_filter.
    split; [|done]. by apply kept_line.
  - unfold remove_unused_localizations.
    case_bool_decide as He.
    + simpl. f_equal.
      destruct (dry_run self || negb (writable_backup && writable_file)); [done|].
      rewrite Hk, He. by rewrite nothing_removed.
    + destruct (dry_run self); [done|]. cbn [disk localizable_file can_write_backup
        can_write_file orb].
      by destruct writable_backup, writable_file.
Qed.

(** C6, as stated, fails: the function returns a truth value; the count of
    removed lines is printed.  With two lines of the file holding the key to
    remove, it returns [True] (1 as a number) while 2 lines are removed. *)
Lemma remove_returns_flag_not_count :
  let lines := [quoted "'a' = '1';" ++ [LF]; quoted "// note" ++ [LF];
                quoted "'a' = '2';" ++ [LF]] in
  let disk := {| localizable_file := Some lines; backup_file := None;
                 can_write_backup := true; can_write_file := true |} in
  let result :=
    remove_unused_localizations {| dry_run := false; verbose := false |}
      {[ txt "a" ]} disk in
  result.1.1 = true
  ∧ Nat.b2n result.1.1 ≠ 2
  ∧ localizable_file result.1.2 = Some [quoted "// note" ++ [LF]]
  ∧ result.2 = [BackupCreated; RemovedCount 2].
Proof. vm_compute. split_and!; done. Qed.

(** C6 (amended): a real run on a readable file, with keys to remove, in
    which the backup and the file can be written, returns the success flag
    and prints, last, the count of lines removed: the number of lines of the
    file that match the entry pattern with a key of the removal set, which
    is also the number of lines by which the file shrinks.  When one of the
    two writes is refused, it returns [False], prints the failure and no
    count, and leaves the file as it is. *)
Theorem remove_reports_removed_count (self : Cleaner) (unused_keys : gset text)
  (lines : list text) (backup : option (list text))
  (writable_backup writable_file : bool) :
  unused_keys ≠ ∅ → dry_run self = false →
  let disk := {| localizable_file := Some lines; backup_file := backup;
                 can_write_backup := writable_backup;
                 can_write_file := writable_file |} in
  let result := remove_unused_localizations self unused_keys disk in
  let count := length (filter (removed_line unused_keys) lines) in
  if writable_backup && writable_file then
    result.1.1 = true
    ∧ last result.2 = Some (RemovedCount count)
    ∧ (∀ n, RemovedCount n ∈ result.2 → n = count)
    ∧ ∃ written, localizable_file result.1.2 = Some written
                 ∧ length written + count = length lines
  else
    result.1.1 = false
    ∧ last result.2 = Some RemoveFailed
    ∧ (∀ n, RemovedCount n ∉ result.2)
    ∧ localizable_file result.1.2 = Some lines.
Proof.
  intros Hne Hreal disk result count.
  unfold result, remove_unused_localizations.
  rewrite bool_decide_eq_false_2 by done. rewrite Hreal.
  cbn [disk localizable_file can_write_backup can_write_file].
  destruct (filter_loop (verbose self) unused_keys lines
              {| filtered_lines := []; removed_count := 0; printed := [] |})
    as (Hf & Hc & Hp). fold (filter_lines (verbose self) unused_keys lines) in Hf, Hc, Hp.
  simpl in Hf, Hc, Hp.
  assert (∀ n, RemovedCount n ∉ printed (filter_lines (verbose self) unused_keys lines))
    as Hprinted.
  { intros n. rewrite Hp. destruct (verbose self); [|apply not_elem_of_nil].
    by intros (? & [=] & _)%list_elem_of_fmap. }
  destruct writable_backup; cbn [negb andb]; [destruct writable_file; cbn [negb]|].
  - cbn [fst snd]. rewrite Hc. fold count. split_and!; [done| | |].
    + by rewrite app_assoc, last_snoc.
    + intros n. rewrite !elem_of_app, !list_elem_of_singleton.
      intros [[=]|[Hin|[= ->]]]; [|done]. by destruct (Hprinted n).
    + eexists. split; [reflexivity|]. rewrite Hf. unfold count.
      pose proof (filter_app_complement (removed_line unused_keys) lines) as Hperm.
      apply Permutation_length in Hperm. rewrite length_app in Hperm. lia.
  - cbn [fst snd localizable_file]. split_and!; [done| |  |done].
    + by rewrite app_assoc, last_snoc.
    + intros n. rewrite !elem_of_app, !list_elem_of_singleton.
      intros [[=]|[Hin|[=]]]. by destruct (Hprinted n).
  - cbn [fst snd localizable_file]. split_and!; [done|done| |done].
    intros n [=]%list_elem_of_singleton.
Qed.

(** A real run that removes two of four lines. *)
Lemma remove_reports_removed_count_witness :
  let lines := [quoted "'common.ok' = 'OK';" ++ [LF]; quoted "// note" ++ [LF];
                quoted "'orphan.key' = 'x';" ++ [LF];
                quoted "  'orphan.key' = 'y' ;  " ++ [LF]] in
  let self := {| dry_run := false; verbose := true |} in
  let unused_keys : gset text := {[ txt "orphan.key" ]} in
  let result :=
    remove_unused_localizations self unused_keys
      {| localizable_file := Some lines; backup_file := None;
         can_write_backup := true; can_write_file := true |} in
  (unused_keys ≠ ∅ ∧ dry_run self = false)
  ∧ result.1.1 = true
  ∧ last result.2 = Some (RemovedCount 2).
Proof.
  intros lines self unused_keys result.
  assert (unused_keys ≠ ∅) as Hne by by vm_compute.
  assert (dry_run self = false) as Hreal by reflexivity.
  split; [done|].
  destruct (remove_reports_removed_count self unused_keys lines None true true
              Hne Hreal) as (Hflag & Hlast & _).
  split; [exact Hflag | exact Hlast].
Defined.

(** ** Usage *)

Lemma startswith_iff s p : startswith s p = true ↔ ∃ rest, s = p ++ rest.
Proof.
  revert s. induction p as [|a p IH]; intros s.
  - destruct s; simpl; split; eauto.
  - destruct s as [|b s]; cbn [startswith].
    + split; [done|]. by intros (rest & ?).
    + rewrite andb_true_iff, N.eqb_eq, IH. split.
      * intros (-> & rest & ->). by exists rest.
      * intros (rest & [= -> ->]). eauto.
Qed.

(** [contains] is the substring test. *)
Lemma contains_iff hay needle :
  contains hay needle = true ↔ ∃ pre post, hay = pre ++ needle ++ post.
Proof.
  induction hay as [|c hay IH].
  - cbn [contains]. rewrite orb_false_r, startswith_iff. split.
    + intros (post & ->). by exists [], post.
    + intros (pre & post & H). symmetry in H.
      apply app_eq_nil in H as [-> H]. exists post. by rewrite H.
  - cbn [contains]. rewrite orb_true_iff, startswith_iff, IH. split.
    + intros [(post & ->)|(pre & post & ->)].
      * by exists [], post.
      * by exists (c :: pre), post.
    + intros (pre & post & H). destruct pre as [|d pre].
      * left. by exists post.
      * right. injection H as -> ->. by exists pre, post.
Qed.

Lemma endswith_iff s suffix : endswith s suffix = true ↔ ∃ stem, s = stem ++ suffix.
Proof.
  unfold endswith. rewrite startswith_iff. split.
  - intros (rest & H). exists (reverse rest).
    apply (f_equal reverse) in H.
    by rewrite reverse_involutive, reverse_app, reverse_involutive in H.
  - intros (stem & ->). exists (reverse stem). by rewrite reverse_app.
Qed.

Lemma search_in_file_iff (fs : files) file term :
  search_in_file fs file term = true ↔ file_has fs file term.
Proof.
  unfold search_in_file, file_has. destruct (fs file) as [content|].
  - rewrite contains_iff. split.
    + intros (pre & post & ->). by exists (pre ++ term ++ post), pre, post.
    + intros (c & pre & post & [= <-] & ->). by exists pre, post.
  - split; [done|]. by intros (c & pre & post & [=] & _).
Qed.

Lemma swift_not_objc : txt ".swift" ∉ [txt ".m"; txt ".mm"; txt ".h"].
Proof. rewrite !elem_of_cons, elem_of_nil. by intros [?|[?|[?|?]]]. Qed.

Section scans.
Context (fs : files) (original_key camel_case_key : text).
Let swiftgen_term := swiftgen_term_of camel_case_key.
Let native_term_oc := native_term_oc_of original_key.
Let native_term_swift := native_term_swift_of original_key.

Lemma swiftgen_scan_None swift_files :
  (swiftgen_scan fs swiftgen_term swift_files).1 = None ↔
  ∀ file, file ∈ swift_files → ¬ generator_ref fs camel_case_key file.
Proof.
  induction swift_files as [|file rest IH]; simpl.
  - split; [|done]. by intros _ ? ?%elem_of_nil.
  - destruct (search_in_file fs file swiftgen_term) eqn:E; simpl.
    + split; [done|]. intros H. destruct (H file); [by left|].
      by apply search_in_file_iff.
    + rewrite IH. split.
      * intros H f [->|Hin]%elem_of_cons; [|by apply H].
        intros Hg%search_in_file_iff. unfold swiftgen_term, swiftgen_term_of in E.
        congruence.
      * intros H f Hin. apply H. by right.
Qed.

Lemma swiftgen_scan_Some swift_files file :
  (swiftgen_scan fs swiftgen_term swift_files).1 = Some file →
  file ∈ swift_files ∧ generator_ref fs camel_case_key file.
Proof.
  induction swift_files as [|f rest IH]; simpl; [done|].
  destruct (search_in_file fs f swiftgen_term) eqn:E; simpl.
  - intros [= ->]. split; [by left|]. by apply search_in_file_iff.
  - intros [Hin Hg]%IH. split; [by right|done].
Qed.

(** The searches of the first loop: the generator term, file after file;
    every file when none holds it. *)
Lemma swiftgen_scan_probes swift_files :
  let scan := swiftgen_scan fs swiftgen_term swift_files in
  (∃ n, scan.2 = (fun file => (file, swiftgen_term)) <$> take n swift_files)
  ∧ (scan.1 = None → scan.2 = (fun file => (file, swiftgen_term)) <$> swift_files).
Proof.
  induction swift_files as [|f rest [[n IHn] IH]]; simpl.
  - split; [by exists 0|done].
  - destruct (search_in_file fs f swiftgen_term) eqn:E; simpl.
    + split; [by exists 1|done].
    + split; [exists (S n); simpl; by rewrite IHn|].
      intros H. by rewrite IH.
Qed.

Lemma native_scan_None swift_files :
  (native_scan fs native_term_oc native_term_swift swift_files).1 = None ↔
  ∀ file, file ∈ swift_files → ¬ native_ref fs original_key file.
Proof.
  induction swift_files as [|file rest IH]; cbn [native_scan].
  - split; [|done]. by intros _ ? ?%elem_of_nil.
  - assert (∀ P : Prop, ¬ native_ref fs original_key file →
              (P ↔ ∀ f, f ∈ rest → ¬ native_ref fs original_key f) →
              (P ↔ ∀ f, f ∈ file :: rest → ¬ native_ref fs original_key f)) as Hskip.
    { intros P Hfile ->. split.
      - intros H f [->|Hin]%elem_of_cons; [done|by apply H].
      - intros H f Hin. apply H. by right. }
    assert (∀ found : list text, native_ref fs original_key file →
              (Some found = None ↔
               ∀ f, f ∈ file :: rest → ¬ native_ref fs original_key f)) as Hhit.
    { intros found Hfile. split; [done|]. intros H. destruct (H file); [by left|done]. }
    case_bool_decide as Hoc.
    + destruct (search_in_file fs file native_term_oc) eqn:E; simpl.
      * apply Hhit. left. split; [done|]. by apply search_in_file_iff.
      * apply Hskip; [|done]. intros [[_ H%search_in_file_iff]|[Hs _]].
        -- unfold native_term_oc, native_term_oc_of in E. congruence.
        -- rewrite Hs in Hoc. by apply swift_not_objc in Hoc.
    + case_bool_decide as Hsw.
      * destruct (search_in_file fs file native_term_swift) eqn:E1; simpl.
        { apply Hhit. right. split; [done|]. left. by apply search_in_file_iff. }
        destruct (search_in_file fs file native_term_oc) eqn:E2; simpl.
        { apply Hhit. right. split; [done|]. right. by apply search_in_file_iff. }
        apply Hskip; [|done].
        intros [[H _]|[_ [H%search_in_file_iff|H%search_in_file_iff]]]; [done|..].
        -- unfold native_term_swift, native_term_swift_of in E1. congruence.
        -- unfold native_term_oc, native_term_oc_of in E2. congruence.
      * apply Hskip; [|done]. by intros [[H _]|[H _]].
Qed.

Lemma native_scan_Some swift_files file :
  (native_scan fs native_term_oc native_term_swift swift_files).1 = Some file →
  file ∈ swift_files ∧ native_ref fs original_key file.
Proof.
  induction swift_files as [|f rest IH]; cbn [native_scan]; [done|].
  assert ((native_scan fs native_term_oc native_term_swift rest).1 = Some file →
          file ∈ f :: rest ∧ native_ref fs original_key file) as Hrest.
  { intros [Hin H]%IH. split; [by right|done]. }
  case_bool_decide as Hoc.
  - destruct (search_in_file fs f native_term_oc) eqn:E; simpl; [|done].
    intros [= ->]. split; [by left|]. left. split; [done|].
    by apply search_in_file_iff.
  - case_bool_decide as Hsw; [|done].
    destruct (search_in_file fs f native_term_swift) eqn:E1; simpl.
    { intros [= ->]. split; [by left|]. right. split; [done|]. left.
      by apply search_in_file_iff. }
    destruct (search_in_file fs f native_term_oc) eqn:E2; simpl; [|done].
    intros [= ->]. split; [by left|]. right. split; [done|]. right.
    by apply search_in_file_iff.
Qed.

(** The searches of the second loop are native-lookup searches. *)
Lemma native_scan_probes swift_files :
  Forall (fun probe : list text * text =>
            probe.2 = native_term_oc ∨ probe.2 = native_term_swift)
    (native_scan fs native_term_oc native_term_swift swift_files).2.
Proof.
  induction swift_files as [|f rest IH]; cbn [native_scan]; [constructor|].
  case_bool_decide as Hoc.
  - destruct (search_in_file fs f native_term_oc); simpl;
      repeat (apply Forall_cons_2; [by (left + right)|]);
      (apply Forall_nil_2 || exact IH).
  - case_bool_decide as Hsw; [|done].
    destruct (search_in_file fs f native_term_swift); simpl;
      [by repeat (apply Forall_cons_2; [by (left + right)|])|].
    destruct (search_in_file fs f native_term_oc); simpl;
      repeat (apply Forall_cons_2; [by (left + right)|]);
      (apply Forall_nil_2 || exact IH).
Qed.
End scans.

(** C1: the classifier answers generator style exactly when some candidate
    file holds the prefix followed by the transformed key, whatever native
    references there are; without such a file it answers native lookup
    exactly when some file holds the reference that goes with its extension
    (the Objective-C literal for [.m], [.mm] and [.h]; the plain literal or the
    Objective-C literal for [.swift]); and it answers unused exactly when no
    file holds either.  The file returned is a candidate that holds the
    reference.  All generator-style searches come before the native-lookup
    searches, and a native-lookup search is made only after every file has
    been searched for the generator-style reference.  A file made of
    [L10n.Common.ok] alone makes [common.ok] used in generator style. *)
Theorem is_localization_used_classifies (fs : files)
  (original_key camel_case_key : text) (swift_files : list Path) :
  let used := is_localization_used fs original_key camel_case_key swift_files in
  let generator :=
    ∃ file, file ∈ swift_files ∧ generator_ref fs camel_case_key file in
  let native :=
    ∃ file, file ∈ swift_files ∧ native_ref fs original_key file in
  (usage_kind used.1 = Some SwiftGenStyle ↔ generator)
  ∧ (usage_kind used.1 = Some NativeLookupStyle ↔ ¬ generator ∧ native)
  ∧ (usage_kind used.1 = Some Unused ↔ ¬ generator ∧ ¬ native)
  ∧ (used.1 = (false, [], [])
     ∨ ∃ file, file ∈ swift_files
         ∧ (used.1 = (true, [file], txt "SwiftGen")
            ∧ generator_ref fs camel_case_key file
            ∨ used.1 = (true, [file], txt "NSLocalizedString")
              ∧ native_ref fs original_key file))
  ∧ (∃ first second : list (list text * text),
        used.2 = first ++ second
        ∧ Forall (fun probe => probe.2 = txt "L10n." ++ camel_case_key) first
        ∧ Forall (fun probe =>
                    probe.2 = txt "NSLocalizedString(@" ++ [QUOTE] ++ original_key ++ [QUOTE]
                    ∨ probe.2 = txt "NSLocalizedString(" ++ [QUOTE] ++ original_key ++ [QUOTE])
            second
        ∧ (second ≠ [] →
           first = (fun file => (file, txt "L10n." ++ camel_case_key)) <$> swift_files))
  ∧ (let file := [txt "App"; txt "View.swift"] in
     let disk : list text → option text :=
       fun p => if bool_decide (p = file) then Some (txt "L10n.Common.ok") else None in
     usage_kind (is_localization_used disk (txt "common.ok")
                   (snake_to_camel (txt "common.ok")) [file]).1
     = Some SwiftGenStyle).
Proof.
  intros used generator native.
  pose proof (swiftgen_scan_None fs camel_case_key swift_files) as HgN.
  pose proof (swiftgen_scan_Some fs camel_case_key swift_files) as HgS.
  pose proof (swiftgen_scan_probes fs camel_case_key swift_files) as [[n Hgp] HgpN].
  pose proof (native_scan_None fs original_key swift_files) as HnN.
  pose proof (native_scan_Some fs original_key swift_files) as HnS.
  pose proof (native_scan_probes fs original_key swift_files) as Hnp.
  assert (Forall (fun probe : list text * text => probe.2 = txt "L10n." ++ camel_case_key)
            (swiftgen_scan fs (swiftgen_term_of camel_case_key) swift_files).2) as Hgall.
  { rewrite Hgp. apply Forall_fmap, Forall_true. done. }
  unfold used, is_localization_used.
  destruct (swiftgen_scan fs (swiftgen_term_of camel_case_key) swift_files)
    as [[found|] log] eqn:Eg; simpl in *.
  - destruct (HgS found eq_refl) as [Hin Href].
    assert generator as Hgen by (by exists found).
    split_and!; [done|split; [done|tauto]|split; [done|tauto]| | |by vm_compute].
    + right. exists found. split; [done|]. by left.
    + exists log, []. rewrite app_nil_r. split_and!; [done|done|constructor|done].
  - assert (¬ generator) as Hgen.
    { intros (file & Hin & Href). by apply (proj1 HgN eq_refl file). }
    destruct (native_scan fs (native_term_oc_of original_key)
                (native_term_swift_of original_key) swift_files)
      as [[found|] log'] eqn:En; simpl in *.
    + destruct (HnS found eq_refl) as [Hin Href].
      assert native as Hnat by (by exists found).
      split_and!; [split; [done|tauto]|done|split; [done|tauto]| | |by vm_compute].
      * right. exists found. split; [done|]. by right.
      * exists log, log'. split_and!; [done..|]. intros _. by apply HgpN.
    + assert (¬ native) as Hnat.
      { intros (file & Hin & Href). by apply (proj1 HnN eq_refl file). }
      split_and!; [split; [done|tauto]|split; [done|tauto]|done| | |by vm_compute].
      * by left.
      * exists log, log'. split_and!; [done..|]. intros _. by apply HgpN.
Qed.

(** ** Source files *)

Lemma in_excluded_dir_iff (file : list text) :
  in_excluded_dir file = true ↔ ∃ part, part ∈ file ∧ part ∈ excluded_dirs.
Proof.
  unfold in_excluded_dir. rewrite existsb_exists. split.
  - intros (d & Hd%list_elem_of_In & Hin%bool_decide_eq_true). eauto.
  - intros (d & Hin & Hd). exists d. split; [by apply list_elem_of_In|].
    by apply bool_decide_eq_true.
Qed.

(** C5, as stated, fails: the directory [Podsy] has [Pods] as a substring,
    and the file below it is still a candidate, since no part of its path is
    equal to an excluded name. *)
Lemma find_swift_files_keeps_substring_match :
  let file := [txt "App"; txt "Podsy"; txt "View.swift"] in
  claimed_excluded file ∧ find_swift_files [file] = [file].
Proof.
  split; [|by vm_compute].
  exists (txt "Podsy"), (txt "Pods"), [], (txt "y").
  split_and!; [|by left|done]. right. by left.
Qed.

(** C5 (amended): the scanner yields a path exactly when it lies below the
    source directory, its name ends with one of the extensions, and no part
    of the path is equal to one of the names Pods, build, DerivedData and
    .git (equality of whole parts; a part that only contains such a name
    does not exclude the path). *)
Theorem find_swift_files_spec (source_tree : list (list text)) (file : list text) :
  file ∈ find_swift_files source_tree ↔
  file ∈ source_tree
  ∧ (∃ ext stem, ext ∈ [txt ".swift"; txt ".m"; txt ".mm"; txt ".h"]
                 ∧ name file = stem ++ ext)
  ∧ ∀ part, part ∈ file →
      part ∉ [txt "Pods"; txt "build"; txt "DerivedData"; txt ".git"].
Proof.
  unfold find_swift_files.
  rewrite list_elem_of_In, filter_In, <- list_elem_of_In, elem_of_concat.
  rewrite negb_true_iff, <- not_true_iff_false, in_excluded_dir_iff.
  split.
  - intros [(l & (ext & -> & Hext)%list_elem_of_fmap & Hin) Hex].
    unfold rglob in Hin.
    apply list_elem_of_In, filter_In in Hin as [Hin Hend].
    apply endswith_iff in Hend as [stem Hstem].
    split_and!; [by apply list_elem_of_In|by exists ext, stem|].
    intros part Hpart Hd. apply Hex. by exists part.
  - intros (Hin & (ext & stem & Hext & Hname) & Hparts). split.
    + exists (rglob source_tree ext). split; [by apply list_elem_of_fmap_2|].
      unfold rglob. apply list_elem_of_In, filter_In.
      split; [by apply list_elem_of_In|]. apply endswith_iff. by exists stem.
    + intros (part & Hpart & Hd). by apply (Hparts part).
Qed.

(** ** The key-diff tool *)

Module CheckerFacts.
Import Checker CheckerSpec.

(** The order of [str] is the lexicographic order of the code points: a
    prefix comes first, and otherwise the first place where two strings
    differ decides. *)
Lemma str_order_lexicographic (a b : text) :
  str_order a b ↔
  a `prefix_of` b
  ∨ ∃ common x y rest_a rest_b,
      a = common ++ x :: rest_a ∧ b = common ++ y :: rest_b ∧ (x < y)%N.
Proof.
  unfold str_order. revert b. induction a as [|x a IH]; intros b.
  - simpl. split; [|done]. intros _. left. apply prefix_nil.
  - destruct b as [|y b]; cbn [str_le].
    + split; [done|]. intros [[k Hk]|(common & ? & ? & ? & ? & _ & H & _)].
      * done.
      * by destruct common.
    + rewrite orb_true_iff, andb_true_iff, N.ltb_lt, N.eqb_eq, IH. split.
      * intros [Hlt|[-> [Hp|(common & x' & y' & ra & rb & -> & -> & Hlt)]]].
        -- right. by exists [], x, y, a, b.
        -- left. by apply prefix_cons.
        -- right. by exists (y :: common), x', y', ra, rb.
      * intros [Hp|(common & x' & y' & ra & rb & Ha & Hb & Hlt)].
        -- right. split; [by eapply prefix_cons_inv_1|].
           left. by eapply prefix_cons_inv_2.
        -- destruct common as [|c common]; simpl in *; simplify_eq.
           ++ by left.
           ++ right. split; [done|]. right. by exists common, x', y', ra, rb.
Qed.

#[global] Instance str_order_total : Total str_order.
Proof.
  unfold str_order. intros a. induction a as [|x a IH]; intros b; [by left|].
  destruct b as [|y b]; [by right|]. cbn [str_le].
  destruct (N.lt_trichotomy x y) as [Hlt|[->|Hgt]].
  - left. apply orb_true_iff. left. by apply N.ltb_lt.
  - rewrite N.eqb_refl, N.ltb_irrefl. simpl. apply IH.
  - right. apply orb_true_iff. left. by apply N.ltb_lt.
Qed.

#[global] Instance str_order_trans : Transitive str_order.
Proof.
  unfold str_order. intros a. induction a as [|x a IH]; intros b c; [done|].
  destruct b as [|y b]; [done|]. destruct c as [|z c]; [done|]. cbn [str_le].
  rewrite !orb_true_iff, !andb_true_iff, !N.ltb_lt, !N.eqb_eq.
  intros [H1|[-> H1]] [H2|[-> H2]]; [left; lia|by left|by left|].
  right. split; [done|]. by eapply IH.
Qed.

#[global] Instance str_order_antisym : AntiSymm (=) str_order.
Proof.
  unfold str_order. intros a. induction a as [|x a IH]; intros b.
  - by destruct b.
  - destruct b as [|y b]; [done|]. cbn [str_le].
    rewrite !orb_true_iff, !andb_true_iff, !N.ltb_lt, !N.eqb_eq.
    intros [H1|[-> H1]] [H2|[H2' H2]]; try lia. f_equal. by apply IH.
Qed.

(** Sorting does not depend on the order the keys come in. *)
Lemma sorted_permutation (l1 l2 : list text) : l1 ≡ₚ l2 → sorted l1 = sorted l2.
Proof.
  intros Hperm. unfold sorted.
  apply (Sorted_unique str_order); [apply Sorted_merge_sort; apply _..|].
  by rewrite !merge_sort_Permutation.
Qed.

Lemma displayed_keys_fmap (keys : list text) :
  displayed_keys (MissingKey <$> keys) = keys.
Proof.
  unfold displayed_keys. induction keys as [|k keys IH]; [done|].
  simpl. by f_equal.
Qed.

Lemma difference_empty_iff (base_keys compare_keys : gset text) :
  base_keys ∖ compare_keys = ∅ ↔ base_keys ⊆ compare_keys.
Proof.
  split.
  - intros He key Hin. destruct (decide (key ∈ compare_keys)); [done|].
    assert (key ∈ base_keys ∖ compare_keys) as H by set_solver.
    rewrite He in H. set_solver.
  - intros Hsub. apply set_eq. set_solver.
Qed.

Lemma size_difference_zero (base_keys compare_keys : gset text) :
  size (base_keys ∖ compare_keys) = 0 ↔ base_keys ⊆ compare_keys.
Proof. by rewrite size_empty_iff, leibniz_equiv_iff, difference_empty_iff. Qed.

Lemma add_key_cases (keys : gset text) (raw : text) :
  add_key keys raw =
  match key_of_line raw with Some key => {[ key ]} ∪ keys | None => keys end.
Proof. unfold add_key, key_of_line. by destruct (blank_or_comment (strip raw)). Qed.

Lemma elem_of_keys (lines : list text) (keys : gset text) (key : text) :
  key ∈ fold_left add_key lines keys ↔
  key ∈ keys ∨ ∃ raw, raw ∈ lines ∧ key_of_line raw = Some key.
Proof.
  revert keys. induction lines as [|raw lines IH]; intros keys; simpl.
  - split; [by left|]. intros [?|(raw & ?%elem_of_nil & _)]; done.
  - rewrite IH, add_key_cases. destruct (key_of_line raw) as [k|] eqn:E.
    + rewrite elem_of_union, elem_of_singleton. split.
      * intros [[->|?]|(r & Hin & Hk)]; [|by left|].
        -- right. exists raw. split; [by left|done].
        -- right. exists r. split; [by right|done].
      * intros [?|(r & [->|Hin]%elem_of_cons & Hk)]; [by left; right| |].
        -- left. left. congruence.
        -- right. by exists r.
    + split.
      * intros [?|(r & Hin & Hk)]; [by left|]. right. exists r. split; [by right|done].
      * intros [?|(r & [->|Hin]%elem_of_cons & Hk)]; [by left|congruence|].
        right. by exists r.
Qed.

Lemma compare_count (listing : gset text → list text)
  (base_keys compare_keys : gset text) (compare_name : text) :
  (compare_and_display_missing_keys listing base_keys compare_keys compare_name).1
  = size (base_keys ∖ compare_keys).
Proof. unfold compare_and_display_missing_keys. by case_bool_decide. Qed.

Lemma compare_displayed (listing : gset text → list text)
  (base_keys compare_keys : gset text) (compare_name : text) :
  displayed_keys
    (compare_and_display_missing_keys listing base_keys compare_keys compare_name).2
  = if bool_decide (base_keys ∖ compare_keys = ∅) then []
    else sorted (listing (base_keys ∖ compare_keys)).
Proof.
  unfold compare_and_display_missing_keys. case_bool_decide; [done|].
  cbn [snd]. unfold displayed_keys. cbn [omap list_omap].
  apply displayed_keys_fmap.
Qed.

(** C7: the keys counted and shown as missing are the keys of the base set
    that are not in the compared set, each once; they are shown in the
    lexicographic order of [str]; neither the order in which the set is
    enumerated nor the order of the lines of the files changes what is shown;
    and a set compared with itself has no missing key. *)
Theorem missing_keys_are_difference (listing : gset text → list text) :
  (∀ keys, listing keys ≡ₚ elements keys) →
  ∀ (base_keys compare_keys : gset text) (compare_name : text),
    let shown :=
      compare_and_display_missing_keys listing base_keys compare_keys compare_name in
    shown.1 = size (base_keys ∖ compare_keys)
    ∧ (∀ key, key ∈ displayed_keys shown.2 ↔ key ∈ base_keys ∧ key ∉ compare_keys)
    ∧ NoDup (displayed_keys shown.2)
    ∧ Sorted str_order (displayed_keys shown.2)
    ∧ shown
      = compare_and_display_missing_keys elements base_keys compare_keys compare_name
    ∧ compare_and_display_missing_keys listing base_keys base_keys compare_name
      = (0, [NothingMissing compare_name])
    ∧ (∀ content1 content2,
         splitlines content1 ≡ₚ splitlines content2 →
         parse_strings_file_content content1 = parse_strings_file_content content2).
Proof.
  intros Hlisting base_keys compare_keys compare_name shown.
  assert (sorted (listing (base_keys ∖ compare_keys))
          = sorted (elements (base_keys ∖ compare_keys))) as Hsorted
    by apply sorted_permutation, Hlisting.
  assert (displayed_keys shown.2 ≡ₚ elements (base_keys ∖ compare_keys)) as Hperm.
  { unfold shown. rewrite compare_displayed. case_bool_decide as He.
    - by rewrite He, elements_empty.
    - unfold sorted. by rewrite merge_sort_Permutation. }
  split_and!.
  - apply compare_count.
  - intros key. rewrite Hperm, elem_of_elements. set_solver.
  - rewrite Hperm. apply NoDup_elements.
  - unfold shown. rewrite compare_displayed. case_bool_decide; [constructor|].
    apply Sorted_merge_sort. apply _.
  - unfold shown, compare_and_display_missing_keys. by rewrite Hsorted.
  - unfold compare_and_display_missing_keys.
    assert (base_keys ∖ base_keys = ∅) as -> by set_solver.
    by rewrite bool_decide_eq_true_2.
  - intros content1 content2 Hlines. unfold parse_strings_file_content.
    apply set_eq. intros key. rewrite !elem_of_keys.
    by setoid_rewrite Hlines.
Qed.

(** The difference of two small key sets, whatever the order [elements]
    lists them in. *)
Lemma missing_keys_are_difference_witness :
  let keys (l : list string) : gset text := list_to_set (txt <$> l) in
  let base_keys := keys ["market.back"; "common.ok"; "common.cancel"; "Common.ok"] in
  let compare_keys := keys ["common.ok"] in
  let shown :=
    compare_and_display_missing_keys elements base_keys compare_keys
      (txt "zh-Hans.lproj") in
  (∀ s : gset text, elements s ≡ₚ elements s)
  ∧ shown.1 = size (base_keys ∖ compare_keys)
  ∧ (∀ key, key ∈ displayed_keys shown.2 ↔ key ∈ base_keys ∧ key ∉ compare_keys)
  ∧ displayed_keys shown.2
    = [txt "Common.ok"; txt "common.cancel"; txt "market.back"].
Proof.
  intros keys base_keys compare_keys shown.
  assert (∀ s : gset text, elements s ≡ₚ elements s) as Hlisting by done.
  split; [exact Hlisting|].
  destruct (missing_keys_are_difference elements Hlisting base_keys compare_keys
              (txt "zh-Hans.lproj")) as (Hcount & Hin & _).
  split; [exact Hcount|]. split; [exact Hin|]. by vm_compute.
Defined.

Lemma given_Some (compare_file2 : option text) (file2 : text) :
  given compare_file2 = Some file2 ↔ compare_file2 = Some file2 ∧ file2 ≠ [].
Proof.
  unfold given. destruct compare_file2 as [p|]; [|naive_solver].
  case_bool_decide; naive_solver.
Qed.

(** C4, as stated, fails.  When the second compare file cannot be read, the
    failure is printed and the file is skipped: with nothing missing from the
    first compare file, [main] returns 0.  And when the base file holds no
    key, no comparison is made and no key is missing, yet [main] returns 1. *)
Lemma main_status_not_as_claimed :
  let fs := disk_of [(txt "en.lproj/Localizable.strings", quoted "'a' = '1';");
                     (txt "zh-Hans.lproj/Localizable.strings", quoted "'a' = 'x';");
                     (txt "empty.lproj/Localizable.strings", quoted "// no entry")] in
  let unreadable := {| base_file := txt "en.lproj/Localizable.strings";
                       compare_file1 := txt "zh-Hans.lproj/Localizable.strings";
                       compare_file2 := Some (txt "zh-Hant.lproj/Localizable.strings") |} in
  let no_keys := {| base_file := txt "empty.lproj/Localizable.strings";
                    compare_file1 := txt "zh-Hans.lproj/Localizable.strings";
                    compare_file2 := None |} in
  (fs (txt "zh-Hant.lproj/Localizable.strings") = None
   ∧ FileError (txt "zh-Hant.lproj/Localizable.strings") ∈ (main elements fs unreadable).2
   ∧ (main elements fs unreadable).1 = 0)
  ∧ (main elements fs no_keys
     = (1, [ReadingBase (txt "empty.lproj/Localizable.strings"); NoKeysInBase])).
Proof.
  intros fs unreadable no_keys. split; [|by vm_compute]. split; [done|].
  assert (main elements fs unreadable
          = (0, [ReadingBase (txt "en.lproj/Localizable.strings");
                 BaseKeyCount 1;
                 ReadingCompare 1 (txt "zh-Hans.lproj/Localizable.strings");
                 CompareKeyCount 1 1; Rule;
                 NothingMissing (txt "zh-Hans.lproj"); Rule;
                 ReadingCompare 2 (txt "zh-Hant.lproj/Localizable.strings");
                 FileError (txt "zh-Hant.lproj/Localizable.strings");
                 Rule; Summary 0; Rule])) as -> by by vm_compute.
  split; [|done]. cbn [snd]. do 8 right. left.
Qed.

(** The value [main] returns, without its output. *)
Lemma main_returns (listing : gset text → list text) (fs : text → option text)
  (args : Args) :
  (main listing fs args).1 =
  match fs (base_file args) with
  | None => 1
  | Some base_content =>
      let base_keys := parse_strings_file_content base_content in
      if bool_decide (base_keys = ∅) then 1 else
      match fs (compare_file1 args) with
      | None => 1
      | Some compare1_content =>
          let missing2 :=
            match given (compare_file2 args) with
            | Some file2 =>
                match fs file2 with
                | Some compare2_content =>
                    size (base_keys ∖ parse_strings_file_content compare2_content)
                | None => 0
                end
            | None => 0
            end in
          if bool_decide
               (size (base_keys ∖ parse_strings_file_content compare1_content)
                + missing2 = 0)
          then 0 else 1
      end
  end.
Proof.
  unfold main, read_file_content.
  destruct (fs (base_file args)) as [base_content|]; [|done]. cbn [app].
  case_bool_decide; [done|].
  destruct (fs (compare_file1 args)) as [compare1_content|]; [|done].
  match goal with
  | |- context [compare_and_display_missing_keys ?l ?b ?c ?n] =>
      pose proof (compare_count l b c n) as H1;
      destruct (compare_and_display_missing_keys l b c n) as [n1 o1]
  end. cbn [fst] in H1. subst n1.
  destruct (given (compare_file2 args)) as [file2|]; [|by rewrite Nat.add_0_r].
  destruct (fs file2) as [compare2_content|]; [|by rewrite Nat.add_0_r].
  match goal with
  | |- context [compare_and_display_missing_keys ?l ?b ?c ?n] =>
      pose proof (compare_count l b c n) as H2;
      destruct (compare_and_display_missing_keys l b c n) as [n2 o2]
  end. cbn [fst] in H2. by subst n2.
Qed.

(** C4 (amended): [main] returns 0 or 1.  It returns 0 exactly when the base
    file and the first compare file can be read, the base file has at least
    one key, no key of the base file is missing from the first compare file,
    and none is missing from the second compare file when one is given and
    can be read; a second compare file that cannot be read is skipped.  With
    the keys a, b, c in the base file and a, c in the compare file, b is
    shown as missing and [main] returns 1. *)
Theorem main_status (listing : gset text → list text) (fs : text → option text)
  (args : Args) :
  let status := (main listing fs args).1 in
  (status = 0 ∨ status = 1)
  ∧ (status = 0 ↔
     ∃ base_content compare1_content,
       fs (base_file args) = Some base_content
       ∧ parse_strings_file_content base_content ≠ ∅
       ∧ fs (compare_file1 args) = Some compare1_content
       ∧ parse_strings_file_content base_content
         ⊆ parse_strings_file_content compare1_content
       ∧ ∀ file2 compare2_content,
           compare_file2 args = Some file2 → file2 ≠ [] →
           fs file2 = Some compare2_content →
           parse_strings_file_content base_content
           ⊆ parse_strings_file_content compare2_content)
  ∧ (let scenario :=
       main elements
         (disk_of [(txt "en.lproj/Localizable.strings",
                    quoted "'a' = '1';" ++ [LF] ++ quoted "'b' = '2';" ++ [LF]
                    ++ quoted "'c' = '3';" ++ [LF]);
                   (txt "fr.lproj/Localizable.strings",
                    quoted "'c' = 'trois';" ++ [LF] ++ quoted "'a' = 'un';" ++ [LF])])
         {| base_file := txt "en.lproj/Localizable.strings";
            compare_file1 := txt "fr.lproj/Localizable.strings";
            compare_file2 := None |} in
     scenario.1 = 1
     ∧ displayed_keys scenario.2 = [txt "b"]
     ∧ MissingHeader (txt "fr.lproj") 1 ∈ scenario.2).
Proof.
  intros status. unfold status. rewrite main_returns. split; [|split].
  - cbn zeta. repeat case_match; auto; repeat case_bool_decide; auto.
  - destruct (fs (base_file args)) as [base_content|] eqn:Eb;
      [|split; [done|by intros (? & ? & [=] & _)]].
    cbn zeta. case_bool_decide as Hempty.
    { split; [done|]. intros (? & ? & [= <-] & Hne & _). done. }
    destruct (fs (compare_file1 args)) as [compare1_content|] eqn:E1;
      [|split; [done|by intros (? & ? & _ & _ & [=] & _)]].
    case_bool_decide as Hzero.
    + split; [intros _|done]. apply Nat.eq_add_0 in Hzero as [Hz1 Hz2].
      exists base_content, compare1_content. split_and!; [done..| |].
      * by apply size_difference_zero.
      * intros file2 compare2_content Hf2 Hne2 E2.
        rewrite (proj2 (given_Some _ _) (conj Hf2 Hne2)), E2 in Hz2.
        by apply size_difference_zero.
    + split; [done|]. intros (bc & c1 & [= <-] & _ & [= <-] & Hsub1 & Hsub2).
      destruct Hzero. apply Nat.eq_add_0. split.
      * by apply size_difference_zero.
      * destruct (given (compare_file2 args)) as [file2|] eqn:Eg; [|done].
        apply given_Some in Eg as [Hf2 Hne2].
        destruct (fs file2) as [compare2_content|] eqn:E2; [|done].
        apply size_difference_zero. by eapply Hsub2.
  - match goal with
    | |- context [main elements ?f ?a] => set (scenario := main elements f a)
    end.
    assert (scenario
            = (1, [ReadingBase (txt "en.lproj/Localizable.strings");
                   BaseKeyCount 3;
                   ReadingCompare 1 (txt "fr.lproj/Localizable.strings");
                   CompareKeyCount 1 2; Rule;
                   MissingHeader (txt "fr.lproj") 1; MissingKey (txt "b");
                   Rule; Summary 1; Rule])) as -> by by vm_compute.
    split_and!; [done..|]. cbn [snd]. do 5 right. left.
Qed.

(** The last lines of the script call [main()] without passing its result
    on: run as a script, the tool ends with status 0 whatever [main]
    returns. *)
Lemma script_status_zero (listing : gset text → list text)
  (fs : text → option text) (args : Args) :
  (script listing fs args).1 = 0 ∧ (script listing fs args).2 = (main listing fs args).2.
Proof. unfold script. by destruct (main listing fs args). Qed.

End CheckerFacts.

(** * Further properties of the cleaner *)

(** ** The entries of the parsed table *)

Lemma dict_set_Forall {V} (P : text * V → Prop) k v (d : list (text * V)) :
  Forall P d → P (k, v) → Forall P (dict_set k v d).
Proof.
  intros Hd Hkv. induction Hd as [|[k' v'] d Hx Hd IH]; simpl.
  - by repeat constructor.
  - case_bool_decide; by constructor.
Qed.

Lemma splitlines_from_no_linebreak cur s :
  no_linebreak cur → Forall no_linebreak (splitlines_from cur s).
Proof.
  revert cur. induction s as [s IH] using (induction_ltof1 _ length).
  unfold ltof in IH. intros cur Hcur.
  assert (no_linebreak (reverse cur)) as Hrev by by apply Forall_reverse.
  destruct s as [|c s]; simpl.
  - destruct cur; by repeat constructor.
  - destruct (N.eqb_spec c CR) as [->|Hcr].
    + destruct s as [|d s].
      * constructor; [done|]. apply IH; [simpl; lia|constructor].
      * destruct (d =? LF)%N; constructor; try done;
          apply IH; simpl; try lia; constructor.
    + destruct (is_linebreak c) eqn:Hc.
      * constructor; [done|]. apply IH; [simpl; lia|constructor].
      * apply IH; [simpl; lia|]. by constructor.
Qed.

Lemma lstrip_suffix s : lstrip s `suffix_of` s.
Proof.
  induction s as [|c s IH]; [done|]. simpl.
  destruct (is_space c); [|done]. by apply suffix_cons_r.
Qed.

Lemma strip_no_linebreak s : no_linebreak s → no_linebreak (strip s).
Proof.
  intros Hs. unfold strip, rstrip, no_linebreak in *.
  rewrite Forall_forall in *. intros c Hc. apply Hs.
  rewrite elem_of_reverse in Hc.
  destruct (lstrip_suffix (reverse (lstrip s))) as [k1 Hk1].
  destruct (lstrip_suffix s) as [k2 Hk2].
  rewrite Hk2. apply elem_of_app. right.
  apply elem_of_reverse. rewrite Hk1. apply elem_of_app. by right.
Qed.

Lemma entry_line_value_no_linebreak line key value :
  entry_line line key value → no_linebreak line → no_linebreak value.
Proof.
  intros (ws1 & ws2 & ws3 & ws4 & ws5 & -> & _) Hl. unfold no_linebreak in *.
  repeat (rewrite Forall_app in Hl || rewrite Forall_cons in Hl).
  tauto.
Qed.

Lemma parse_line_entry_ok d raw :
  no_linebreak raw → Forall entry_ok d → Forall entry_ok (parse_line d raw).
Proof.
  intros Hraw Hd. rewrite parse_line_match.
  destruct (match_entry (strip raw)) as [[k v]|] eqn:E; [|done].
  apply dict_set_Forall; [done|]. apply match_entry_iff in E.
  pose proof (entry_line_value_no_linebreak _ _ _ E (strip_no_linebreak _ Hraw)).
  destruct E as (? & ? & ? & ? & ? & _ & _ & _ & _ & _ & _ & Hne & Hk & Hv).
  by split_and!.
Qed.

Lemma parse_lines_entry_ok lines d :
  Forall no_linebreak lines → Forall entry_ok d →
  Forall entry_ok (fold_left parse_line lines d).
Proof.
  intros Hl. revert d. induction Hl as [|raw lines Hraw _ IH]; intros d Hd; [done|].
  simpl. apply IH. by apply parse_line_entry_ok.
Qed.

(** X1: whatever the content of the file, the parser returns a table in
    which every key stands once and every entry is well formed: its key is
    one or more key characters, its transformed key is what [snake_to_camel]
    gives for the key, and its value is a text of the value group without a
    line boundary. *)
Theorem parsed_entries_well_formed (content : text) :
  ∃ table, parse_localizable_strings (Some content) = Some table
           ∧ NoDup table.*1
           ∧ Forall entry_ok table.
Proof.
  eexists. split; [reflexivity|]. split.
  - apply parse_lines_NoDup. constructor.
  - apply parse_lines_entry_ok; [|constructor].
    apply splitlines_from_no_linebreak. constructor.
Qed.

(** ** The usage table *)

Lemma dict_set_fresh {V} k (v : V) (d : list (text * V)) :
  k ∉ d.*1 → dict_set k v d = d ++ [(k, v)].
Proof.
  induction d as [|[k' v'] d IH]; [done|]. rewrite fmap_cons, not_elem_of_cons.
  intros [Hne Hd]. simpl in *. rewrite bool_decide_eq_false_2 by done.
  by rewrite IH.
Qed.

(** The tags the classifier gives. *)
Lemma is_localization_used_tag (fs : list text → option text) original_key
  camel_case_key swift_files :
  let r := (is_localization_used fs original_key camel_case_key swift_files).1 in
  (r.1.1 = true ∧ (r.2 = txt "SwiftGen" ∨ r.2 = txt "NSLocalizedString"))
  ∨ (r.1.1 = false ∧ r.2 = []).
Proof.
  unfold is_localization_used.
  destruct (swiftgen_scan _ _ _) as [[?|] ?]; simpl; [by left; split; [|left]|].
  destruct (native_scan _ _ _ _) as [[?|] ?]; simpl; [|by right].
  left. split; [done|by right].
Qed.

Lemma classify_entry_cases (fs : list text → option text) swift_files acc item :
  classify_entry fs swift_files acc item =
  if entry_used fs swift_files item
  then (acc.1,
        dict_set (item.1) ((item.2).1, (item.2).2, entry_usage fs swift_files item) (acc.2))
  else (dict_set (item.1) (item.2) (acc.1), acc.2).
Proof.
  unfold classify_entry, entry_used, entry_usage.
  destruct item as [k [c v]]. simpl.
  destruct ((is_localization_used fs k c swift_files).1) as [[u fl] tag].
  by destruct u.
Qed.

Lemma classify_loop (fs : list text → option text) swift_files items unused used :
  NoDup items.*1 →
  (∀ k, k ∈ items.*1 → (k ∉ unused.*1) ∧ (k ∉ used.*1)) →
  fold_left (classify_entry fs swift_files) items (unused, used) =
  (unused ++ filter (fun item => entry_used fs swift_files item = false) items,
   used ++ ((fun item => (item.1, (item.2.1, item.2.2, entry_usage fs swift_files item)))
            <$> filter (fun item => entry_used fs swift_files item = true) items)).
Proof.
  revert unused used. induction items as [|item items IH]; intros unused used Hnd Hfresh.
  - simpl. by rewrite !app_nil_r.
  - rewrite fmap_cons in Hnd. apply NoDup_cons in Hnd as [Hitem Hnd].
    destruct (Hfresh item.1) as [Hu Hd]; [by left|].
    cbn [fold_left]. rewrite classify_entry_cases, !filter_cons.
    destruct (entry_used fs swift_files item) eqn:E.
    + rewrite decide_False by done. rewrite decide_True by done.
      cbn [fst snd]. rewrite dict_set_fresh by done. rewrite IH; [|done|].
      * rewrite fmap_cons, <- app_assoc. done.
      * intros k Hk. destruct (Hfresh k) as [? ?]; [by right|]. split; [done|].
        rewrite fmap_app, not_elem_of_app. split; [done|].
        cbn [fmap list_fmap fst]. rewrite list_elem_of_singleton. by intros ->.
    + rewrite decide_True by done. rewrite decide_False by done.
      cbn [fst snd]. rewrite dict_set_fresh by done. rewrite IH; [|done|].
      * destruct item. by rewrite <- app_assoc.
      * intros k Hk. destruct (Hfresh k) as [? ?]; [by right|]. split; [|done].
        rewrite fmap_app, not_elem_of_app. split; [done|].
        cbn [fmap list_fmap fst]. rewrite list_elem_of_singleton. by intros ->.
Qed.

(** The two tables [find_unused_localizations] returns. *)
Lemma find_unused_result (fs : list text → option text)
  (source_tree : list (list text)) (localizations : list (text * (text * text))) :
  NoDup localizations.*1 →
  let swift_files := find_swift_files source_tree in
  find_unused_localizations fs source_tree localizations
  = (filter (fun item => entry_used fs swift_files item = false) localizations,
     (fun item => (item.1, (item.2.1, item.2.2, entry_usage fs swift_files item)))
     <$> filter (fun item => entry_used fs swift_files item = true) localizations).
Proof.
  intros Hnd swift_files. unfold find_unused_localizations.
  rewrite classify_loop; [done..|]. intros k _. split; apply not_elem_of_nil.
Qed.

Lemma find_unused_keys (fs : list text → option text)
  (source_tree : list (list text)) (localizations : list (text * (text * text))) :
  NoDup localizations.*1 →
  let result := find_unused_localizations fs source_tree localizations in
  result.1.*1 ++ result.2.*1 ≡ₚ localizations.*1.
Proof.
  intros Hnd result. unfold result. rewrite find_unused_result by done. cbn [fst snd].
  set (swift_files := find_swift_files source_tree).
  rewrite <- list_fmap_compose.
  change (filter (fun item => entry_used fs swift_files item = false) localizations).*1
    with (fst <$> filter (fun item => entry_used fs swift_files item = false) localizations).
  match goal with
  | |- _ ++ (?f <$> ?l) ≡ₚ _ => change (f <$> l) with (fst <$> l)
  end.
  rewrite <- fmap_app. f_equiv.
  etrans; [|apply (filter_app_complement
                     (fun item => entry_used fs swift_files item = false))].
  f_equiv. apply reflexive_eq, list_filter_iff.
  intros item. by destruct (entry_used fs swift_files item).
Qed.

Lemma find_unused_tags (fs : list text → option text)
  (source_tree : list (list text)) (localizations : list (text * (text * text))) :
  NoDup localizations.*1 →
  ∀ item, item ∈ (find_unused_localizations fs source_tree localizations).2 →
    item.2.2 = txt "SwiftGen" ∨ item.2.2 = txt "NSLocalizedString".
Proof.
  intros Hnd item. rewrite find_unused_result by done. cbn [snd].
  intros (i & -> & Hi)%list_elem_of_fmap. cbn [snd].
  apply list_elem_of_filter in Hi as [Hu _]. unfold entry_used, entry_usage in *.
  destruct (is_localization_used_tag fs i.1 i.2.1 (find_swift_files source_tree))
    as [[_ H]|[H _]]; [done|congruence].
Qed.

(** An entry is found unused exactly when no candidate file refers to it. *)
Lemma entry_used_false_iff (fs : list text → option text)
  (swift_files : list (list text)) (item : text * (text * text)) :
  entry_used fs swift_files item = false ↔ unreferenced fs swift_files item.
Proof.
  pose proof (swiftgen_scan_None fs item.2.1 swift_files) as HgN.
  pose proof (swiftgen_scan_Some fs item.2.1 swift_files) as HgS.
  pose proof (native_scan_None fs item.1 swift_files) as HnN.
  pose proof (native_scan_Some fs item.1 swift_files) as HnS.
  unfold entry_used, unreferenced, is_localization_used.
  destruct (swiftgen_scan fs (swiftgen_term_of item.2.1) swift_files)
    as [[found|] log] eqn:Eg; cbn [fst snd] in *.
  - destruct (HgS found eq_refl) as [Hin Href]. split; [done|].
    intros H. by destruct (H found Hin).
  - destruct (native_scan fs (native_term_oc_of item.1) (native_term_swift_of item.1)
                swift_files) as [[found|] log'] eqn:En; cbn [fst snd] in *.
    + destruct (HnS found eq_refl) as [Hin Href]. split; [done|].
      intros H. by destruct (H found Hin).
    + split; [|done]. intros _ file Hin. split.
      * by apply (proj1 HgN eq_refl).
      * by apply (proj1 HnN eq_refl).
Qed.

Lemma find_unused_unreferenced (fs : list text → option text)
  (source_tree : list (list text)) (localizations : list (text * (text * text))) :
  NoDup localizations.*1 →
  ∀ item, item ∈ (find_unused_localizations fs source_tree localizations).1 ↔
          item ∈ localizations
          ∧ unreferenced fs (find_swift_files source_tree) item.
Proof.
  intros Hnd item. rewrite find_unused_result by done. cbn [fst].
  rewrite list_elem_of_filter, entry_used_false_iff. tauto.
Qed.

(** X2: on a table in which every key stands once, [find_unused_localizations]
    puts every entry into exactly one of its two results and keeps the order
    of the table: [unused] holds the entries that no candidate file refers
    to in either style, [used_details] holds the others, each with its
    transformed key, its value and the tag SwiftGen or NSLocalizedString. *)
Theorem find_unused_splits_table (fs : list text → option text)
  (source_tree : list (list text)) (localizations : list (text * (text * text))) :
  NoDup localizations.*1 →
  let swift_files := find_swift_files source_tree in
  let result := find_unused_localizations fs source_tree localizations in
  result.1 = filter (fun item => entry_used fs swift_files item = false) localizations
  ∧ result.2
    = (fun item => (item.1, (item.2.1, item.2.2, entry_usage fs swift_files item)))
      <$> filter (fun item => entry_used fs swift_files item = true) localizations
  ∧ (∀ item, item ∈ result.1 ↔
       item ∈ localizations ∧ unreferenced fs swift_files item)
  ∧ result.1.*1 ++ result.2.*1 ≡ₚ localizations.*1
  ∧ (∀ key, key ∈ result.1.*1 → key ∉ result.2.*1)
  ∧ (∀ item, item ∈ result.2 →
       item.2.2 = txt "SwiftGen" ∨ item.2.2 = txt "NSLocalizedString").
Proof.
  intros Hnd swift_files result.
  pose proof (find_unused_keys fs source_tree localizations Hnd) as Hperm.
  pose proof (find_unused_tags fs source_tree localizations Hnd) as Htags.
  cbn zeta in Hperm. fold result in Hperm, Htags.
  split_and!; [| | |exact Hperm| |exact Htags].
  - unfold result. by rewrite find_unused_result.
  - unfold result. by rewrite find_unused_result.
  - by apply find_unused_unreferenced.
  - assert (NoDup (result.1.*1 ++ result.2.*1)) as Hnd' by by rewrite Hperm.
    apply NoDup_app in Hnd' as (_ & Hdisj & _). exact Hdisj.
Qed.

(** A table of two entries and one source file that refers to the first. *)
Lemma find_unused_splits_table_witness :
  let file := [txt "App"; txt "View.swift"] in
  let fs : list text → option text :=
    fun p => if bool_decide (p = file) then Some (txt "Text(L10n.Common.ok)") else None in
  let localizations :=
    [(txt "common.ok", (txt "Common.ok", txt "OK"));
     (txt "orphan.key", (txt "Orphan.key", txt "x"))] in
  let result := find_unused_localizations fs [file] localizations in
  NoDup localizations.*1
  ∧ result.1 = [(txt "orphan.key", (txt "Orphan.key", txt "x"))]
  ∧ result.1.*1 ++ result.2.*1 ≡ₚ localizations.*1.
Proof.
  intros file fs localizations result.
  assert (NoDup localizations.*1) as Hnd
    by (apply (bool_decide_unpack _); by vm_compute).
  split; [exact Hnd|].
  destruct (find_unused_splits_table fs [file] localizations Hnd)
    as (_ & _ & _ & Hperm & _).
  split; [by vm_compute|exact Hperm].
Defined.

(** ** The report *)

Lemma count_usage_two (a b : text) (used_details : list (text * (text * text * text))) :
  a ≠ b →
  (∀ item, item ∈ used_details → item.2.2 = a ∨ item.2.2 = b) →
  count_usage a used_details + count_usage b used_details = length used_details.
Proof.
  intros Hab. unfold count_usage.
  induction used_details as [|item l IH]; intros Htags; [done|].
  specialize (IH (fun i Hi => Htags i (list_elem_of_further _ _ _ Hi))).
  cbn [List.filter].
  destruct (Htags item) as [Ha|Hb]; [by left|..].
  - rewrite bool_decide_eq_true_2 by done.
    rewrite (bool_decide_eq_false_2 (item.2.2 = b)) by congruence.
    simpl. lia.
  - rewrite (bool_decide_eq_false_2 (item.2.2 = a)) by congruence.
    rewrite bool_decide_eq_true_2 by done. simpl. lia.
Qed.

(** X3: for a table that is not empty and in which every key stands once,
    [generate_report] writes numbers that agree: the total is the size of the
    table, the entries used in generator style and those used by native
    lookup add up to the entries used, used and unused entries add up to the
    total, and the usage rate is the number of entries used over the
    total. *)
Theorem report_numbers_add_up (fs : list text → option text)
  (source_tree : list (list text)) (localizations : list (text * (text * text))) :
  NoDup localizations.*1 → localizations ≠ [] →
  let result := find_unused_localizations fs source_tree localizations in
  ∃ report,
    generate_report localizations result.1 result.2 = Some report
    ∧ report_total report = length localizations
    ∧ report_swiftgen report + report_nslocalizedstring report = report_used report
    ∧ report_used report + report_unused report = report_total report
    ∧ report_rate report
      = (Z.of_nat (report_used report), Z.of_nat (report_total report)).
Proof.
  intros Hnd Hne result.
  pose proof (find_unused_keys fs source_tree localizations Hnd) as Hperm.
  pose proof (find_unused_tags fs source_tree localizations Hnd) as Htags.
  fold result in Hperm, Htags.
  apply Permutation_length in Hperm. rewrite length_app, !length_fmap in Hperm.
  unfold generate_report. rewrite bool_decide_eq_false_2 by by destruct localizations.
  eexists. split; [reflexivity|]. cbn.
  split_and!; [done| |lia|f_equal; lia].
  by apply count_usage_two.
Qed.

(** One entry used, one unused. *)
Lemma report_numbers_add_up_witness :
  let file := [txt "App"; txt "View.swift"] in
  let fs : list text → option text :=
    fun p => if bool_decide (p = file) then Some (txt "Text(L10n.Common.ok)") else None in
  let localizations :=
    [(txt "common.ok", (txt "Common.ok", txt "OK"));
     (txt "orphan.key", (txt "Orphan.key", txt "x"))] in
  let result := find_unused_localizations fs [file] localizations in
  (NoDup localizations.*1 ∧ localizations ≠ [])
  ∧ ∃ report,
      generate_report localizations result.1 result.2 = Some report
      ∧ report_total report = 2
      ∧ report_used report + report_unused report = report_total report.
Proof.
  intros file fs localizations result.
  assert (NoDup localizations.*1) as Hnd
    by (apply (bool_decide_unpack _); by vm_compute).
  assert (localizations ≠ []) as Hne by done.
  split; [done|].
  destruct (report_numbers_add_up fs [file] localizations Hnd Hne)
    as (report & Hgen & Htotal & _ & Hsum & _).
  exists report. split; [exact Hgen|]. split; [exact Htotal|exact Hsum].
Defined.

Lemma splitlines_from_line cur s rest :
  no_linebreak s →
  splitlines_from cur (s ++ LF :: rest) = (reverse cur ++ s) :: splitlines_from [] rest.
Proof.
  intros Hs. revert cur. induction Hs as [|c s Hc _ IH]; intros cur.
  - by rewrite app_nil_r.
  - simpl. destruct (N.eqb_spec c CR) as [->|_]; [done|]. rewrite Hc.
    by rewrite IH, reverse_cons, <- app_assoc.
Qed.

Lemma entry_ok_no_linebreak item :
  entry_ok item → no_linebreak (entry_text item.1 item.2.2).
Proof. intros (_ & Hk & _ & _ & Hv). by apply entry_text_no_linebreak. Qed.

Lemma splitlines_unused_text (table : list (text * (text * text))) :
  Forall entry_ok table →
  splitlines (unused_text table) = (fun item => entry_text item.1 item.2.2) <$> table.
Proof.
  unfold splitlines, unused_text.
  induction 1 as [|item table Hitem _ IH]; [done|].
  rewrite !fmap_cons. cbn [concat]. rewrite <- app_assoc. cbn [app].
  rewrite splitlines_from_line by by apply entry_ok_no_linebreak.
  by rewrite IH.
Qed.

Lemma parse_entry_texts (table d : list (text * (text * text))) :
  Forall entry_ok table → NoDup table.*1 →
  (∀ k, k ∈ table.*1 → k ∉ d.*1) →
  fold_left parse_line ((fun item => entry_text item.1 item.2.2) <$> table) d
  = d ++ table.
Proof.
  intros Hok. revert d. induction Hok as [|item table Hitem _ IH]; intros d Hnd Hfresh.
  - simpl. by rewrite app_nil_r.
  - rewrite fmap_cons in Hnd. apply NoDup_cons in Hnd as [Hk Hnd].
    rewrite fmap_cons. cbn [fold_left].
    rewrite parse_line_match, entry_text_strip.
    destruct Hitem as (Hne & Hkc & Hc & Hv & _).
    rewrite entry_text_matches by done.
    rewrite dict_set_fresh by (apply Hfresh; by left).
    rewrite IH; [|done|].
    + rewrite <- app_assoc. destruct item as [k [c v]]. simpl in *. by subst.
    + intros k Hin. rewrite fmap_app, not_elem_of_app. split.
      * apply Hfresh. by right.
      * cbn [fmap list_fmap fst]. rewrite list_elem_of_singleton. by intros ->.
Qed.

(** Writing a well-formed table and parsing the text gives the table. *)
Lemma unused_text_parses (table : list (text * (text * text))) :
  Forall entry_ok table → NoDup table.*1 →
  parse_localizable_strings (Some (unused_text table)) = Some table.
Proof.
  intros Hok Hnd. unfold parse_localizable_strings. cbn [mbind option_bind].
  rewrite splitlines_unused_text by done.
  rewrite parse_entry_texts; [done..|]. intros k _. apply not_elem_of_nil.
Qed.

(** X4: for the table parsed from any file with at least one entry, the
    report is written, and the lines it lists for the unused entries, read
    by the parser, give the table of unused entries again: same keys,
    transformed keys and values, in the same order. *)
Theorem report_unused_entries_parse_back (fs : list text → option text)
  (source_tree : list (list text)) (content : text) :
  ∃ table,
    parse_localizable_strings (Some content) = Some table
    ∧ (table ≠ [] →
       ∃ report,
         generate_report table (find_unused_localizations fs source_tree table).1
           (find_unused_localizations fs source_tree table).2 = Some report
         ∧ parse_localizable_strings (Some (report_unused_text report))
           = Some (find_unused_localizations fs source_tree table).1).
Proof.
  eexists. split; [reflexivity|]. cbn [mbind option_bind].
  set (table := fold_left parse_line (splitlines content) []). intros Hne.
  assert (Forall entry_ok table) as Hok.
  { apply parse_lines_entry_ok; [|constructor].
    apply splitlines_from_no_linebreak. constructor. }
  assert (NoDup table.*1) as Hnd by (apply parse_lines_NoDup; constructor).
  unfold generate_report. rewrite bool_decide_eq_false_2 by by destruct table.
  eexists. split; [reflexivity|]. cbn [report_unused_text].
  rewrite find_unused_result by done. cbn [fst].
  apply unused_text_parses.
  - rewrite Forall_forall in *. intros item [_ Hin]%list_elem_of_filter. by apply Hok.
  - eapply sublist_NoDup; [exact Hnd|].
    apply fmap_sublist. apply sublist_filter.
Qed.

(** ** Lines of a file *)

(** [writelines(readlines())] writes the content back. *)
Lemma concat_readlines_from cur s :
  concat (readlines_from cur s) = reverse cur ++ s.
Proof.
  revert cur. induction s as [|c s IH]; intros cur; simpl.
  - destruct cur; [done|]. simpl. by rewrite !app_nil_r.
  - destruct (N.eqb_spec c LF) as [->|_].
    + cbn [concat]. rewrite IH, reverse_cons. simpl. by rewrite <- app_assoc.
    + rewrite IH, reverse_cons. by rewrite <- app_assoc.
Qed.

Lemma concat_readlines s : concat (readlines s) = s.
Proof. apply (concat_readlines_from []). Qed.

Lemma lf_only_app s1 s2 : lf_only (s1 ++ s2) ↔ lf_only s1 ∧ lf_only s2.
Proof. apply Forall_app. Qed.

Lemma strip_line_feed s : strip (s ++ [LF]) = strip s.
Proof.
  unfold strip.
  destruct (lstrip_split s) as (ws & Hs & Hws).
  destruct (lstrip s) as [|c rest] eqn:E.
  - rewrite app_nil_r in Hs. subst s.
    rewrite lstrip_spaces by done. done.
  - assert (is_space c = false) as Hc.
    { destruct (lstrip_split (c :: rest)) as (ws' & _ & _).
      clear Hs. revert E. clear. induction s as [|d s IH]; simpl; [done|].
      destruct (is_space d) eqn:Hd; [done|]. by intros [= -> _]. }
    rewrite Hs at 1. rewrite <- app_assoc, lstrip_spaces by done.
    cbn [app]. rewrite lstrip_nonspace by done.
    rewrite (app_comm_cons rest [LF] c).
    by rewrite rstrip_spaces by by repeat constructor.
Qed.

Lemma parse_line_line_feed d s : parse_line d (s ++ [LF]) = parse_line d s.
Proof. unfold parse_line. by rewrite strip_line_feed. Qed.

(** On a text whose only line boundary is the line feed, the parser sees
    the lines of [readlines] as it sees those of [splitlines]. *)
Lemma parse_readlines_from cur s d :
  lf_only s →
  fold_left parse_line (readlines_from cur s) d
  = fold_left parse_line (splitlines_from cur s) d.
Proof.
  intros Hs. revert cur d. induction Hs as [|c s Hc _ IH]; intros cur d; [done|].
  simpl. destruct (N.eqb_spec c LF) as [->|Hlf].
  - simpl. rewrite reverse_cons, parse_line_line_feed. apply IH.
  - destruct (N.eqb_spec c CR) as [->|Hcr]; [by destruct Hlf; apply Hc|].
    destruct (is_linebreak c) eqn:E; [by destruct Hlf; apply Hc|]. apply IH.
Qed.

Lemma readlines_from_body cur body rest :
  LF ∉ body →
  readlines_from cur (body ++ LF :: rest)
  = (reverse cur ++ body ++ [LF]) :: readlines_from [] rest.
Proof.
  revert cur. induction body as [|c body IH]; intros cur Hb.
  - simpl. by rewrite reverse_cons.
  - apply not_elem_of_cons in Hb as [Hc Hb]. simpl.
    destruct (N.eqb_spec c LF) as [->|_]; [done|].
    rewrite IH by done. by rewrite reverse_cons, <- app_assoc.
Qed.

Lemma readlines_from_unterminated cur l :
  LF ∉ l → cur ++ l ≠ [] → readlines_from cur l = [reverse cur ++ l].
Proof.
  revert cur. induction l as [|c l IH]; intros cur Hl Hne.
  - simpl. rewrite app_nil_r in *. by destruct cur.
  - apply not_elem_of_cons in Hl as [Hc Hl]. simpl.
    destruct (N.eqb_spec c LF) as [->|_]; [done|].
    rewrite IH by done. by rewrite reverse_cons, <- app_assoc.
Qed.

Lemma readlines_file_lines s : file_lines (readlines s).
Proof.
  unfold readlines.
  enough (∀ cur, LF ∉ cur → ∃ init final,
            readlines_from cur s = init ++ final ∧ Forall terminated init
            ∧ (final = [] ∨ ∃ l, final = [l] ∧ unterminated l)) as H
    by (apply H, not_elem_of_nil).
  induction s as [|c s IH]; intros cur Hcur.
  - exists [], (match cur with [] => [] | _ => [reverse cur] end).
    split_and!; [done|constructor|]. destruct cur as [|x cur]; [by left|].
    right. eexists. split; [done|]. split.
    + rewrite reverse_cons. by destruct (reverse cur).
    + by rewrite elem_of_reverse.
  - simpl. destruct (N.eqb_spec c LF) as [->|Hc].
    + destruct (IH [] (not_elem_of_nil _)) as (init & final & -> & Hinit & Hfinal).
      exists (reverse (LF :: cur) :: init), final. split_and!; [done| |done].
      constructor; [|done]. exists (reverse cur).
      split; [by rewrite reverse_cons|]. by rewrite elem_of_reverse.
    + apply IH. rewrite not_elem_of_cons. split; [congruence|done].
Qed.

Lemma readlines_concat lines : file_lines lines → readlines (concat lines) = lines.
Proof.
  intros (init & final & -> & Hinit & Hfinal). unfold readlines.
  induction Hinit as [|l init (body & -> & Hbody) _ IH].
  - destruct Hfinal as [->|(l & -> & Hne & Hl)]; [done|].
    simpl. rewrite app_nil_r. by apply (readlines_from_unterminated []).
  - cbn [app concat]. rewrite <- app_assoc. cbn [app].
    rewrite readlines_from_body by done. by rewrite IH.
Qed.

Lemma file_lines_filter (P : text → Prop) `{∀ l, Decision (P l)} lines :
  file_lines lines → file_lines (filter P lines).
Proof.
  intros (init & final & -> & Hinit & Hfinal). rewrite filter_app.
  exists (filter P init), (filter P final). split_and!; [done| |].
  - rewrite Forall_forall in *. intros l [_ Hl]%list_elem_of_filter. by apply Hinit.
  - destruct Hfinal as [->|(l & -> & Hl)]; [by left|].
    rewrite filter_cons, filter_nil. destruct (decide (P l)); [|by left].
    right. by exists l.
Qed.

(** ** Cleaning, then parsing *)

Section kept_entries.
Context (unused_keys : gset text).

Let kept (d : list (text * (text * text))) : list (text * (text * text)) :=
  filter (fun item => item.1 ∉ unused_keys) d.

Lemma kept_dict_set k v d :
  kept (dict_set k v d) = if decide (k ∈ unused_keys) then kept d
                          else dict_set k v (kept d).
Proof.
  unfold kept. induction d as [|[k' v'] d IH]; simpl.
  - rewrite filter_cons, filter_nil. simpl. by destruct (decide (k ∈ unused_keys));
      [rewrite decide_False by tauto|rewrite decide_True by done].
  - case_bool_decide as Hk; subst; rewrite !filter_cons; simpl.
    + destruct (decide (k ∈ unused_keys)).
      * by rewrite !decide_False by tauto.
      * rewrite !decide_True by done. simpl. by rewrite bool_decide_eq_true_2.
    + rewrite IH. destruct (decide (k ∈ unused_keys));
        destruct (decide (k' ∉ unused_keys)); try done.
      simpl. by rewrite bool_decide_eq_false_2.
Qed.

Lemma parse_kept_lines lines d :
  fold_left parse_line (filter (fun line => ¬ removed_line unused_keys line) lines) (kept d)
  = kept (fold_left parse_line lines d).
Proof.
  revert d. induction lines as [|raw lines IH]; intros d; [done|].
  rewrite filter_cons. cbn [fold_left]. rewrite <- IH.
  rewrite (parse_line_match d raw).
  destruct (decide (¬ removed_line unused_keys raw)) as [Hkeep|Hrem].
  - cbn [fold_left]. f_equal. rewrite parse_line_match.
    destruct (match_entry (strip raw)) as [[k v]|] eqn:E; [|done].
    rewrite kept_dict_set. rewrite decide_False; [done|].
    intros Hin. apply Hkeep. exists k, v. split; [|done].
    by apply entry_line_strip, match_entry_iff.
  - f_equal. destruct (decide (removed_line unused_keys raw))
      as [(k & v & Hm & Hin)|]; [|tauto].
    apply (proj2 (entry_line_strip _ _ _)), match_entry_iff in Hm. rewrite Hm.
    rewrite kept_dict_set. by rewrite decide_True.
Qed.

End kept_entries.

Lemma lf_only_concat_filter (P : text → Prop) `{∀ l, Decision (P l)} s :
  lf_only s → lf_only (concat (filter P (readlines s))).
Proof.
  intros Hs. unfold lf_only in *. rewrite Forall_forall in *.
  intros c (l & [_ Hl]%list_elem_of_filter & Hc)%elem_of_concat.
  apply Hs. rewrite <- (concat_readlines s). apply elem_of_concat. eauto.
Qed.

(** What [remove_in_world] does: nothing without keys and in a preview; in a
    real run on a file that is there, by what can be written. *)
Lemma with_strings_same (w : World) :
  with_strings w (strings_file w) (strings_backup w) = w.
Proof. by destruct w. Qed.

Lemma remove_in_world_idle (self : Cleaner) (unused_keys : gset text) (w : World) :
  unused_keys = ∅ ∨ dry_run self = true →
  remove_in_world self unused_keys w = (true, w).
Proof.
  intros Hidle. unfold remove_in_world, remove_unused_localizations.
  assert (∀ file : option text,
            (fun lines : list text => concat lines) <$> (readlines <$> file) = file)
    as Hsame.
  { intros [c|]; [|done]. simpl. by rewrite concat_readlines. }
  case_bool_decide as He.
  - cbn [localizable_file backup_file]. by rewrite !Hsame, with_strings_same.
  - destruct Hidle as [? | Hdry]; [done|]. rewrite Hdry.
    cbn [localizable_file backup_file]. by rewrite !Hsame, with_strings_same.
Qed.

Lemma remove_in_world_real (self : Cleaner) (unused_keys : gset text)
  (w : World) (content : text) :
  strings_file w = Some content → unused_keys ≠ ∅ → dry_run self = false →
  remove_in_world self unused_keys w
  = if backup_writable w then
      if strings_writable w then
        (true,
         with_strings w
           (Some (concat (filter (fun line => ¬ removed_line unused_keys line)
                            (readlines content))))
           (Some content))
      else (false, with_strings w (Some content) (Some content))
    else (false, w).
Proof.
  intros Hfile Hne Hreal. unfold remove_in_world, remove_unused_localizations.
  rewrite bool_decide_eq_false_2 by done. rewrite Hreal, Hfile.
  cbn [fmap option_fmap option_map localizable_file can_write_backup can_write_file].
  destruct (backup_writable w) eqn:Hb; cbn [negb].
  - destruct (strings_writable w) eqn:Hs; cbn [negb].
    + destruct (filter_loop (verbose self) unused_keys (readlines content)
                  {| filtered_lines := []; removed_count := 0; printed := [] |})
        as (Hf & _ & _).
      fold (filter_lines (verbose self) unused_keys (readlines content)) in Hf.
      cbn [localizable_file backup_file fmap option_fmap option_map].
      rewrite Hf. simpl. by rewrite concat_readlines.
    + cbn [localizable_file backup_file fmap option_fmap option_map].
      by rewrite concat_readlines.
  - cbn [localizable_file backup_file fmap option_fmap option_map].
    rewrite concat_readlines, <- Hfile.
    assert ((fun lines : list text => concat lines) <$> (readlines <$> strings_backup w)
            = strings_backup w) as ->.
    { destruct (strings_backup w); [|done]. simpl. by rewrite concat_readlines. }
    by rewrite with_strings_same.
Qed.

Lemma parse_cleaned (unused_keys : gset text) (content : text) :
  lf_only content →
  parse_localizable_strings
    (Some (concat (filter (fun line => ¬ removed_line unused_keys line)
                     (readlines content))))
  = (fun table => filter (fun item => item.1 ∉ unused_keys) table)
    <$> parse_localizable_strings (Some content).
Proof.
  intros Hlf. unfold parse_localizable_strings.
  cbn [mbind option_bind fmap option_fmap option_map]. f_equal.
  unfold splitlines.
  rewrite <- !parse_readlines_from by (done || by apply lf_only_concat_filter).
  fold (readlines (concat (filter (fun line => ¬ removed_line unused_keys line)
                             (readlines content)))).
  rewrite readlines_concat by apply file_lines_filter, readlines_file_lines.
  fold (readlines content).
  by rewrite <- parse_kept_lines.
Qed.

(** X5: in a real run on a file whose only line boundary is the line feed,
    the remover succeeds exactly when there is no key to remove or both the
    backup and the file can be written.  Then the file it leaves parses to
    the table of the file before without the entries of the removed keys
    (the entries kept with their values and in their order); otherwise it
    returns [False] and the file is as before.  With a key to remove and a
    backup that can be written, the backup holds the content of the file
    before. *)
Theorem cleaned_file_parses_to_kept_entries (self : Cleaner) (unused_keys : gset text)
  (w : World) (content : text) :
  strings_file w = Some content → lf_only content → dry_run self = false →
  let result := remove_in_world self unused_keys w in
  let succeeds :=
    bool_decide (unused_keys = ∅) || (backup_writable w && strings_writable w) in
  ∃ table,
    parse_localizable_strings (Some content) = Some table
    ∧ result.1 = succeeds
    ∧ parse_localizable_strings (strings_file result.2)
      = Some (if succeeds then filter (fun item => item.1 ∉ unused_keys) table
              else table)
    ∧ (succeeds = false → strings_file result.2 = Some content)
    ∧ (unused_keys ≠ ∅ → backup_writable w = true →
       strings_backup result.2 = Some content).
Proof.
  intros Hfile Hlf Hreal result succeeds. unfold result, succeeds.
  eexists. split; [reflexivity|].
  destruct (bool_decide_reflect (unused_keys = ∅)) as [->|Hne]; cbn [orb].
  - rewrite remove_in_world_idle by by left. cbn [fst snd]. rewrite Hfile.
    split_and!; [done| |done..]. cbn [parse_localizable_strings mbind option_bind].
    f_equal. symmetry.
    induction (fold_left parse_line (splitlines content) []) as [|item table IH];
      [done|].
    rewrite filter_cons, decide_True by set_solver. by rewrite IH.
  - rewrite (remove_in_world_real self unused_keys w content) by done.
    destruct (backup_writable w), (strings_writable w);
      cbn [andb fst snd strings_file strings_backup with_strings];
      rewrite ?Hfile; split_and!; try done.
    by rewrite parse_cleaned.
Qed.

(** A file of two entries, of which the second is removed. *)
Lemma cleaned_file_parses_to_kept_entries_witness :
  let content := quoted "'common.ok' = 'OK';" ++ [LF]
                 ++ quoted "'orphan.key' = 'x';" ++ [LF] in
  let self := {| dry_run := false; verbose := false |} in
  let w := {| strings_file := Some content; strings_backup := None;
              report_file := None; strings_writable := true;
              backup_writable := true; report_writable := true |} in
  let result := remove_in_world self {[ txt "orphan.key" ]} w in
  (strings_file w = Some content ∧ lf_only content ∧ dry_run self = false)
  ∧ result.1 = true
  ∧ parse_localizable_strings (strings_file result.2)
    = Some [(txt "common.ok", (txt "Common.ok", txt "OK"))].
Proof.
  intros content self w result.
  assert (strings_file w = Some content) as Hfile by reflexivity.
  assert (lf_only content) as Hlf
    by (unfold lf_only; apply (bool_decide_unpack _); by vm_compute).
  assert (dry_run self = false) as Hreal by reflexivity.
  split; [done|].
  destruct (cleaned_file_parses_to_kept_entries self {[ txt "orphan.key" ]} w content
              Hfile Hlf Hreal) as (table & Hparse & Hflag & Hnew & _).
  split; [exact Hflag|]. unfold result. rewrite Hnew.
  assert (table = [(txt "common.ok", (txt "Common.ok", txt "OK"));
                   (txt "orphan.key", (txt "Orphan.key", txt "x"))]) as ->
    by (vm_compute in Hparse; by injection Hparse).
  by vm_compute.
Defined.

(** With a form feed between two entries the parser reads two lines and the
    remover one, which the pattern does not match: the unused key stays. *)
Example form_feed_line_is_not_removed :
  let content := quoted "'a' = '1';" ++ [12%N] ++ quoted "'b' = '2';" ++ [LF] in
  let result :=
    remove_in_world {| dry_run := false; verbose := false |} {[ txt "a" ]}
      {| strings_file := Some content; strings_backup := None; report_file := None;
         strings_writable := true; backup_writable := true;
         report_writable := true |} in
  parse_localizable_strings (Some content)
  = Some [(txt "a", (txt "a", txt "1")); (txt "b", (txt "b", txt "2"))]
  ∧ result.1 = true
  ∧ strings_file result.2 = Some content.
Proof. by vm_compute. Qed.

(** With a file that cannot be written the backup is made and the file stays
    as it is. *)
Example read_only_file_is_kept :
  let content := quoted "'a' = '1';" ++ [LF] in
  let result :=
    remove_in_world {| dry_run := false; verbose := false |} {[ txt "a" ]}
      {| strings_file := Some content; strings_backup := None; report_file := None;
         strings_writable := false; backup_writable := true;
         report_writable := true |} in
  result.1 = false
  ∧ strings_file result.2 = Some content
  ∧ strings_backup result.2 = Some content.
Proof. by vm_compute. Qed.

(** ** Runs *)

(** [confirm.lower() == 'y']. *)
Lemma lower_y_iff confirm :
  lower <$> confirm = txt "y" ↔ confirm = txt "y" ∨ confirm = txt "Y".
Proof.
  split.
  - destruct confirm as [|c [|d rest]]; [done| |done]. intros [= Hc].
    unfold lower, in_range in Hc.
    destruct (N.leb_spec 65 c), (N.leb_spec c 90); simpl in Hc.
    + right. change (txt "Y") with [89%N]. f_equal. lia.
    + left. by subst.
    + left. by subst.
    + left. by subst.
  - by intros [-> | ->].
Qed.

Lemma confirmed_iff (input : Input) :
  confirmed input ↔ ∃ confirm, input = Typed confirm ∧ lower <$> confirm = txt "y".
Proof.
  unfold confirmed. split.
  - intros [-> | ->]; eexists; (split; [reflexivity|done]).
  - intros (confirm & -> & [-> | ->]%lower_y_iff); [by left|by right].
Qed.

Lemma writes_allowed_iff (w : World) :
  writes_allowed w ↔ backup_writable w && strings_writable w = true.
Proof. unfold writes_allowed. by rewrite andb_true_iff. Qed.

Lemma table_empty_iff (lines : list text) :
  fold_left parse_line lines [] = [] ↔
  ∀ raw key value, raw ∈ lines → ¬ line_holds raw key value.
Proof.
  split.
  - intros Hempty raw key value Hin Hraw.
    destruct (last_holds_or_none lines key) as [Hno|[v Hlast]].
    + by apply (Hno raw value).
    + pose proof (parse_lines_last lines [] key v Hlast) as Hget.
      by rewrite Hempty in Hget.
  - intros Hno. destruct (fold_left parse_line lines []) as [|[k e] table] eqn:E; [done|].
    pose proof (parse_lines_other lines [] k (fun raw value => Hno raw k value)) as Hget.
    rewrite E in Hget. simpl in Hget. by rewrite bool_decide_eq_true_2 in Hget.
Qed.

Lemma table_nonempty_iff (lines : list text) :
  fold_left parse_line lines [] ≠ [] ↔
  ∃ raw key value, raw ∈ lines ∧ line_holds raw key value.
Proof.
  split.
  - intros Hne. destruct (fold_left parse_line lines []) as [|[k e] table] eqn:E; [done|].
    destruct (last_holds_or_none lines k) as [Hno|[v (before & raw & after & -> & Hraw & _)]].
    + pose proof (parse_lines_other lines [] k Hno) as Hget.
      rewrite E in Hget. simpl in Hget. by rewrite bool_decide_eq_true_2 in Hget.
    + exists raw, k, v. split; [|done]. apply elem_of_app. right. by left.
  - intros (raw & key & value & Hin & Hraw) Hempty.
    by apply (proj1 (table_empty_iff lines) Hempty raw key value).
Qed.

(** The file holds an entry exactly when the parser returns a table that is
    not empty. *)
Lemma has_entries_iff (w : World) :
  has_entries w ↔
  ∃ table, parse_localizable_strings (strings_file w) = Some table ∧ table ≠ [].
Proof.
  unfold has_entries. destruct (strings_file w) as [content|]; simpl.
  - split.
    + intros (c & [= <-] & H). eexists. split; [done|]. by apply table_nonempty_iff.
    + intros (table & [= <-] & Hne). exists content. split; [done|].
      by apply table_nonempty_iff.
  - split; [by intros (? & [=] & _)|by intros (? & [=] & _)].
Qed.

Lemma parsed_NoDup (file : option text) (table : list (text * (text * text))) :
  parse_localizable_strings file = Some table → NoDup table.*1.
Proof.
  destruct file as [content|]; [|done]. intros [= <-].
  apply parse_lines_NoDup. constructor.
Qed.

(** Some entry is unused exactly when the table of unused entries is not
    empty. *)
Lemma some_unused_iff (fs : list text → option text) (source_tree : list (list text))
  (w : World) (table : list (text * (text * text))) :
  parse_localizable_strings (strings_file w) = Some table →
  some_unused fs source_tree w ↔ (find_unused_localizations fs source_tree table).1 ≠ [].
Proof.
  intros Hparse. pose proof (parsed_NoDup _ _ Hparse) as Hnd.
  pose proof (find_unused_unreferenced fs source_tree table Hnd) as Hiff.
  unfold some_unused. split.
  - intros (table' & item & Hparse' & Hin & Hun) Hnil.
    rewrite Hparse in Hparse'. injection Hparse' as <-.
    assert (item ∈ (find_unused_localizations fs source_tree table).1) as Hitem
      by (by apply Hiff).
    rewrite Hnil in Hitem. by apply elem_of_nil in Hitem.
  - intros Hne.
    destruct (find_unused_localizations fs source_tree table).1 as [|item rest] eqn:E;
      [done|].
    destruct (proj1 (Hiff item)) as [Hin Hun]; [by left|].
    by exists table, item.
Qed.

(** The outcomes of [run]. *)
Lemma run_outcome (self : Cleaner) (fs : list text → option text)
  (source_tree : list (list text)) (input : Input) (w : World) :
  let result := run self fs source_tree input w in
  ((parse_localizable_strings (strings_file w) = None
    ∨ parse_localizable_strings (strings_file w) = Some [])
   ∧ result = (inr false, w))
  ∨ ∃ table,
      parse_localizable_strings (strings_file w) = Some table ∧ table ≠ []
      ∧ ((report_writable w = false ∧ result = (inl OSError, w))
         ∨ ∃ report,
             report_writable w = true
             ∧ generate_report table (find_unused_localizations fs source_tree table).1
                 (find_unused_localizations fs source_tree table).2 = Some report
             ∧ (((find_unused_localizations fs source_tree table).1 = []
                 ∨ dry_run self = true
                 ∨ ∃ confirm, input = Typed confirm ∧ lower <$> confirm ≠ txt "y")
                ∧ result = (inr true, with_report w (Some report))
                ∨ (find_unused_localizations fs source_tree table).1 ≠ []
                  ∧ dry_run self = false
                  ∧ (input = EndOfInput
                     ∧ result = (inl EOFError, with_report w (Some report))
                     ∨ input = Interrupted
                       ∧ result = (inl KeyboardInterrupt, with_report w (Some report))
                     ∨ (∃ confirm, input = Typed confirm ∧ lower <$> confirm = txt "y")
                       ∧ ∃ content,
                           strings_file w = Some content
                           ∧ result
                             = if backup_writable w then
                                 if strings_writable w then
                                   (inr true,
                                    with_strings (with_report w (Some report))
                                      (Some (concat
                                               (filter
                                                  (fun line =>
                                                     ¬ removed_line
                                                         (list_to_set
                                                            (find_unused_localizations
                                                               fs source_tree table).1.*1)
                                                         line)
                                                  (readlines content))))
                                      (Some content))
                                 else (inr false,
                                       with_strings (with_report w (Some report))
                                         (Some content) (Some content))
                               else (inr false, with_report w (Some report))))).
Proof.
  intros result. unfold result, run.
  destruct (parse_localizable_strings (strings_file w)) as [table|] eqn:Eparse;
    [|by left; split; [left|]].
  case_bool_decide as Hempty; [subst; by left; split; [right|]|].
  right. exists table. split_and!; [done..|].
  assert (∃ report,
            generate_report table (find_unused_localizations fs source_tree table).1
              (find_unused_localizations fs source_tree table).2 = Some report)
    as [report Hrep].
  { unfold generate_report. rewrite bool_decide_eq_false_2 by by destruct table.
    by eexists. }
  revert Hrep.
  destruct (find_unused_localizations fs source_tree table) as [unused used] eqn:Efind.
  cbn [fst snd]. intros Hrep.
  destruct (report_writable w) eqn:Hrw; cbn [negb]; [|by left].
  right. exists report. split_and!; [done..|]. rewrite Hrep.
  case_bool_decide as Hunused; [left; split; [by left|done]|].
  destruct (dry_run self) eqn:Hdry; [left; split; [by right; left|done]|].
  destruct input as [confirm| |].
  - case_bool_decide as Hconfirm.
    + right. split_and!; [done..|]. right. right. split; [by exists confirm|].
      destruct (strings_file w) as [content|] eqn:Efile; [|done].
      exists content. split; [done|].
      rewrite (remove_in_world_real self _ (with_report w (Some report)) content);
        [|done| |done].
      * cbn [with_report backup_writable strings_writable].
        by destruct (backup_writable w), (strings_writable w).
      * destruct unused as [|[k v] unused]; [done|]. cbn. set_solver.
    + left. split; [|done]. right. right. by exists confirm.
  - right. split_and!; [done..|]. by left.
  - right. split_and!; [done..|]. right. by left.
Qed.

(** The value of [run], by what it meets. *)
Lemma run_value (self : Cleaner) (fs : list text → option text)
  (source_tree : list (list text)) (input : Input) (w : World) :
  let result := run self fs source_tree input w in
  (¬ has_entries w ∧ result = (inr false, w))
  ∨ (has_entries w ∧ report_writable w = false ∧ result.1 = inl OSError)
  ∨ (has_entries w ∧ report_writable w = true
     ∧ ((¬ some_unused fs source_tree w ∨ dry_run self = true)
        ∧ result.1 = inr true
        ∨ some_unused fs source_tree w ∧ dry_run self = false
          ∧ (input = EndOfInput ∧ result.1 = inl EOFError
             ∨ input = Interrupted ∧ result.1 = inl KeyboardInterrupt
             ∨ ∃ confirm, input = Typed confirm
                 ∧ (¬ confirmed input ∧ result.1 = inr true
                    ∨ confirmed input ∧ writes_allowed w ∧ result.1 = inr true
                    ∨ confirmed input ∧ ¬ writes_allowed w ∧ result.1 = inr false)))).
Proof.
  intros result.
  destruct (run_outcome self fs source_tree input w)
    as [[Hparse Hres]|(table & Hparse & Hne & Hcases)]; fold result in Hres || idtac.
  { left. split; [|done]. intros (table & Ht & Hne)%has_entries_iff.
    destruct Hparse; congruence. }
  right.
  assert (has_entries w) as Hentries by (apply has_entries_iff; by exists table).
  pose proof (some_unused_iff fs source_tree w table Hparse) as Hunused.
  fold result in Hcases.
  destruct Hcases as [[Hrw Hres]|(report & Hrw & _ & Hcases)].
  { left. by rewrite Hres. }
  right. split_and!; [done..|].
  destruct Hcases as [[Hwhy Hres]|(Hsome & Hreal & Hcases)].
  - destruct Hwhy as [Hnone|[Hdry|(confirm & Hin & Hno)]].
    + left. split; [|by rewrite Hres]. left. rewrite Hunused, Hnone. by intros H.
    + left. split; [by right|by rewrite Hres].
    + destruct (dry_run self) eqn:Hdry; [left; split; [by right|by rewrite Hres]|].
      destruct (decide ((find_unused_localizations fs source_tree table).1 = []))
        as [Hnone|Hsome].
      * left. split; [|by rewrite Hres]. left. rewrite Hunused, Hnone. by intros H.
      * right. split_and!; [by apply Hunused|done|]. right. right.
        exists confirm. split; [done|]. left. split; [|by rewrite Hres].
        intros (c & Hc & Hy)%confirmed_iff. congruence.
  - right. split_and!; [by apply Hunused|done|].
    destruct Hcases as [[Hin Hres]|[[Hin Hres]|[Hyes (content & Hfile & Hres)]]].
    + left. by rewrite Hres.
    + right. left. by rewrite Hres.
    + right. right. destruct Hyes as (confirm & Hin & Hy). exists confirm.
      split; [done|]. right.
      assert (confirmed input) as Hconf by (apply confirmed_iff; by exists confirm).
      pose proof (writes_allowed_iff w) as Hw.
      destruct (backup_writable w), (strings_writable w); rewrite Hres; cbn [fst];
        cbn [andb] in Hw;
        first [left; split_and!; [done|by apply Hw|done]
              |right; split_and!; [done| |done]; intros H%Hw; discriminate].
Qed.

(** X6: [run] returns [True] exactly when the localization file holds an
    entry, the report can be written, and either no entry is unused, or the
    run is a preview, or the prompt is answered and, when the answer is [y]
    or [Y], the backup and the file can be written.  It returns [False]
    exactly when the file cannot be read or holds no entry, or the removal
    is confirmed and one of the two writes is refused.  An exception leaves
    it exactly when there are entries and the report cannot be written
    ([OSError]), or when it gets to the prompt and [input] raises; the
    division of the report is never one by zero.  Without entries it changes
    no file and writes no report. *)
Theorem run_result (self : Cleaner) (fs : list text → option text)
  (source_tree : list (list text)) (input : Input) (w : World) :
  let result := run self fs source_tree input w in
  (result.1 = inr true ↔ run_succeeds self fs source_tree input w)
  ∧ (result.1 = inr false ↔
     ¬ has_entries w
     ∨ (prompts self fs source_tree w ∧ confirmed input ∧ ¬ writes_allowed w))
  ∧ (∀ e, result.1 = inl e ↔
       has_entries w
       ∧ (report_writable w = false ∧ e = OSError
          ∨ prompts self fs source_tree w
            ∧ (input = EndOfInput ∧ e = EOFError
               ∨ input = Interrupted ∧ e = KeyboardInterrupt)))
  ∧ (¬ has_entries w → result.2 = w).
Proof.
  intros result. unfold run_succeeds, prompts.
  pose proof (confirmed_iff input) as Hconfirmed.
  destruct (run_value self fs source_tree input w)
    as [[Hno Hres]
       |[(Hentries & Hrw & Hres)
        |(Hentries & Hrw &
          [[Hwhy Hres]
          |(Hsome & Hreal &
            [[Hin Hres]
            |[[Hin Hres]
             |(confirm & Hin &
               [[Hconf Hres]|[(Hconf & Hw & Hres)|(Hconf & Hw & Hres)]])]])])]];
    fold result in Hres; rewrite ?Hres; cbn [fst snd]; repeat split;
    try naive_solver;
    try (intros; destruct_and?; destruct_or?; destruct_and?; destruct_or?;
         destruct_and?; simplify_eq; congruence);
    (intros (_ & _ & [Hnone | [Hdry | [[c Hc] Himp]]]);
     [by destruct Hnone | congruence
     | first [congruence | by destruct Hw; apply Himp]]).
Qed.

(** X7: [run] changes the localization file and its backup only in a real
    run, after the answer [y] or [Y], and when the backup can be written; the
    backup then holds the content the file had before the run.  The file
    itself is rewritten, and [run] returns [True], when it can be written as
    well; when it cannot, the file stays as it was and [run] returns
    [False]. *)
Theorem run_guards_the_file (self : Cleaner) (fs : list text → option text)
  (source_tree : list (list text)) (input : Input) (w : World) :
  let result := run self fs source_tree input w in
  (strings_file result.2 = strings_file w
   ∧ strings_backup result.2 = strings_backup w)
  ∨ (dry_run self = false
     ∧ confirmed input
     ∧ backup_writable w = true
     ∧ strings_backup result.2 = strings_file w
     ∧ (strings_writable w = true ∧ result.1 = inr true
        ∨ strings_writable w = false
          ∧ strings_file result.2 = strings_file w ∧ result.1 = inr false)).
Proof.
  intros result.
  destruct (run_outcome self fs source_tree input w)
    as [[_ Hres]
       |(table & _ & _ &
         [[_ Hres]
         |(report & _ & _ &
           [[_ Hres]
           |(_ & Hreal &
             [[_ Hres]|[[_ Hres]|[Hyes (content & Hfile & Hres)]]])])])];
    fold result in Hres; rewrite Hres; try (by left).
  apply confirmed_iff in Hyes.
  destruct (backup_writable w) eqn:Hb; [|by left].
  right. rewrite Hfile.
  destruct (strings_writable w) eqn:Hs; cbn [fst snd with_strings strings_backup
    strings_file]; split_and!; try done; [by left|by right].
Qed.

Lemma filter_ext_in {A} (P Q : A → Prop) `{∀ x, Decision (P x), ∀ x, Decision (Q x)}
  (l : list A) :
  (∀ x, x ∈ l → P x ↔ Q x) → filter P l = filter Q l.
Proof.
  induction l as [|x l IH]; intros Hext; [done|].
  rewrite !filter_cons, IH by (intros y Hy; apply Hext; by right).
  destruct (decide (P x)) as [HP|HP], (decide (Q x)) as [HQ|HQ]; try done.
  - destruct HQ. by apply (Hext x); [left|].
  - destruct HP. by apply (Hext x); [left|].
Qed.

(** Dropping the keys found unused leaves the entries found used. *)
Lemma kept_are_used (fs : list text → option text) (source_tree : list (list text))
  (table : list (text * (text * text))) :
  NoDup table.*1 →
  filter (fun item => item.1 ∉ (list_to_set
                               (find_unused_localizations fs source_tree table).1.*1
                             : gset text)) table
  = filter (fun item => entry_used fs (find_swift_files source_tree) item = true) table.
Proof.
  intros Hnd. rewrite find_unused_result by done. cbn [fst].
  apply filter_ext_in. intros item Hitem. rewrite elem_of_list_to_set.
  set (swift_files := find_swift_files source_tree). split.
  - intros Hout. destruct (entry_used fs swift_files item) eqn:E; [done|].
    destruct Hout. apply list_elem_of_fmap. exists item. split; [done|].
    by apply list_elem_of_filter.
  - intros Hused (item' & Hk & [Hu Hin]%list_elem_of_filter)%list_elem_of_fmap.
    assert (item = item') as <-; [|congruence].
    destruct item as [k v], item' as [k' v']. simpl in Hk. subst k'.
    apply (dict_get_elem_of _ _ _ Hnd) in Hitem, Hin. congruence.
Qed.

Lemma all_used_none_unused (fs : list text → option text)
  (source_tree : list (list text)) (table : list (text * (text * text))) :
  NoDup table.*1 →
  (∀ item, item ∈ table → entry_used fs (find_swift_files source_tree) item = true) →
  (find_unused_localizations fs source_tree table).1 = [].
Proof.
  intros Hnd Hused. rewrite find_unused_result by done. cbn [fst].
  clear Hnd. induction table as [|item table IH]; [done|].
  rewrite filter_cons, decide_False.
  - apply IH. intros i Hi. apply Hused. by right.
  - rewrite (Hused item); [done|by left].
Qed.

(** A table of used entries is left alone. *)
Lemma run_idle (self : Cleaner) (fs : list text → option text)
  (source_tree : list (list text)) (input : Input) (w : World)
  (table : list (text * (text * text))) :
  parse_localizable_strings (strings_file w) = Some table →
  NoDup table.*1 →
  (∀ item, item ∈ table → entry_used fs (find_swift_files source_tree) item = true) →
  strings_file (run self fs source_tree input w).2 = strings_file w
  ∧ strings_backup (run self fs source_tree input w).2 = strings_backup w.
Proof.
  intros Hparse Hnd Hused.
  pose proof (all_used_none_unused fs source_tree table Hnd Hused) as Hnone.
  destruct (run_outcome self fs source_tree input w)
    as [[_ Hres]
       |(table' & Hparse' & _ &
         [[_ Hres]
         |(report & _ & _ & [[_ Hres]|(Hsome & _)])])];
    try (by rewrite Hres).
  rewrite Hparse in Hparse'. injection Hparse' as <-. by destruct Hsome.
Qed.

(** X8: after a real run confirmed with [y] or [Y], in which the report, the
    backup and the file can be written, on a file whose only line boundary is
    the line feed, the file parses to the entries of the table that were
    found used, and every further run over the same source files, in whatever
    mode and with whatever input, leaves the file and its backup as they
    are. *)
Theorem second_run_changes_nothing (self : Cleaner) (fs : list text → option text)
  (source_tree : list (list text)) (input : Input) (w : World) (content : text) :
  strings_file w = Some content → lf_only content →
  dry_run self = false → confirmed input →
  report_writable w = true → writes_allowed w →
  let w1 := (run self fs source_tree input w).2 in
  ∃ table,
    parse_localizable_strings (Some content) = Some table
    ∧ parse_localizable_strings (strings_file w1)
      = Some (filter (fun item =>
                        entry_used fs (find_swift_files source_tree) item = true)
                table)
    ∧ ∀ (self2 : Cleaner) (input2 : Input),
        strings_file (run self2 fs source_tree input2 w1).2 = strings_file w1
        ∧ strings_backup (run self2 fs source_tree input2 w1).2 = strings_backup w1.
Proof.
  intros Hfile Hlf Hreal (confirm & Hin & Hy)%confirmed_iff Hrw [Hb Hs] w1.
  set (swift_files := find_swift_files source_tree).
  set (table := fold_left parse_line (splitlines content) []).
  assert (parse_localizable_strings (Some content) = Some table) as Hparse by done.
  assert (NoDup table.*1) as Hnd by (apply parse_lines_NoDup; constructor).
  exists table. split; [done|].
  assert (parse_localizable_strings (strings_file w1)
          = Some (filter (fun item => entry_used fs swift_files item = true) table))
    as Hparse1.
  { unfold w1.
    destruct (run_outcome self fs source_tree input w)
      as [[Hp Hres]
         |(table' & Hp & _ &
           [[Hrw' Hres]
           |(report & _ & _ &
             [[Hwhy Hres]
             |(_ & _ &
               [[Hin' Hres]|[[Hin' Hres]|[_ (c & Hfile' & Hres)]]])])])];
      try congruence; rewrite Hres; cbn [snd strings_file with_report];
      rewrite ?Hfile in *.
    - destruct Hp as [Hp|Hp]; [congruence|]. rewrite Hp.
      rewrite Hparse in Hp. injection Hp as ->. done.
    - rewrite Hparse in Hp. injection Hp as <-. rewrite Hparse. f_equal.
      destruct Hwhy as [Hunused|[?|(c & Hc & Hno)]]; [|congruence..].
      rewrite find_unused_result in Hunused by done. cbn [fst] in Hunused.
      fold swift_files in Hunused. clear -Hunused.
      induction table as [|item table IH]; [done|].
      rewrite filter_cons in *.
      destruct (entry_used fs swift_files item) eqn:E.
      + rewrite decide_False in Hunused by done. rewrite decide_True by done.
        f_equal. by apply IH.
      + by rewrite decide_True in Hunused.
    - rewrite Hparse in Hp. injection Hp as <-. injection Hfile' as <-.
      rewrite Hb, Hs. cbn [snd with_strings strings_file].
      rewrite parse_cleaned by done. rewrite Hparse. cbn. f_equal.
      by apply kept_are_used. }
  split; [done|]. intros self2 input2.
  apply (run_idle self2 fs source_tree input2 w1 _ Hparse1).
  - eapply sublist_NoDup; [exact Hnd|]. apply fmap_sublist. apply sublist_filter.
  - intros item [Hu _]%list_elem_of_filter. exact Hu.
Qed.

(** A confirmed run that removes the second of two entries. *)
Lemma second_run_changes_nothing_witness :
  let file := [txt "App"; txt "View.swift"] in
  let fs : list text → option text :=
    fun p => if bool_decide (p = file) then Some (txt "Text(L10n.Common.ok)") else None in
  let content := quoted "'common.ok' = 'OK';" ++ [LF]
                 ++ quoted "'orphan.key' = 'x';" ++ [LF] in
  let self := {| dry_run := false; verbose := false |} in
  let w := {| strings_file := Some content; strings_backup := None;
              report_file := None; strings_writable := true;
              backup_writable := true; report_writable := true |} in
  let input := Typed (txt "y") in
  let w1 := (run self fs [file] input w).2 in
  (strings_file w = Some content ∧ lf_only content ∧ dry_run self = false
   ∧ confirmed input ∧ report_writable w = true ∧ writes_allowed w)
  ∧ strings_file w1 = Some (quoted "'common.ok' = 'OK';" ++ [LF])
  ∧ strings_backup w1 = Some content
  ∧ strings_file (run self fs [file] EndOfInput w1).2 = strings_file w1.
Proof.
  intros file fs content self w input w1.
  assert (strings_file w = Some content) as Hfile by reflexivity.
  assert (lf_only content) as Hlf
    by (unfold lf_only; apply (bool_decide_unpack _); by vm_compute).
  assert (dry_run self = false) as Hreal by reflexivity.
  assert (confirmed input) as Hconfirm by (by left).
  assert (report_writable w = true) as Hrw by reflexivity.
  assert (writes_allowed w) as Hw by done.
  split; [done|]. split; [by vm_compute|]. split; [by vm_compute|].
  destruct (second_run_changes_nothing self fs [file] input w content
              Hfile Hlf Hreal Hconfirm Hrw Hw) as (table & _ & _ & Hidle).
  exact (proj1 (Hidle self EndOfInput)).
Defined.

(** When the file cannot be written, the run makes the backup, leaves the
    file and returns [False]; at the end of the input it raises. *)
Example run_refused_or_interrupted :
  let file := [txt "App"; txt "View.swift"] in
  let fs : list text → option text :=
    fun p => if bool_decide (p = file) then Some (txt "Text(L10n.Common.ok)") else None in
  let content := quoted "'common.ok' = 'OK';" ++ [LF]
                 ++ quoted "'orphan.key' = 'x';" ++ [LF] in
  let self := {| dry_run := false; verbose := false |} in
  let w := {| strings_file := Some content; strings_backup := None;
              report_file := None; strings_writable := false;
              backup_writable := true; report_writable := true |} in
  let refused := run self fs [file] (Typed (txt "Y")) w in
  refused.1 = inr false
  ∧ strings_file refused.2 = Some content
  ∧ strings_backup refused.2 = Some content
  ∧ (run self fs [file] EndOfInput w).1 = inl EOFError.
Proof. by vm_compute. Qed.

(** ** The source directory *)

(** A walk that reaches no file of the extension reaches none from a start
    whose walk it covers. *)
Lemma rglob_covered (reached covering : list (list text)) (ext : text) :
  (∀ p, p ∈ reached → p ∈ covering) →
  rglob covering ext = [] → rglob reached ext = [].
Proof.
  intros Hcover Hnil.
  destruct (rglob reached ext) as [|p rest] eqn:E; [done|].
  assert (p ∈ rglob reached ext) as Hp by (rewrite E; by left).
  unfold rglob in Hp. apply list_elem_of_In, filter_In in Hp as [Hp Hext].
  assert (p ∈ rglob covering ext) as Hin.
  { unfold rglob. apply list_elem_of_In, filter_In. split; [|done].
    by apply list_elem_of_In, Hcover, list_elem_of_In. }
  rewrite Hnil in Hin. by apply elem_of_nil in Hin.
Qed.

(** X9: called on a cleaner whose [search_extensions] is set, on a file
    system where a directory in the project root exists only if the root
    does, and where the walk from the root reaches whatever the walk from a
    directory in it reaches (no symbolic link to a directory, no directory
    that cannot be read, in the way), [_find_source_dir] returns the project
    root: the candidates [Sources] and [App] are never chosen, since a Swift
    file found from them is found from the root, which is tried first. *)
Theorem find_source_dir_is_project_root (paths : list (list text))
  (walk : list text → list (list text)) (project_root : list text) :
  (∀ sub, project_root ++ [sub] ∈ paths → project_root ∈ paths) →
  (∀ sub p, p ∈ walk (project_root ++ [sub]) → p ∈ walk project_root) →
  _find_source_dir (Some search_extensions) paths walk project_root
  = inr project_root.
Proof.
  intros Hroot Hwalk. unfold _find_source_dir, search_extensions.
  cbn [source_dir_loop].
  destruct (bool_decide_reflect (project_root ∈ paths)) as [Hin|Hout].
  - destruct (bool_decide_reflect (rglob (walk project_root) (txt ".swift") = []))
      as [Hnil|Hne]; [|done].
    rewrite !(bool_decide_eq_true_2 (rglob (walk (project_root ++ [_])) _ = []))
      by (eapply rglob_covered; [apply Hwalk|exact Hnil]).
    by repeat case_bool_decide.
  - rewrite !(bool_decide_eq_false_2 (project_root ++ [_] ∈ paths))
      by (intros Hsub; by apply Hout, (Hroot _ Hsub)).
    done.
Qed.

(** A project whose only Swift file lies in [Sources]. *)
Lemma find_source_dir_is_project_root_witness :
  let project_root := [txt "proj"] in
  let sources := project_root ++ [txt "Sources"] in
  let main_swift := sources ++ [txt "Main.swift"] in
  let paths := [project_root; sources; main_swift] in
  let walk : list text → list (list text) :=
    fun start =>
      if bool_decide (start = project_root) then [sources; main_swift]
      else if bool_decide (start = sources) then [main_swift] else [] in
  ((∀ sub, project_root ++ [sub] ∈ paths → project_root ∈ paths)
   ∧ (∀ sub p, p ∈ walk (project_root ++ [sub]) → p ∈ walk project_root))
  ∧ _find_source_dir (Some search_extensions) paths walk project_root
    = inr project_root.
Proof.
  intros project_root sources main_swift paths walk.
  assert (∀ sub, project_root ++ [sub] ∈ paths → project_root ∈ paths) as Hroot
    by (intros sub _; by left).
  assert (∀ sub p, p ∈ walk (project_root ++ [sub]) → p ∈ walk project_root)
    as Hwalk.
  { intros sub p. unfold walk.
    rewrite (bool_decide_eq_true_2 (project_root = project_root)) by done.
    rewrite (bool_decide_eq_false_2 (project_root ++ [sub] = project_root))
      by (intros H; by apply (f_equal length) in H).
    case_bool_decide; [|by intros ?%elem_of_nil].
    intros ->%list_elem_of_singleton. right. by left. }
  split; [done|].
  exact (find_source_dir_is_project_root paths walk project_root Hroot Hwalk).
Defined.

(** The second condition is needed: when [Sources] is a symbolic link to a
    directory, the walk from the root does not enter it, the walk from
    [Sources] does, and [Sources] is chosen. *)
Example linked_sources_is_chosen :
  let project_root := [txt "proj"] in
  let sources := project_root ++ [txt "Sources"] in
  let main_swift := sources ++ [txt "Main.swift"] in
  let walk : list text → list (list text) :=
    fun start =>
      if bool_decide (start = project_root) then [sources]
      else if bool_decide (start = sources) then [main_swift] else [] in
  _find_source_dir (Some search_extensions) [project_root; sources; main_swift]
    walk project_root
  = inr sources.
Proof. by vm_compute. Qed.

(** ** Each source file once *)

Lemma endswith_extension_unique (s e1 e2 : text) :
  e1 ∈ search_extensions → e2 ∈ search_extensions →
  endswith s e1 = true → endswith s e2 = true → e1 = e2.
Proof.
  unfold search_extensions, endswith. rewrite !elem_of_cons, !elem_of_nil.
  intros H1 H2 [r1 E1]%startswith_iff [r2 E2]%startswith_iff.
  rewrite E1 in E2. clear E1.
  destruct H1 as [->|[->|[->|[->|[]]]]], H2 as [->|[->|[->|[->|[]]]]];
    try done; vm_compute in E2; congruence.
Qed.

Lemma NoDup_concat_filters {K A} (f : K → A → bool) (keys : list K) (l : list A) :
  NoDup l → NoDup keys →
  (∀ x k1 k2, k1 ∈ keys → k2 ∈ keys → f k1 x = true → f k2 x = true → k1 = k2) →
  NoDup (concat ((fun k => List.filter (f k) l) <$> keys)).
Proof.
  intros Hl Hkeys Huniq. induction keys as [|k keys IH]; [constructor|].
  cbn [fmap list_fmap concat]. apply NoDup_cons in Hkeys as [Hk Hkeys].
  apply NoDup_app. split_and!.
  - apply NoDup_ListNoDup, List.NoDup_filter, NoDup_ListNoDup, Hl.
  - intros x [_ Hx]%list_elem_of_In%filter_In Hin.
    apply elem_of_concat in Hin as (l' & Hl' & Hxl').
    apply list_elem_of_fmap in Hl' as (k' & -> & Hk').
    apply list_elem_of_In, filter_In in Hxl' as [_ Hx'].
    assert (k = k') as <-; [|done].
    apply (Huniq x); [by left|by right|done..].
  - apply IH; [done|]. intros x k1 k2 ? ?. apply Huniq; by right.
Qed.

(** X10: [find_swift_files] lists no path twice when the walk of the tree
    gives none twice: a file name ends with at most one of the four
    extensions, so the four searches never find the same file. *)
Theorem find_swift_files_lists_each_once (source_tree : list Path) :
  NoDup source_tree → NoDup (find_swift_files source_tree).
Proof.
  intros Hnd. unfold find_swift_files.
  apply NoDup_ListNoDup, List.NoDup_filter, NoDup_ListNoDup.
  apply (NoDup_concat_filters (fun ext p => endswith (name p) ext)
           search_extensions source_tree Hnd).
  - unfold search_extensions. repeat (apply NoDup_cons; split);
      [| | | |constructor]; rewrite ?elem_of_cons, ?elem_of_nil; vm_compute;
      intros H; repeat (destruct H as [H|H]); congruence.
  - intros x k1 k2. apply endswith_extension_unique.
Qed.

(** Three files, one of them in an excluded directory. *)
Lemma find_swift_files_lists_each_once_witness :
  let source_tree := [[txt "App"; txt "View.swift"]; [txt "App"; txt "Model.m"];
                      [txt "Pods"; txt "Lib.swift"]] in
  NoDup source_tree
  ∧ NoDup (find_swift_files source_tree)
  ∧ find_swift_files source_tree
    = [[txt "App"; txt "View.swift"]; [txt "App"; txt "Model.m"]].
Proof.
  intros source_tree.
  assert (NoDup source_tree) as Hnd
    by (apply (bool_decide_unpack _); by vm_compute).
  split; [exact Hnd|].
  split; [exact (find_swift_files_lists_each_once source_tree Hnd)|by vm_compute].
Defined.

(** ** Keys that extend one another *)

Lemma generator_ref_prefix (fs : list text → option text) (shorter longer : text)
  (file : list text) :
  shorter `prefix_of` longer → generator_ref fs longer file →
  generator_ref fs shorter file.
Proof.
  intros [rest ->] (content & pre & post & Hfile & ->).
  exists (pre ++ (txt "L10n." ++ shorter ++ rest) ++ post), pre, (rest ++ post).
  split; [done|]. by app_norm.
Qed.

Lemma generator_ref_used (fs : list text → option text) original_key
  camel_case_key swift_files (file : list text) :
  file ∈ swift_files → generator_ref fs camel_case_key file →
  ∃ found, (is_localization_used fs original_key camel_case_key swift_files).1
           = (true, [found], txt "SwiftGen").
Proof.
  intros Hin Href. unfold is_localization_used.
  destruct (swiftgen_scan fs (swiftgen_term_of camel_case_key) swift_files)
    as [[found|] log] eqn:E; [by exists found|].
  assert ((swiftgen_scan fs (swiftgen_term_of camel_case_key) swift_files).1 = None)
    as Hnone by (by rewrite E).
  pose proof (proj1 (swiftgen_scan_None fs camel_case_key swift_files) Hnone) as Hno.
  by destruct (Hno file Hin).
Qed.

(** X11: an entry whose transformed key is a prefix of a text that some
    candidate file holds after [L10n.], for instance of the transformed key
    of a longer key that is referenced there, counts as used in generator
    style: it is not among the unused entries, and [used_details] holds it
    with the tag SwiftGen. *)
Theorem key_extended_by_referenced_key_is_used (fs : list text → option text)
  (source_tree : list (list text)) (localizations : list (text * (text * text)))
  (item : text * (text * text)) (longer : text) (file : list text) :
  NoDup localizations.*1 → item ∈ localizations →
  item.2.1 `prefix_of` longer →
  file ∈ find_swift_files source_tree → generator_ref fs longer file →
  let result := find_unused_localizations fs source_tree localizations in
  (item ∉ result.1)
  ∧ (item.1, (item.2.1, item.2.2, txt "SwiftGen")) ∈ result.2.
Proof.
  intros Hnd Hitem Hpre Hfile Href result. unfold result.
  rewrite find_unused_result by done. cbn [fst snd].
  destruct (generator_ref_used fs item.1 item.2.1 (find_swift_files source_tree) file
              Hfile (generator_ref_prefix fs _ _ _ Hpre Href)) as [found Hused].
  split.
  - intros [Hu _]%list_elem_of_filter. unfold entry_used in Hu.
    rewrite Hused in Hu. done.
  - apply list_elem_of_fmap. exists item. split.
    + unfold entry_usage. by rewrite Hused.
    + apply list_elem_of_filter. split; [|done]. unfold entry_used.
      by rewrite Hused.
Qed.

(** The key [common.ok] is referenced nowhere, [common.okay] is. *)
Lemma key_extended_by_referenced_key_is_used_witness :
  let file := [txt "App"; txt "View.swift"] in
  let fs : list text → option text :=
    fun p => if bool_decide (p = file) then Some (txt "Text(L10n.Common.okay)") else None in
  let item := (txt "common.ok", (txt "Common.ok", txt "OK")) in
  let localizations := [item; (txt "common.okay", (txt "Common.okay", txt "Okay"))] in
  let result := find_unused_localizations fs [file] localizations in
  (NoDup localizations.*1 ∧ item ∈ localizations
   ∧ item.2.1 `prefix_of` txt "Common.okay"
   ∧ file ∈ find_swift_files [file] ∧ generator_ref fs (txt "Common.okay") file)
  ∧ (item ∉ result.1)
  ∧ (item.1, (item.2.1, item.2.2, txt "SwiftGen")) ∈ result.2.
Proof.
  intros file fs item localizations result.
  assert (NoDup localizations.*1) as Hnd
    by (apply (bool_decide_unpack _); by vm_compute).
  assert (item ∈ localizations) as Hitem by (by left).
  assert (item.2.1 `prefix_of` txt "Common.okay") as Hpre by (by exists (txt "ay")).
  assert (file ∈ find_swift_files [file]) as Hfile
    by (apply (bool_decide_unpack _); by vm_compute).
  assert (generator_ref fs (txt "Common.okay") file) as Href
    by (by exists (txt "Text(L10n.Common.okay)"), (txt "Text("), (txt ")")).
  split; [done|].
  exact (key_extended_by_referenced_key_is_used fs [file] localizations item
           (txt "Common.okay") file Hnd Hitem Hpre Hfile Href).
Defined.

(** ** Removing in two passes *)

Lemma removed_line_union (u1 u2 : gset text) (line : text) :
  removed_line (u1 ∪ u2) line ↔ removed_line u1 line ∨ removed_line u2 line.
Proof.
  unfold removed_line. split.
  - intros (k & v & Hm & [H|H]%elem_of_union);
      [left|right]; by exists k, v.
  - intros [(k & v & Hm & H)|(k & v & Hm & H)]; exists k, v;
      (split; [done|]); apply elem_of_union; [by left|by right].
Qed.

Lemma filter_lines_kept (verbose : bool) (unused_keys : gset text) (lines : list text) :
  filtered_lines (filter_lines verbose unused_keys lines)
  = filter (fun line => ¬ removed_line unused_keys line) lines.
Proof.
  unfold filter_lines.
  by destruct (filter_loop verbose unused_keys lines
                 {| filtered_lines := []; removed_count := 0; printed := [] |})
    as (-> & _ & _).
Qed.

Lemma filter_lines_twice (verbose : bool) (u1 u2 : gset text) (lines : list text) :
  filtered_lines (filter_lines verbose u2
                    (filtered_lines (filter_lines verbose u1 lines)))
  = filtered_lines (filter_lines verbose (u1 ∪ u2) lines).
Proof.
  rewrite !filter_lines_kept, list_filter_filter. apply list_filter_iff.
  intros line. rewrite removed_line_union. tauto.
Qed.

(** X12: removing one set of keys and then another leaves the localization
    file as removing their union in one pass does, and removing the same
    keys a second time leaves it as the first removal did; so for real runs
    and previews, and for a file that is missing. *)
Theorem removing_in_two_passes (self : Cleaner) (u1 u2 : gset text) (disk : Disk) :
  let first := remove_unused_localizations self u1 disk in
  let second := remove_unused_localizations self u2 first.1.2 in
  let both := remove_unused_localizations self (u1 ∪ u2) disk in
  let again := remove_unused_localizations self u1 first.1.2 in
  localizable_file second.1.2 = localizable_file both.1.2
  ∧ localizable_file again.1.2 = localizable_file first.1.2.
Proof.
  assert (∀ u1 u2,
    localizable_file
      (remove_unused_localizations self u2
         (remove_unused_localizations self u1 disk).1.2).1.2
    = localizable_file (remove_unused_localizations self (u1 ∪ u2) disk).1.2) as H.
  { clear u1 u2. intros u1 u2. unfold remove_unused_localizations.
    destruct (bool_decide_reflect (u1 = ∅)) as [->|H1].
    { cbn [fst snd]. by rewrite (left_id_L ∅ (∪) u2). }
    destruct (bool_decide_reflect (u2 = ∅)) as [->|H2].
    { rewrite (right_id_L ∅ (∪) u1), (bool_decide_eq_false_2 _ H1).
      destruct (dry_run self); [done|].
      by destruct (localizable_file disk), (can_write_backup disk),
        (can_write_file disk). }
    rewrite (bool_decide_eq_false_2 (u1 ∪ u2 = ∅)) by set_solver.
    destruct (dry_run self); [done|].
    destruct (localizable_file disk) as [lines|] eqn:E;
      [|cbn [fst snd]; by rewrite E].
    destruct (can_write_backup disk) eqn:Hb; cbn [negb];
      [|cbn [fst snd]; by rewrite E, Hb].
    cbn [can_write_file can_write_backup].
    destruct (can_write_file disk) eqn:Hf;
      cbn [negb fst snd localizable_file can_write_backup can_write_file]; [|done].
    by rewrite filter_lines_twice. }
  intros first second both again. split; [apply H|].
  unfold again, first. by rewrite H, (idemp_L (∪) u1).
Qed.

(** ** Construction and [main] *)

(** Without the attribute, the search for the source directory raises as
    soon as one of its candidates exists. *)
Lemma find_source_dir_unset (paths : list (list text))
  (walk : list text → list (list text)) (project_root : list text) :
  _find_source_dir None paths walk project_root
  = if bool_decide (project_root ∈ paths
                    ∨ project_root ++ [txt "Sources"] ∈ paths
                    ∨ project_root ++ [txt "App"] ∈ paths)
    then inl AttributeError else inr project_root.
Proof.
  unfold _find_source_dir. cbn [source_dir_loop].
  repeat case_bool_decide; try done; tauto.
Qed.

Lemma find_localizable_file_raises (paths : list (list text))
  (project_root : list text) (e : Raised) :
  _find_localizable_file paths project_root = inl e → e = FileNotFoundError.
Proof.
  unfold _find_localizable_file. destruct (List.find _ _); [done|]. by intros [= <-].
Qed.

(** X13: the constructor returns a cleaner exactly when the localization
    file is given or found at one of the default places, and the source
    directory is given or none of the project root and its directories
    [Sources] and [App] exists; the cleaner then holds these paths.  When no
    source directory is given and one of the three exists, it raises
    [AttributeError] as soon as the localization file is settled:
    [_find_source_dir] reads [search_extensions], which [__init__] assigns
    only afterwards. *)
Theorem construction_succeeds_iff (path_of : text → list text)
  (paths : list (list text)) (walk : list text → list (list text))
  (project_root : list text)
  (localizable_file source_dir : option text) (dry_run verbose : bool) :
  let result :=
    __init__ path_of paths walk project_root localizable_file source_dir
      dry_run verbose in
  let located (path : list text) :=
    (∃ file, Checker.given localizable_file = Some file ∧ path = path_of file)
    ∨ (Checker.given localizable_file = None
       ∧ _find_localizable_file paths project_root = inr path) in
  let candidate_exists :=
    project_root ∈ paths
    ∨ project_root ++ [txt "Sources"] ∈ paths
    ∨ project_root ++ [txt "App"] ∈ paths in
  (∀ self, result = inr self ↔
     self_project_root self = project_root
     ∧ self_flags self = {| dry_run := dry_run; verbose := verbose |}
     ∧ located (self_localizable_file self)
     ∧ ((∃ dir, Checker.given source_dir = Some dir ∧ self_source_dir self = path_of dir)
        ∨ (Checker.given source_dir = None
           ∧ self_source_dir self = project_root
           ∧ ¬ candidate_exists)))
  ∧ (result = inl AttributeError ↔
     (∃ path, located path) ∧ Checker.given source_dir = None ∧ candidate_exists)
  ∧ (result = inl FileNotFoundError ↔ ¬ ∃ path, located path)
  ∧ result ≠ inl IndexError.
Proof.
  intros result located candidate_exists.
  unfold result, located, candidate_exists, __init__. rewrite find_source_dir_unset.
  pose proof (find_localizable_file_raises paths project_root) as Hraises.
  destruct (Checker.given localizable_file) as [file|];
    [|destruct (_find_localizable_file paths project_root) as [e|found]];
    try (specialize (Hraises e eq_refl) as ->);
    (destruct (Checker.given source_dir) as [dir|]; [|try case_bool_decide]);
    (split_and!; [intros [pr lf sd fl]; cbn|..]; naive_solver).
Qed.

(** [run] returns [True] exactly under [run_succeeds]. *)
Lemma run_true_iff (self : Cleaner) (fs : list text → option text)
  (source_tree : list (list text)) (input : Input) (w : World) :
  (run self fs source_tree input w).1 = inr true
  ↔ run_succeeds self fs source_tree input w.
Proof.
  unfold run_succeeds.
  destruct (run_value self fs source_tree input w)
    as [[Hno Hres]
       |[(Hentries & Hrw & Hres)
        |(Hentries & Hrw &
          [[Hwhy Hres]
          |(Hsome & Hreal &
            [[Hin Hres]
            |[[Hin Hres]
             |(confirm & Hin &
               [[Hconf Hres]|[(Hconf & Hw & Hres)|(Hconf & Hw & Hres)]])]])])]];
    rewrite ?Hres; cbn [fst]; split;
    try naive_solver;
    try (intros; destruct_and?; congruence);
    (intros (_ & _ & [Hnone | [Hdry | [[c Hc] Himp]]]);
     [by destruct Hnone | congruence
     | first [congruence | by destruct Hw; apply Himp]]).
Qed.

(** [main] once the command line is parsed. *)
Lemma main_parsed (path_of : text → list text) (paths : list (list text))
  (walk : list text → list (list text)) (fs : list text → option text)
  (input : Input) (world : list text → World) (args : CleanerArgs) :
  let status := main path_of paths walk fs input world (Parsed args) in
  (status = 0 ∨ status = 1)
  ∧ (status = 0 ↔
     args_project_root args ∈ paths
     ∧ ∃ dir file_path,
         Checker.given (args_source_dir args) = Some dir
         ∧ ((∃ file, Checker.given (args_localizable_file args) = Some file
                     ∧ file_path = path_of file)
            ∨ (Checker.given (args_localizable_file args) = None
               ∧ _find_localizable_file paths (args_project_root args) = inr file_path))
         ∧ run_succeeds {| dry_run := args_dry_run args; verbose := args_verbose args |}
             fs (walk (path_of dir)) input (world file_path)).
Proof.
  intros status. unfold status, main, __init__. clear status.
  rewrite find_source_dir_unset.
  destruct (bool_decide_reflect (args_project_root args ∈ paths)) as [Hroot|Hroot];
    cbn [negb]; [|naive_solver].
  rewrite (bool_decide_eq_true_2 _ (or_introl Hroot)).
  destruct (Checker.given (args_source_dir args)) as [dir|].
  2:{ destruct (Checker.given (args_localizable_file args)) as [file|];
        [|destruct (_find_localizable_file paths (args_project_root args))];
        naive_solver. }
  assert (∀ file_path,
    let r := (run {| dry_run := args_dry_run args; verbose := args_verbose args |} fs
                (walk (path_of dir)) input (world file_path)).1 in
    let s := match r with inr success => if success then 0 else 1 | inl _ => 1 end in
    (s = 0 ∨ s = 1)
    ∧ (s = 0 ↔ run_succeeds
                 {| dry_run := args_dry_run args; verbose := args_verbose args |}
                 fs (walk (path_of dir)) input (world file_path)))
    as Hstatus.
  { intros file_path r s. unfold s, r.
    rewrite <- (run_true_iff
      {| dry_run := args_dry_run args; verbose := args_verbose args |} fs
      (walk (path_of dir)) input (world file_path)).
    destruct (run _ _ _ _ _).1 as [e|[|]]; naive_solver. }
  destruct (Checker.given (args_localizable_file args)) as [file|];
    [|destruct (_find_localizable_file paths (args_project_root args)) as [e|found]];
    cbn [self_flags self_source_dir self_localizable_file].
  - destruct (Hstatus (path_of file)) as [H01 Hiff]. split; [done|].
    rewrite Hiff. naive_solver.
  - naive_solver.
  - destruct (Hstatus found) as [H01 Hiff]. split; [done|].
    rewrite Hiff. naive_solver.
Qed.

(** X14: [main] of the cleaner exits with status 0, 1 or 2; with 2 exactly
    on a usage error.  It exits with 0 exactly on [--help], or when the
    project root exists, a source directory is given on the command line,
    the localization file, given or found at one of the default places, holds
    an entry, the report can be written, and either no entry is unused, or
    the run is a preview, or the prompt is answered and, when the answer is
    [y] or [Y], the backup and the file can be written.  So without
    [--source-dir] the status is never 0 but for [--help], and the status
    does not tell whether unused entries were found or removed. *)
Theorem main_exits_zero_iff (path_of : text → list text) (paths : list (list text))
  (walk : list text → list (list text)) (fs : list text → option text)
  (input : Input) (world : list text → World) (command_line : CommandLine) :
  let status := main path_of paths walk fs input world command_line in
  (status = 0 ∨ status = 1 ∨ status = 2)
  ∧ (status = 2 ↔ command_line = UsageError)
  ∧ (status = 0 ↔
     command_line = Help
     ∨ ∃ args dir file_path,
         command_line = Parsed args
         ∧ args_project_root args ∈ paths
         ∧ Checker.given (args_source_dir args) = Some dir
         ∧ ((∃ file, Checker.given (args_localizable_file args) = Some file
                     ∧ file_path = path_of file)
            ∨ (Checker.given (args_localizable_file args) = None
               ∧ _find_localizable_file paths (args_project_root args) = inr file_path))
         ∧ run_succeeds {| dry_run := args_dry_run args; verbose := args_verbose args |}
             fs (walk (path_of dir)) input (world file_path)).
Proof.
  intros status. unfold status. clear status.
  destruct command_line as [| |args].
  - cbn [main]. split_and!; [by right; right|done|].
    split; [done|]. by intros [[=]|(? & ? & ? & [=] & _)].
  - cbn [main]. split_and!; [by left|done|]. split; [by left|done].
  - destruct (main_parsed path_of paths walk fs input world args) as [H01 Hiff].
    split_and!.
    + destruct H01 as [->| ->]; [by left|by right; left].
    + split; [|done]. intros H2. destruct H01 as [H|H]; rewrite H in H2; done.
    + rewrite Hiff. split.
      * intros (Hroot & dir & file_path & Hdir & Hfile & Hrun).
        right. by exists args, dir, file_path.
      * intros [[=]|(args' & dir & file_path & [= <-] & Hroot & Hdir & Hfile & Hrun)].
        split; [done|]. by exists dir, file_path.
Qed.

(** Without [--source-dir] and with an existing project root the constructor
    raises and [main] exits with 1, whatever the files hold. *)
Example main_without_source_dir :
  let project_root := [txt "proj"] in
  let strings := [txt "proj"; txt "Localizable.strings"] in
  let world : list text → World :=
    fun _ => {| strings_file := Some (quoted "'common.ok' = 'OK';" ++ [LF]);
                strings_backup := None; report_file := None;
                strings_writable := true; backup_writable := true;
                report_writable := true |} in
  main (fun _ => strings) [project_root; strings] (fun _ => [])
    (fun _ => None) EndOfInput world
    (Parsed {| args_dry_run := true; args_verbose := false;
               args_project_root := project_root;
               args_localizable_file := Some (txt "proj/Localizable.strings");
               args_source_dir := None |})
  = 1.
Proof. by vm_compute. Qed.

(** * Further properties of the key-diff tool *)

Module KeyDiffFacts.
Import Checker CheckerSpec CheckerFacts.

(** ** The keys of the key-diff tool *)

Lemma lazy_to_quote_semicolon_iff (s : text) :
  lazy_to_quote_semicolon s = true ↔
  ∃ body rest, s = body ++ QUOTE :: SEMICOLON :: rest ∧ LF ∉ body.
Proof.
  induction s as [|c s IH].
  - simpl. split; [done|]. intros (body & rest & H & _). by destruct body.
  - cbn [lazy_to_quote_semicolon]. rewrite orb_true_iff, andb_true_iff, IH.
    rewrite startswith_iff, negb_true_iff, N.eqb_neq. split.
    + intros [[rest H]|[Hc (body & rest & -> & Hb)]].
      * exists [], rest. split; [done|]. apply not_elem_of_nil.
      * exists (c :: body), rest. split; [done|].
        rewrite not_elem_of_cons. by split; [congruence|].
    + intros ([|d body] & rest & H & Hb).
      * left. by exists rest.
      * injection H as -> ->. apply not_elem_of_cons in Hb as [Hd Hb].
        right. split; [congruence|]. by exists body, rest.
Qed.

Lemma match_key_iff (line key : text) : match_key line = Some key ↔ key_line line key.
Proof.
  unfold match_key, key_line. split.
  - destruct (expect QUOTE line) as [s1|] eqn:E1; [|done]. cbn [mbind option_bind].
    destruct (scan_value s1) as [[k s2]|] eqn:E2; [|done]. cbn [mbind option_bind].
    destruct (expect EQUALS (lstrip s2)) as [s3|] eqn:E3; [|done].
    cbn [mbind option_bind].
    destruct (expect QUOTE (lstrip s3)) as [s4|] eqn:E4; [|done].
    cbn [mbind option_bind].
    destruct (lazy_to_quote_semicolon s4) eqn:E5; [|done]. intros [= <-].
    apply expect_Some in E1 as ->. apply scan_value_sound in E2 as [-> Hk].
    apply expect_Some in E3. apply expect_Some in E4.
    destruct (lstrip_split s2) as (ws2 & H2 & Hws2).
    destruct (lstrip_split s3) as (ws3 & H3 & Hws3).
    apply lazy_to_quote_semicolon_iff in E5 as (body & rest & -> & Hb).
    exists ws2, ws3, body, rest. split_and!; try done.
    rewrite H2, E3, H3, E4. by app_norm.
  - intros (ws2 & ws3 & body & rest & -> & Hk & H2 & H3 & Hb).
    cbn [expect]. rewrite N.eqb_refl. cbn [mbind option_bind].
    rewrite scan_value_complete by done. cbn [mbind option_bind].
    rewrite lstrip_spaces, lstrip_nonspace by done.
    cbn [expect]. rewrite N.eqb_refl. cbn [mbind option_bind].
    rewrite lstrip_spaces, lstrip_nonspace by done.
    cbn [expect]. rewrite N.eqb_refl. cbn [mbind option_bind].
    rewrite (proj2 (lazy_to_quote_semicolon_iff _)); [done|]. by exists body, rest.
Qed.

Lemma key_of_line_iff (raw key : text) :
  key_of_line raw = Some key ↔ key_line (strip raw) key.
Proof.
  rewrite <- match_key_iff. unfold key_of_line.
  destruct (blank_or_comment (strip raw)) eqn:E; [|done].
  split; [done|]. intros Hm. unfold blank_or_comment in E.
  apply orb_true_iff in E as [E|E].
  - apply bool_decide_eq_true in E. by rewrite E in Hm.
  - destruct (strip raw) as [|c rest]; [done|]. cbn [startswith] in E.
    apply andb_true_iff in E as [Hc _]. apply N.eqb_eq in Hc as <-. done.
Qed.

(** X15: the keys the key-diff tool reads from a file are the keys of the
    lines that, stripped, match its pattern: a quoted key made of characters
    other than quote and backslash and of backslash escapes, an equals sign
    with white space around it, a quote, and further on a quote that a
    semicolon follows; what comes after that semicolon is not looked at. *)
Theorem checker_keys_are_key_lines (content key : text) :
  key ∈ parse_strings_file_content content ↔
  ∃ raw, raw ∈ splitlines content ∧ key_line (strip raw) key.
Proof.
  unfold parse_strings_file_content. rewrite elem_of_keys. split.
  - intros [?%elem_of_empty|(raw & Hin & Hk)]; [done|].
    exists raw. split; [done|]. by apply key_of_line_iff.
  - intros (raw & Hin & Hk). right. exists raw. split; [done|].
    by apply key_of_line_iff.
Qed.

(** ** The two tools on one file *)

Lemma key_chars_value_body (key : text) : key_chars key → value_body key.
Proof.
  induction 1 as [|c key Hc _ IH]; [constructor|].
  apply value_plain; [| |done]; intros ->; by vm_compute in Hc.
Qed.

(** A stripped entry line begins with the quote of the key and ends with the
    semicolon. *)
Lemma stripped_entry_line (line key value : text) :
  entry_line (strip line) key value →
  ∃ ws2 ws3 ws4,
    strip line = QUOTE :: key ++ QUOTE :: ws2 ++ EQUALS :: ws3
                 ++ QUOTE :: value ++ QUOTE :: ws4 ++ [SEMICOLON]
    ∧ spaces ws2 ∧ spaces ws3 ∧ spaces ws4 ∧ key_chars key ∧ value_body value.
Proof.
  intros H. apply (proj1 (entry_line_strip line key value)) in H.
  destruct H as (ws1 & ws2 & ws3 & ws4 & ws5 & -> & H1 & H2 & H3 & H4 & H5 & Hne & Hk & Hv).
  exists ws2, ws3, ws4. split_and!; try done.
  unfold strip. rewrite lstrip_spaces, lstrip_nonspace by done.
  set (core := QUOTE :: key ++ QUOTE :: ws2 ++ EQUALS :: ws3
               ++ QUOTE :: value ++ QUOTE :: ws4).
  replace (QUOTE :: key ++ QUOTE :: ws2 ++ EQUALS :: ws3
           ++ QUOTE :: value ++ QUOTE :: ws4 ++ SEMICOLON :: ws5)
    with ((core ++ [SEMICOLON]) ++ ws5) by (unfold core; by app_norm).
  rewrite rstrip_spaces, rstrip_nonspace by done.
  unfold core. by app_norm.
Qed.

(** When both tools read a key from a line, it is the same key. *)
Lemma same_key_of_line (raw key value key' : text) :
  line_holds raw key value → key_of_line raw = Some key' → key' = key.
Proof.
  intros (ws2 & ws3 & ws4 & Hs & _ & _ & _ & Hk & _)%stripped_entry_line.
  intros Hkey%key_of_line_iff%match_key_iff. rewrite Hs in Hkey.
  unfold match_key in Hkey. cbn [expect] in Hkey. rewrite N.eqb_refl in Hkey.
  cbn [mbind option_bind] in Hkey.
  rewrite scan_value_complete in Hkey by by apply key_chars_value_body.
  cbn [mbind option_bind] in Hkey.
  destruct (expect EQUALS _) as [s3|]; [|done]. cbn [mbind option_bind] in Hkey.
  destruct (expect QUOTE _) as [s4|]; [|done]. cbn [mbind option_bind] in Hkey.
  destruct (lazy_to_quote_semicolon s4); congruence.
Qed.

(** The key-diff tool reads an entry line of the cleaner that ends with a
    quote and a semicolon. *)
Lemma tight_entry_key_of_line (raw key value : text) :
  line_holds raw key value → LF ∉ value →
  endswith (strip raw) [QUOTE; SEMICOLON] = true →
  key_of_line raw = Some key.
Proof.
  intros (ws2 & ws3 & ws4 & Hs & H2 & H3 & H4 & Hk & Hv)%stripped_entry_line Hlf.
  intros [stem Hend]%endswith_iff.
  assert (ws4 = []) as ->.
  { destruct ws4 as [|c ws4 _] using rev_ind; [done|].
    rewrite Hs in Hend.
    replace (QUOTE :: key ++ QUOTE :: ws2 ++ EQUALS :: ws3
             ++ QUOTE :: value ++ QUOTE :: (ws4 ++ [c]) ++ [SEMICOLON])
      with ((QUOTE :: key ++ QUOTE :: ws2 ++ EQUALS :: ws3
             ++ QUOTE :: value ++ QUOTE :: ws4) ++ [c; SEMICOLON]) in Hend
      by by app_norm.
    apply app_inj_2 in Hend as [_ [= ->]]; [|done].
    apply Forall_app in H4 as [_ H4]. apply Forall_cons in H4 as [H4 _]. done. }
  apply key_of_line_iff. rewrite Hs. exists ws2, ws3, value, [].
  split_and!; try done. by apply key_chars_value_body.
Qed.

Lemma table_key_line (lines : list text) (key : text) :
  key ∈ (fold_left parse_line lines []).*1 →
  ∃ raw value, raw ∈ lines ∧ line_holds raw key value.
Proof.
  intros Hin.
  destruct (last_holds_or_none lines key)
    as [Hno|[v (before & raw & after & -> & Hraw & _)]].
  - pose proof (parse_lines_other lines [] key Hno) as Hget.
    apply list_elem_of_fmap in Hin as ([k e] & -> & Hin).
    apply dict_get_elem_of in Hin; [|apply parse_lines_NoDup; constructor].
    cbn [fst] in Hget. rewrite Hin in Hget. done.
  - exists raw, v. split; [|done]. apply elem_of_app. right. by left.
Qed.

(** X16: on a file in which every entry line, once stripped, ends with a
    quote and a semicolon, every key of the cleaner's table is a key for the
    key-diff tool; and whenever both tools read a key from a line, it is the
    same key. *)
Theorem checker_sees_cleaner_keys (content : text)
  (table : list (text * (text * text))) :
  parse_localizable_strings (Some content) = Some table →
  (∀ raw key value, raw ∈ splitlines content → line_holds raw key value →
     endswith (strip raw) [QUOTE; SEMICOLON] = true) →
  (∀ key, key ∈ table.*1 → key ∈ parse_strings_file_content content)
  ∧ (∀ raw key value key',
       line_holds raw key value → key_of_line raw = Some key' → key' = key).
Proof.
  intros [= <-] Htight. split; [|apply same_key_of_line].
  intros key (raw & value & Hin & Hraw)%table_key_line.
  unfold parse_strings_file_content. apply elem_of_keys. right.
  exists raw. split; [done|].
  apply (tight_entry_key_of_line raw key value); [done| |by apply (Htight raw key value)].
  assert (no_linebreak raw) as Hnl.
  { pose proof (splitlines_from_no_linebreak [] content ltac:(constructor)) as Hall.
    rewrite Forall_forall in Hall. by apply Hall. }
  pose proof (entry_line_value_no_linebreak _ _ _ Hraw (strip_no_linebreak _ Hnl)) as Hv.
  intros Hlf. unfold no_linebreak in Hv. rewrite Forall_forall in Hv.
  by specialize (Hv LF Hlf).
Qed.

(** A file of two entries. *)
Lemma checker_sees_cleaner_keys_witness :
  let content := quoted "'common.ok' = 'OK';" ++ [LF]
                 ++ quoted "  'market.back' = 'Back';  " ++ [LF] in
  let table := [(txt "common.ok", (txt "Common.ok", txt "OK"));
                (txt "market.back", (txt "Market.back", txt "Back"))] in
  (parse_localizable_strings (Some content) = Some table
   ∧ ∀ raw key value, raw ∈ splitlines content → line_holds raw key value →
       endswith (strip raw) [QUOTE; SEMICOLON] = true)
  ∧ ∀ key, key ∈ table.*1 → key ∈ parse_strings_file_content content.
Proof.
  intros content table.
  assert (parse_localizable_strings (Some content) = Some table) as Hparse
    by (by vm_compute).
  assert (∀ raw key value, raw ∈ splitlines content → line_holds raw key value →
            endswith (strip raw) [QUOTE; SEMICOLON] = true) as Htight.
  { intros raw key value Hin _.
    assert (splitlines content
            = [quoted "'common.ok' = 'OK';"; quoted "  'market.back' = 'Back';  "])
      as Hlines by (by vm_compute).
    rewrite Hlines in Hin.
    apply elem_of_cons in Hin as [->|Hin]; [by vm_compute|].
    apply list_elem_of_singleton in Hin as ->. by vm_compute. }
  split; [done|].
  exact (proj1 (checker_sees_cleaner_keys content table Hparse Htight)).
Defined.

(** The condition on the lines is needed: a blank before the semicolon, and
    the cleaner reads the entry while the key-diff tool reads nothing. *)
Example blank_before_semicolon :
  let content := quoted "'a' = '1' ;" in
  parse_localizable_strings (Some content) = Some [(txt "a", (txt "a", txt "1"))]
  ∧ parse_strings_file_content content = ∅.
Proof. by vm_compute. Qed.

(** ** The summary of the key-diff tool *)

Lemma displayed_keys_app (out1 out2 : list Output) :
  displayed_keys (out1 ++ out2) = displayed_keys out1 ++ displayed_keys out2.
Proof. apply omap_app. Qed.

(** What one comparison prints: as many keys as it counts, and no summary. *)
Lemma compare_shape (listing : gset text → list text)
  (base_keys compare_keys : gset text) (compare_name : text) :
  (∀ keys, listing keys ≡ₚ elements keys) →
  let shown :=
    compare_and_display_missing_keys listing base_keys compare_keys compare_name in
  length (displayed_keys shown.2) = shown.1 ∧ ∀ n, Summary n ∉ shown.2.
Proof.
  intros Hlisting shown. unfold shown. rewrite compare_displayed.
  unfold compare_and_display_missing_keys.
  destruct (bool_decide_reflect (base_keys ∖ compare_keys = ∅)) as [He|Hne]; cbn [fst snd].
  - split; [by rewrite He, size_empty|].
    intros n [=]%list_elem_of_singleton.
  - split.
    + unfold sorted. by rewrite merge_sort_Permutation, Hlisting.
    + intros n [[=]|Hin]%elem_of_cons.
      by apply list_elem_of_fmap in Hin as (k & [=] & _).
Qed.

(** X17: when [main] of the key-diff tool prints its summary, the total it
    states is the number of keys it has listed as missing, over both
    comparisons, and [main] returns 0 exactly when that total is 0; when it
    prints no summary it has listed no key and returns 1. *)
Theorem summary_counts_listed_keys (listing : gset text → list text)
  (fs : text → option text) (args : Args) :
  (∀ keys, listing keys ≡ₚ elements keys) →
  let result := main listing fs args in
  (∀ n, Summary n ∈ result.2 →
        n = length (displayed_keys result.2) ∧ (result.1 = 0 ↔ n = 0))
  ∧ ((∀ n, Summary n ∉ result.2) → result.1 = 1 ∧ displayed_keys result.2 = []).
Proof.
  intros Hlisting result. unfold result, main, read_file_content. clear result.
  destruct (fs (base_file args)) as [base_content|].
  2:{ split; [|done]. intros n. cbn [app fst snd].
      rewrite ?elem_of_app, ?elem_of_cons, ?elem_of_nil. naive_solver. }
  case_bool_decide.
  { split; [|done]. intros n. cbn [app fst snd].
    rewrite ?elem_of_app, ?elem_of_cons, ?elem_of_nil. naive_solver. }
  destruct (fs (compare_file1 args)) as [compare1_content|].
  2:{ split; [|done]. intros n. cbn [app fst snd].
      rewrite ?elem_of_app, ?elem_of_cons, ?elem_of_nil. naive_solver. }
  match goal with
  | |- context [compare_and_display_missing_keys ?l ?b ?c ?n] =>
      destruct (compare_shape l b c n Hlisting) as [Hlen1 Hno1];
      destruct (compare_and_display_missing_keys l b c n) as [n1 o1]
  end. cbn [fst snd] in Hlen1, Hno1.
  assert (∀ (t : nat) (out : list Output),
    (∀ n, Summary n ∉ out) → length (displayed_keys out) = t →
    let result := (if bool_decide (t = 0) then 0 else 1,
                   out ++ [Rule; Summary t; Rule]) in
    (∀ n, Summary n ∈ result.2 →
          n = length (displayed_keys result.2) ∧ (result.1 = 0 ↔ n = 0))
    ∧ ((∀ n, Summary n ∉ result.2) → result.1 = 1 ∧ displayed_keys result.2 = []))
    as Hend.
  { intros t out Hno Hlen r. unfold r. cbn [fst snd]. split.
    - intros n. rewrite elem_of_app, !elem_of_cons, elem_of_nil.
      intros [Hin|[[=]|[[= ->]|[[=]|[]]]]]; [by destruct (Hno n)|].
      rewrite displayed_keys_app, length_app, Hlen. cbn. split; [lia|].
      case_bool_decide; split; (done || lia).
    - intros Hnone. destruct (Hnone t). rewrite elem_of_app, !elem_of_cons. tauto. }
  destruct (given (compare_file2 args)) as [file2|];
    [destruct (fs file2) as [compare2_content|]|].
  - match goal with
    | |- context [compare_and_display_missing_keys ?l ?b ?c ?n] =>
        destruct (compare_shape l b c n Hlisting) as [Hlen2 Hno2];
        destruct (compare_and_display_missing_keys l b c n) as [n2 o2]
    end. cbn [fst snd] in Hlen2, Hno2.
    apply Hend.
    + intros n. rewrite ?elem_of_app, ?elem_of_cons, ?elem_of_nil.
      specialize (Hno1 n). specialize (Hno2 n). naive_solver.
    + rewrite !displayed_keys_app, !length_app, Hlen1, Hlen2. cbn. lia.
  - apply Hend.
    + intros n. rewrite ?elem_of_app, ?elem_of_cons, ?elem_of_nil.
      specialize (Hno1 n). naive_solver.
    + rewrite !displayed_keys_app, !length_app, Hlen1. cbn. lia.
  - apply Hend.
    + intros n. rewrite ?elem_of_app, ?elem_of_cons, ?elem_of_nil.
      specialize (Hno1 n). naive_solver.
    + rewrite !displayed_keys_app, !length_app, Hlen1. cbn. lia.
Qed.

(** One key missing from the compare file. *)
Lemma summary_counts_listed_keys_witness :
  let fs := disk_of [(txt "en.lproj/Localizable.strings",
                      quoted "'a' = '1';" ++ [LF] ++ quoted "'b' = '2';" ++ [LF]);
                     (txt "fr.lproj/Localizable.strings",
                      quoted "'a' = 'un';" ++ [LF])] in
  let args := {| base_file := txt "en.lproj/Localizable.strings";
                 compare_file1 := txt "fr.lproj/Localizable.strings";
                 compare_file2 := None |} in
  let result := main elements fs args in
  (∀ keys : gset text, elements keys ≡ₚ elements keys)
  ∧ result.1 = 1
  ∧ displayed_keys result.2 = [txt "b"]
  ∧ ∀ n, Summary n ∈ result.2 →
         n = length (displayed_keys result.2) ∧ (result.1 = 0 ↔ n = 0).
Proof.
  intros fs args result.
  assert (∀ keys : gset text, elements keys ≡ₚ elements keys) as Hlisting by done.
  split; [exact Hlisting|].
  split; [by vm_compute|].
  split; [by vm_compute|].
  exact (proj1 (summary_counts_listed_keys elements fs args Hlisting)).
Defined.

End KeyDiffFacts.
